(** * Roche: the frame orchestrator and camera state machine of [game.cpp]

    A shallow embedding of [src/game.cpp]: the calendar formatting of the
    epoch, the edge-triggered key table, the per-frame entity state
    resolution, the texture-load body list and the three-phase camera
    controller (IDLE, TRACK, MOVE).

    Numbers.  [int] and [long] values are integers of [Z]; the conversion
    [long -> int] is written out ([to_int]); signed overflow inside [int]
    arithmetic is undefined in C++ and the theorems carry the range in
    which it cannot happen.  [float] and [double] values are idealised as
    real numbers of [R]: rounding, overflow and NaN are outside the model,
    so every statement about camera or position arithmetic is a statement
    about the exact arithmetic the code approximates. *)

From Stdlib Require Import ZArith String Ascii DecimalString List.
From Stdlib Require Import Reals Lra Lia Psatz.
From stdpp Require Import base option list gmap.

Local Open Scope Z_scope.

(** ** Integers of the machine *)

(** Conversion of a [long] to a 32-bit [int] (two's complement wrap). *)
Definition to_int (z : Z) : Z :=
  (z + 2147483648) mod 4294967296 - 2147483648.

Definition INT_MAX : Z := 2147483647.

(** [(char)c] for an [int] c: the low eight bits. *)
Definition to_char (z : Z) : ascii :=
  ascii_of_N (Z.to_N (z mod 256)).

(** [std::to_string(int)]. *)
Definition to_string (z : Z) : string :=
  NilZero.string_of_int (Z.to_int z).

(** ** Calendar formatting ([format], [isLeapYear], [getFormattedTime]) *)

(** [std::string(1, (char)('0'+(value/10))) + std::string(1, (char)('0'+(value%10)))];
    [/] and [%] of C++ truncate toward zero. *)
Definition format (value : Z) : string :=
  String (to_char (48 + Z.quot value 10))
    (String (to_char (48 + Z.rem value 10)) EmptyString).

Definition isLeapYear (year : Z) : bool :=
  ((Z.rem year 4 =? 0) && negb (Z.rem year 100 =? 0)) || (Z.rem year 400 =? 0).

(** The first [while (true)] of [getFormattedTime]: [(i, year)] at the
    [break].  [None] when the fuel runs out before the loop exits.  The
    sums [i + daysInYear] and [year + 1] are those of the [int] variables
    of the code as long as they do not pass [INT_MAX], which holds while
    [days <= INT_MAX - 366]; the theorems on this loop carry that
    range. *)
Fixpoint yearLoop (fuel : nat) (days i year : Z) : option (Z * Z) :=
  match fuel with
  | O => None
  | S fuel' =>
      let daysInYear := 365 + (if isLeapYear year then 1 else 0) in
      if i + daysInYear <=? days
      then yearLoop fuel' days (i + daysInYear) (year + 1)
      else Some (i, year)
  end.

Definition monthLength (year : Z) : list Z :=
  [31; 28 + (if isLeapYear year then 1 else 0); 31;
   30; 31; 30;
   31; 31; 30;
   31; 30; 31].

Definition monthNames : list string :=
  ["Jan"; "Feb"; "Mar";
   "Apr"; "May"; "Jun";
   "Jul"; "Aug"; "Sep";
   "Oct"; "Nov"; "Dec"]%string.

(** The second [while (true)]: [(j, month)] at the [break].  Reading
    [monthLength[month]] past the end of the vector is undefined in C++:
    the model stops with [None] there. *)
Fixpoint monthLoop (fuel : nat) (lengths : list Z) (remainingDays j : Z)
    (month : nat) : option (Z * nat) :=
  match fuel with
  | O => None
  | S fuel' =>
      match nth_error lengths month with
      | None => None
      | Some daysInMonth =>
          if j + daysInMonth <=? remainingDays
          then monthLoop fuel' lengths remainingDays (j + daysInMonth) (S month)
          else Some (j, month)
      end
  end.

Definition getFormattedTime (epochInSeconds : Z) : option string :=
  let seconds := to_int (Z.rem epochInSeconds 60) in
  let minutes := to_int (Z.rem (Z.quot epochInSeconds 60) 60) in
  let hours := to_int (Z.rem (Z.quot epochInSeconds 3600) 24) in
  let days := to_int (Z.quot epochInSeconds 86400) in
  match yearLoop (S (Z.to_nat days)) days 0 2017 with
  | None => None
  | Some (i, year) =>
      let remainingDays := days - i in
      match monthLoop 13 (monthLength year) remainingDays 0 0 with
      | None => None
      | Some (j, month) =>
          match nth_error monthNames month with
          | None => None
          | Some name =>
              Some (name ++ ". " ++
                    to_string (remainingDays - j + 1) ++ " " ++
                    to_string year ++ " " ++
                    format hours ++ ":" ++
                    format minutes ++ ":" ++
                    format seconds ++ " UTC")%string
          end
      end
  end.

(** *** The proleptic Gregorian calendar, as the specification words it *)

Module Gregorian.

(** Divisible by 4, not by 100 unless by 400. *)
Definition leap (y : Z) : bool :=
  if decide (y mod 400 = 0) then true
  else if decide (y mod 100 = 0) then false
  else if decide (y mod 4 = 0) then true else false.

(** Month lengths {31,28/29,31,30,31,30,31,31,30,31,30,31}. *)
Definition month_days (y : Z) (m : nat) : Z :=
  match m with
  | 1%nat => if leap y then 29 else 28
  | 3%nat | 5%nat | 8%nat | 10%nat => 30
  | _ => 31
  end.

(** Leap days in the years 1 .. y-1. *)
Definition leaps_before (y : Z) : Z :=
  (y - 1) / 4 - (y - 1) / 100 + (y - 1) / 400.

(** Days from 1 January 2017 to 1 January of year [y]. *)
Definition days_before_year (y : Z) : Z :=
  365 * (y - 2017) + (leaps_before y - leaps_before 2017).

(** Days from 1 January of [y] to the first of month [m] (0 = January). *)
Fixpoint days_before_month (y : Z) (m : nat) : Z :=
  match m with
  | O => 0
  | S m' => days_before_month y m' + month_days y m'
  end.

Record date := { year : Z; month : nat; day : Z }.

Definition valid (d : date) : Prop :=
  2017 <= year d /\ (month d < 12)%nat /\
  1 <= day d <= month_days (year d) (month d).

(** Day number of a date, counted from the reference instant. *)
Definition day_number (d : date) : Z :=
  days_before_year (year d) + days_before_month (year d) (month d)
  + (day d - 1).

Definition month_name (m : nat) : string :=
  match m with
  | 0 => "Jan" | 1 => "Feb" | 2 => "Mar" | 3 => "Apr"
  | 4 => "May" | 5 => "Jun" | 6 => "Jul" | 7 => "Aug"
  | 8 => "Sep" | 9 => "Oct" | 10 => "Nov" | _ => "Dec"
  end%nat%string.

(** A number below 100 on two digits, zero-padded. *)
Definition two_digits (v : Z) : string :=
  if v <? 10 then ("0" ++ to_string v)%string else to_string v.

(** ["<Mon>. <day> <year> HH:MM:SS UTC"]. *)
Definition render (d : date) (h mi s : Z) : string :=
  (month_name (month d) ++ ". " ++ to_string (day d) ++ " " ++
   to_string (year d) ++ " " ++
   two_digits h ++ ":" ++ two_digits mi ++ ":" ++ two_digits s ++ " UTC")%string.

End Gregorian.

(** [t] is a suffix of [s]. *)
Fixpoint suffixb (t s : string) : bool :=
  String.eqb t s ||
  match s with
  | EmptyString => false
  | String _ s' => suffixb t s'
  end.

(** ** Real arithmetic of the C library and of GLM *)

Local Open Scope R_scope.

#[global] Instance Rlt_decision : RelDecision Rlt := Rlt_dec.
#[global] Instance Rle_decision : RelDecision Rle := Rle_dec.
#[global] Instance Req_decision : EqDecision R := Req_dec_T.

(** Truncation toward zero of a real number. *)
Definition Rtrunc (x : R) : R :=
  if decide (0 <= x) then IZR (Int_part x) else - IZR (Int_part (- x)).

(** [fmod(x, y)]: the remainder of the truncated quotient; it has the sign
    of [x]. *)
Definition fmod (x y : R) : R := x - y * Rtrunc (x / y).

(** [floor(x)] converted to [long]. *)
Definition floor (x : R) : Z := Int_part x.

(** [pow(x, y)] of the C library: [exp(y ln x)] on positive [x]; at zero, 0
    for a positive exponent and 1 for exponent 0; on negative [x] the
    integral power when [y] is an integer.  The two remaining cases are an
    infinity and a NaN in C, which have no real value: the model gives 0. *)
Definition powf (x y : R) : R :=
  if decide (0 < x) then Rpower x y
  else if decide (x = 0) then
         (if decide (0 < y) then 0 else if decide (y = 0) then 1 else 0)
  else if decide (IZR (Int_part y) = y) then powerRZ x (Int_part y)
  else 0.

(** [atan2(y, x)] of the C library. *)
Definition atan2 (y x : R) : R :=
  if decide (0 < x) then atan (y / x)
  else if decide (x < 0) then
         (if decide (0 <= y) then atan (y / x) + PI else atan (y / x) - PI)
  else if decide (0 < y) then PI / 2
  else if decide (y < 0) then - (PI / 2)
  else 0.

(** [glm::clamp(x, lo, hi) = min(max(x, lo), hi)]. *)
Definition clamp (x lo hi : R) : R := Rmin (Rmax x lo) hi.

Module Glm.

Record vec2 := Vec2 { x2 : R; y2 : R }.
Record vec3 := Vec3 { x3 : R; y3 : R; z3 : R }.
(** A 3x3 matrix by columns: [m[c]] is column [c]. *)
Record mat3 := Mat3 { col0 : vec3; col1 : vec3; col2 : vec3 }.

Definition zero2 : vec2 := Vec2 0 0.
Definition zero3 : vec3 := Vec3 0 0 0.

Definition add2 (a b : vec2) : vec2 := Vec2 (x2 a + x2 b) (y2 a + y2 b).
Definition scale2 (s : R) (a : vec2) : vec2 := Vec2 (s * x2 a) (s * y2 a).

Definition add (a b : vec3) : vec3 :=
  Vec3 (x3 a + x3 b) (y3 a + y3 b) (z3 a + z3 b).
Definition sub (a b : vec3) : vec3 :=
  Vec3 (x3 a - x3 b) (y3 a - y3 b) (z3 a - z3 b).
Definition neg (a : vec3) : vec3 := Vec3 (- x3 a) (- y3 a) (- z3 a).
Definition scale (s : R) (a : vec3) : vec3 :=
  Vec3 (s * x3 a) (s * y3 a) (s * z3 a).

(** [vec2(v)] of a [vec3]: the first two components. *)
Definition xy (v : vec3) : vec2 := Vec2 (x3 v) (y3 v).

Definition dot (a b : vec3) : R := x3 a * x3 b + y3 a * y3 b + z3 a * z3 b.
Definition cross (a b : vec3) : vec3 :=
  Vec3 (y3 a * z3 b - y3 b * z3 a)
       (z3 a * x3 b - z3 b * x3 a)
       (x3 a * y3 b - x3 b * y3 a).
Definition length (a : vec3) : R := sqrt (dot a a).
(** [normalize(v) = v * inversesqrt(dot(v, v))].  On the zero vector GLM
    divides by zero and gives no number, while the inverse of 0 is 0
    here: the theorems on a normalized vector exclude the zero vector. *)
Definition normalize (a : vec3) : vec3 := scale (/ sqrt (dot a a)) a.

(** The sum of a list of vectors. *)
Definition vsum (l : list vec3) : vec3 := foldr add zero3 l.

(** Row [r] of a matrix, which is column [r] of its transpose. *)
Definition transpose (m : mat3) : mat3 :=
  Mat3 (Vec3 (x3 (col0 m)) (x3 (col1 m)) (x3 (col2 m)))
       (Vec3 (y3 (col0 m)) (y3 (col1 m)) (y3 (col2 m)))
       (Vec3 (z3 (col0 m)) (z3 (col1 m)) (z3 (col2 m))).

(** The upper-left 3x3 block of [glm::lookAt(eye, center, up)] (right
    handed): rows [s], [u] and [-f]. *)
Definition lookAt (eye center up : vec3) : mat3 :=
  let f := normalize (sub center eye) in
  let s := normalize (cross f up) in
  let u := cross s f in
  Mat3 (Vec3 (x3 s) (x3 u) (- x3 f))
       (Vec3 (y3 s) (y3 u) (- y3 f))
       (Vec3 (z3 s) (z3 u) (- z3 f)).

End Glm.
Export Glm.

Definition polarToCartesian (p : vec2) : vec3 :=
  Vec3 (cos (x2 p) * cos (y2 p))
       (sin (x2 p) * cos (y2 p))
       (sin (y2 p)).

(** ** The entity hierarchy ([entity.hpp], which [game.cpp] includes) *)

Module Entity.

(** Modelled from the spec: the Keplerian elements of [Orbit] (section 3);
    the class is declared outside [game.cpp], which builds it in
    [parseOrbit] from these seven numbers. *)
Record Orbit := mkOrbit {
  ecc : R; sma : R; inc : R; lan : R; arg : R; pr : R; m0 : R }.

(** Modelled from the spec: the physical [Model] of a body, with the two
    fields [game.cpp] reads ([getRadius], [getRotationPeriod]). *)
Record Model := mkModel { getRadius : R; getRotationPeriod : R }.

(** Modelled from the spec: the [Clouds] attachment, with the field
    [game.cpp] reads ([getPeriod]). *)
Record Clouds := mkClouds { getPeriod : R }.

(** Modelled from the spec: the immutable parameter record of an entity
    (section 3).  An optional part is a flag and a member, as in the
    class: [game.cpp] reads [getModel()] of every entity, barycenters
    included, so the getter of an absent part returns the member the
    entity was constructed with. *)
Record EntityParam := mkParam {
  getName : string;
  getDisplayName : string;
  isBody : bool;
  getModel : Model;
  hasOrbit : bool;
  getOrbit : Orbit;
  hasClouds : bool;
  getClouds : Clouds }.

(** Modelled from the spec: the [EntityState] recomputed every frame
    (section 3). *)
Record EntityState := mkState {
  getPosition : vec3; getRotationAngle : R; getCloudDisp : R }.

(** Modelled from the spec: an entity handle is a stable index into the
    arena of entities (section 9), or the null handle, for which
    [exists()] is false. *)
Definition EntityHandle : Type := option nat.

Definition exists_ (h : EntityHandle) : bool :=
  match h with Some _ => true | None => false end.

(** Modelled from the spec: an entity of the arena, its parent resolved
    to a handle at load time (the null handle for a root). *)
Record Entity := mkEntity { param : EntityParam; parent : EntityHandle }.

(** Modelled from the spec: the collection owns the entities, in load
    order, and the states of the current frame. *)
Record EntityCollection := mkCollection {
  entities : list Entity;
  state : gmap nat EntityState }.

Definition nullParam : EntityParam :=
  mkParam EmptyString EmptyString false (mkModel 0 0) false
    (mkOrbit 0 0 0 0 0 0 0) false (mkClouds 0).

Definition nullState : EntityState := mkState zero3 0 0.

Section Hierarchy.
Variable es : list Entity.

(** Modelled from the spec: [getAll()], every handle in load order. *)
Definition getAll : list nat := seq 0 (List.length es).

(** Modelled from the spec: [getParam()] of a handle; the parameters
    of a handle that names no entity are not defined by the code. *)
Definition getParam (h : EntityHandle) : EntityParam :=
  match h with
  | Some i => match es !! i with Some e => param e | None => nullParam end
  | None => nullParam
  end.

(** Modelled from the spec: [getParent(handle)]. *)
Definition getParent (h : EntityHandle) : EntityHandle :=
  match h with
  | Some i => match es !! i with Some e => parent e | None => None end
  | None => None
  end.

(** Modelled from the spec: [getAllParents(handle)], the ascending
    chain of ancestors, immediate parent first, empty for a root (the
    loop of the former [Game::getAllParents] kept in a comment of
    [game.cpp]). *)
Fixpoint getAllParents_from (fuel : nat) (h : EntityHandle) : list nat :=
  match fuel with
  | O => []
  | S fuel' =>
      match getParent h with
      | Some p => p :: getAllParents_from fuel' (Some p)
      | None => []
      end
  end.

Definition getAllParents (h : EntityHandle) : list nat :=
  getAllParents_from (List.length es) h.

(** Modelled from the spec: the direct children of a handle, by a
    reverse-index scan in load order (section 9; the former
    [Game::getChildren] of the comment). *)
Definition getChildren (h : EntityHandle) : list nat :=
  filter (fun i => getParent (Some i) = h) getAll.

(** Modelled from the spec: [getAllChildren(handle)], the recursive
    descendants: the children, then the descendants of each child
    (the former [Game::getAllChildren] of the comment). *)
Fixpoint getAllChildren_from (fuel : nat) (h : EntityHandle) : list nat :=
  match fuel with
  | O => []
  | S fuel' =>
      let c := getChildren h in
      c ++ concat (map (fun i => getAllChildren_from fuel' (Some i)) c)
  end.

Definition getAllChildren (h : EntityHandle) : list nat :=
  getAllChildren_from (List.length es) h.

(** Modelled from the spec: [getBodies()], the entities that carry a
    physical Model, in load order. *)
Definition getBodies : list nat :=
  filter (fun i => isBody (getParam (Some i)) = true) getAll.

(** The [k]-th ancestor of a handle. *)
Fixpoint nthParent (k : nat) (h : EntityHandle) : EntityHandle :=
  match k with
  | O => h
  | S k' => getParent (nthParent k' h)
  end.

(** Modelled from the spec: the hierarchy is a forest whose parents
    are resolved (section 3): every parent handle names an entity, and
    every chain of parents ends at a root. *)
Definition wellFormed : Prop :=
  Forall (fun i => match getParent (Some i) with
                   | Some p => (p < List.length es)%nat
                   | None => True
                   end) getAll /\
  Forall (fun i => nthParent (List.length es) (Some i) = None) getAll.

(** [a] is an ancestor of [h]: its parent, or an ancestor of its parent. *)
Inductive ancestor : nat -> nat -> Prop :=
| ancestor_parent (h p : nat) :
    getParent (Some h) = Some p -> ancestor p h
| ancestor_step (h p a : nat) :
    getParent (Some h) = Some p -> ancestor a p -> ancestor a h.

(** [s] is a sibling of [h]: another child of the same entity. *)
Definition sibling (s h : nat) : Prop :=
  s <> h /\ exists p : nat,
    getParent (Some s) = Some p /\ getParent (Some h) = Some p.

End Hierarchy.

(** Modelled from the spec: [getState()] of a handle in the states of
    the current frame. *)
Definition getState (c : EntityCollection) (h : EntityHandle) : EntityState :=
  match h with
  | Some i => default nullState (state c !! i)
  | None => nullState
  end.

(** Modelled from the spec: [setState(state)] replaces the states of all
    entities. *)
Definition setState (c : EntityCollection) (st : gmap nat EntityState)
  : EntityCollection :=
  mkCollection (entities c) st.

End Entity.
Export Entity.

(** ** The window: raw key and mouse state (GLFW) *)

Definition GLFW_KEY_B : Z := 66.
Definition GLFW_KEY_K : Z := 75.
Definition GLFW_KEY_L : Z := 76.
Definition GLFW_KEY_W : Z := 87.
Definition GLFW_KEY_TAB : Z := 258.
Definition GLFW_KEY_F5 : Z := 294.
Definition GLFW_KEY_F12 : Z := 301.
Definition GLFW_KEY_LEFT_SHIFT : Z := 340.
Definition GLFW_KEY_LEFT_CONTROL : Z := 341.
Definition GLFW_KEY_LEFT_ALT : Z := 342.
Definition GLFW_MOUSE_BUTTON_1 : Z := 0.
Definition GLFW_MOUSE_BUTTON_2 : Z := 1.

(** What the window answers at one instant: [glfwGetKey],
    [glfwGetMouseButton] and [glfwGetCursorPos]. *)
Record Window := mkWindow {
  glfwGetKey : Z -> bool;
  glfwGetMouseButton : Z -> bool;
  glfwGetCursorPos : R * R }.

(** ** The game state *)

Inductive SwitchPhase := IDLE | TRACK | MOVE.

#[global] Instance SwitchPhase_eq_dec : EqDecision SwitchPhase.
Proof. solve_decision. Defined.

(** The members of [Game] that [update] and the camera read or write.
    [timeWarpValues], [maxViewSpeed], [viewSmoothness] and the initial
    values are set in [game.hpp]; they are fields here, so nothing is
    assumed about them. *)
Record Game := mkGame {
  epoch : R;
  timeWarpValues : list R;
  timeWarpIndex : Z;
  entityCollection : EntityCollection;
  focusedBodyId : Z;
  keysHeld : gmap Z bool;
  wireframe : bool;
  bloom : bool;
  preMousePosX : R;
  preMousePosY : R;
  dragging : bool;
  sensitivity : R;
  maxViewSpeed : R;
  viewSmoothness : R;
  viewPolar : vec3;
  panPolar : vec2;
  viewSpeed : vec3;
  viewPos : vec3;
  viewDir : mat3;
  viewFovy : R;
  exposure : R;
  bodyNameId : Z;
  bodyNameFade : R;
  switchPhase : SwitchPhase;
  switchTime : R;
  switchPreviousBodyId : Z;
  switchPreviousViewDir : mat3;
  switchNewViewPolar : vec3 }.

(** [v[i]] of a vector at an [int] index; outside the vector the read is
    undefined in C++ and the model gives the default. *)
Definition at_index {A : Type} (d : A) (l : list A) (i : Z) : A :=
  if decide (0 <= i)%Z then default d (l !! Z.to_nat i) else d.

(** ** Edge-triggered keys ([Game::isPressedOnce]) *)

(** [keysHeld[key]], false for a key that was never recorded. *)
Definition held (keysHeld : gmap Z bool) (key : Z) : bool :=
  default false (keysHeld !! key).

(** The result and the key table after the call. *)
Definition isPressedOnce (win : Window) (key : Z) (keysHeld : gmap Z bool)
  : bool * gmap Z bool :=
  if glfwGetKey win key then
    if held keysHeld key then (false, keysHeld)
    else (true, <[key := true]> keysHeld)
  else (false, <[key := false]> keysHeld).

(** A series of checks, each with the window of its instant and its key:
    the results, and the key table at the end. *)
Fixpoint pressChecks (checks : list (Window * Z)) (keysHeld : gmap Z bool)
  : list bool * gmap Z bool :=
  match checks with
  | [] => ([], keysHeld)
  | (win, key) :: rest =>
      let '(r, kh) := isPressedOnce win key keysHeld in
      let '(rs, kh') := pressChecks rest kh in
      (r :: rs, kh')
  end.

(** What the latest check of [key] in [checks] saw, or the table's entry
    when [key] was not checked. *)
Fixpoint lastSeen (key : Z) (checks : list (Window * Z)) (before : bool) : bool :=
  match checks with
  | [] => before
  | (win, k) :: rest =>
      lastSeen key rest (if decide (k = key) then glfwGetKey win k else before)
  end.

(** ** Entity state update (the first part of [Game::update]) *)

Section EntityUpdate.

(** [Orbit::computePosition], defined in [orbit.cpp]. *)
Variable computePosition : Orbit -> R -> vec3.
Variable es : list Entity.
Variable epoch' : R.

(** The value stored in [relativePositions[h]] by the first loop. *)
Definition relativePosition (h : nat) : vec3 :=
  if negb (exists_ (getParent es (Some h)))
     || negb (hasOrbit (getParam es (Some h)))
  then zero3
  else computePosition (getOrbit (getParam es (Some h))) epoch'.

(** The first loop: the map [relativePositions]. *)
Definition relativePositions : gmap nat vec3 :=
  foldl (fun m h => <[h := relativePosition h]> m) ∅ (getAll es).

(** [relativePositions[h]] read back ([std::map::operator[]]). *)
Definition relativeAt (m : gmap nat vec3) (h : nat) : vec3 :=
  default zero3 (m !! h).

(** The [while (parent.exists())] loop that accumulates the relative
    positions of the ancestors; [None] when the fuel runs out, which is
    a loop that does not end. *)
Fixpoint absLoop (fuel : nat) (m : gmap nat vec3) (absPosition : vec3)
    (parent : EntityHandle) : option vec3 :=
  match parent with
  | None => Some absPosition
  | Some p =>
      match fuel with
      | O => None
      | S fuel' =>
          absLoop fuel' m (add absPosition (relativeAt m p))
            (getParent es (Some p))
      end
  end.

Definition rotationAngle (p : EntityParam) : R :=
  (2 * PI) * fmod (epoch' / getRotationPeriod (getModel p)) 1.

(** The lambda that computes [cloudDisp]. *)
Definition cloudDisp (p : EntityParam) : R :=
  if hasClouds p then 0
  else
    let period := getPeriod (getClouds p) in
    if decide (period <> 0) then fmod (- epoch' / period) 1 else 0.

(** The state of one entity, as the body of the second loop computes it. *)
Definition entityState (m : gmap nat vec3) (h : nat) : option EntityState :=
  match absLoop (List.length es) m (relativeAt m h) (getParent es (Some h)) with
  | None => None
  | Some absPosition =>
      Some (mkState absPosition
              (rotationAngle (getParam es (Some h)))
              (cloudDisp (getParam es (Some h))))
  end.

(** The second loop: the map [state]. *)
Fixpoint stateLoop (m : gmap nat vec3) (hs : list nat)
    (st : gmap nat EntityState) : option (gmap nat EntityState) :=
  match hs with
  | [] => Some st
  | h :: hs' =>
      match entityState m h with
      | None => None
      | Some s => stateLoop m hs' (<[h := s]> st)
      end
  end.

Definition entityStateUpdate : option (gmap nat EntityState) :=
  stateLoop relativePositions (getAll es) ∅.

End EntityUpdate.

(** ** The camera state machine *)

(** [entityCollection.getBodies()[id]]; outside the vector the read is
    undefined in C++ and the model gives the null handle. *)
Definition bodyAt (c : EntityCollection) (id : Z) : EntityHandle :=
  if decide (0 <= id)%Z then getBodies (entities c) !! Z.to_nat id else None.

Definition getFocusedBody (g : Game) : EntityHandle :=
  bodyAt (entityCollection g) (focusedBodyId g).

Definition getDisplayedBody (g : Game) : EntityHandle :=
  bodyAt (entityCollection g) (bodyNameId g).

Definition getPreviousBody (g : Game) : EntityHandle :=
  bodyAt (entityCollection g) (switchPreviousBodyId g).

(** [h.getParam().getModel().getRadius()]. *)
Definition radiusOf (g : Game) (h : EntityHandle) : R :=
  getRadius (getModel (getParam (entities (entityCollection g)) h)).

(** [h.getState().getPosition()]. *)
Definition positionOf (g : Game) (h : EntityHandle) : vec3 :=
  getPosition (getState (entityCollection g) h).

Definition chooseNextBody (g : Game) (direction : bool) : Z :=
  let id := (focusedBodyId g + (if direction then 1 else -1))%Z in
  let size := Z.of_nat (List.length (getBodies (entities (entityCollection g)))) in
  if decide (id < 0)%Z then (id + size)%Z
  else if decide (id >= size)%Z then (id - size)%Z
  else id.

(** [if (v > max) v = max; if (v < -max) v = -max;] *)
Definition limitSpeed (v maxSpeed : R) : R :=
  let v1 := if decide (maxSpeed < v) then maxSpeed else v in
  if decide (v1 < - maxSpeed) then - maxSpeed else v1.

(** [pi<float>()/2 - 0.001]. *)
Definition maxVerticalAngle : R := PI / 2 - 0.001.

(** The inner block of the ray test: the polar position shifted along
    [tangent], by the amount that Thales' theorem gives, so that the line
    to the target passes at [closestMinDist] from the body. *)
Definition shiftedPolar (viewPolar' relViewPos target closestPoint : vec3)
    (closestDist closestMinDist : R) : vec3 :=
  let tangent := normalize closestPoint in
  let totalDist := length (sub target relViewPos) in
  let targetClosestDist := length (sub target (scale closestMinDist tangent)) in
  let tangentCoef :=
    totalDist * (closestMinDist - closestDist) / targetClosestDist in
  let newRelPos :=
    add (scale (z3 viewPolar') (polarToCartesian (xy viewPolar')))
        (scale tangentCoef tangent) in
  let newDist := length newRelPos in
  let newRelDir := neg (normalize newRelPos) in
  Vec3 (atan2 (- y3 newRelDir) (- x3 newRelDir))
       (asin (- z3 newRelDir)) newDist.

(** The target of the TRACK phase computed by the ray test of
    [updateIdle], from the position [relViewPos] of the camera relative
    to the body it leaves, the vector [target] from that body to the new
    one, and [radius], read before the focus changed. *)
Definition rayTest (viewPolar' : vec3) (relViewPos target : vec3) (radius : R)
  : vec3 :=
  let targetDir := normalize (sub target relViewPos) in
  let b := dot relViewPos targetDir in
  if decide (b < 0) then
    let closestPoint := sub relViewPos (scale b targetDir) in
    let closestDist := length closestPoint in
    let closestMinDist := radius * 1.1 in
    if decide (closestDist < closestMinDist) then
      shiftedPolar viewPolar' relViewPos target closestPoint closestDist
        closestMinDist
    else viewPolar'
  else viewPolar'.

(** The drag block of [updateIdle]: the [dragging] flag after the mouse
    buttons were read. *)
Definition dragFlag (win : Window) (g : Game) : bool :=
  let mouseButton1 := glfwGetMouseButton win GLFW_MOUSE_BUTTON_1 in
  let mouseButton2 := glfwGetMouseButton win GLFW_MOUSE_BUTTON_2 in
  if (mouseButton1 || mouseButton2) && negb (dragging g) then true
  else if dragging g && negb (mouseButton1 || mouseButton2) then false
  else dragging g.

(** The drag block: [viewSpeed] after a drag with the first button. *)
Definition dragSpeed (win : Window) (posX posY : R) (g : Game) : vec3 :=
  let move := Vec2 (- posX + preMousePosX g) (posY - preMousePosY g) in
  let mouseButton1 := glfwGetMouseButton win GLFW_MOUSE_BUTTON_1 in
  if dragFlag win g && mouseButton1 then
    Vec3 (limitSpeed (x3 (viewSpeed g) + x2 move * sensitivity g) (maxViewSpeed g))
         (limitSpeed (y3 (viewSpeed g) + y2 move * sensitivity g) (maxViewSpeed g))
         (z3 (viewSpeed g))
  else viewSpeed g.

(** The drag block: [panPolar] after a drag with the second button only. *)
Definition dragPan (win : Window) (posX posY : R) (g : Game) : vec2 :=
  let move := Vec2 (- posX + preMousePosX g) (posY - preMousePosY g) in
  let mouseButton1 := glfwGetMouseButton win GLFW_MOUSE_BUTTON_1 in
  let mouseButton2 := glfwGetMouseButton win GLFW_MOUSE_BUTTON_2 in
  if dragFlag win g && negb mouseButton1 && mouseButton2 then
    add2 (panPolar g) (scale2 (sensitivity g * viewFovy g) move)
  else panPolar g.

(** The advance and limit block of [updateIdle]: the elevation after
    [viewPolar.y += viewSpeed.y], before it is limited. *)
Definition idleElevation (win : Window) (posX posY : R) (g : Game) : R :=
  y3 (viewPolar g) + y3 (dragSpeed win posX posY g).

(** The advance and limit block: [viewPolar] at the end of it. *)
Definition idlePolar (win : Window) (posX posY : R) (g : Game) : vec3 :=
  let viewSpeed1 := dragSpeed win posX posY g in
  let radius := radiusOf g (getFocusedBody g) in
  let polarZ1 :=
    z3 (viewPolar g) + z3 viewSpeed1 * Rmax 0.01 (z3 (viewPolar g) - radius) in
  let polarY1 := idleElevation win posX posY g in
  let polarY2 :=
    if decide (maxVerticalAngle < polarY1) then maxVerticalAngle else polarY1 in
  let polarY3 :=
    if decide (polarY2 < - maxVerticalAngle) then - maxVerticalAngle else polarY2 in
  let polarZ3 := if decide (polarZ1 < radius) then radius else polarZ1 in
  Vec3 (x3 (viewPolar g) + x3 viewSpeed1) polarY3 polarZ3.

(** The advance and limit block: [viewSpeed] at the end of it, damped by
    [viewSmoothness] and with its elevation component zeroed by a limit. *)
Definition idleSpeed (win : Window) (posX posY : R) (g : Game) : vec3 :=
  let viewSpeed2 := scale (viewSmoothness g) (dragSpeed win posX posY g) in
  let polarY1 := idleElevation win posX posY g in
  let over := decide (maxVerticalAngle < polarY1) in
  let polarY2 := if over then maxVerticalAngle else polarY1 in
  let speedY2 := if over then 0 else y3 viewSpeed2 in
  let speedY3 := if decide (polarY2 < - maxVerticalAngle) then 0 else speedY2 in
  Vec3 (x3 viewSpeed2) speedY3 (z3 viewSpeed2).

(** The advance and limit block: [panPolar] at the end of it. *)
Definition idlePan (win : Window) (posX posY : R) (g : Game) : vec2 :=
  let panPolar1 := dragPan win posX posY g in
  let polarY3 := y3 (idlePolar win posX posY g) in
  let panY2 :=
    if decide (maxVerticalAngle < polarY3 + y2 panPolar1)
    then maxVerticalAngle - polarY3 else y2 panPolar1 in
  let panY3 :=
    if decide (polarY3 + panY2 < - maxVerticalAngle)
    then - maxVerticalAngle - polarY3 else panY2 in
  Vec2 (x2 panPolar1) panY3.

(** The time-warp block of [updateIdle]: the index after the checks of K
    and L. *)
Definition idleTimeWarpIndex (win : Window) (g : Game) : Z :=
  let checkK := isPressedOnce win GLFW_KEY_K (keysHeld g) in
  let index1 :=
    if fst checkK && bool_decide (timeWarpIndex g > 0)%Z
    then (timeWarpIndex g - 1)%Z else timeWarpIndex g in
  let checkL := isPressedOnce win GLFW_KEY_L (snd checkK) in
  if fst checkL
     && bool_decide (index1 < Z.of_nat (List.length (timeWarpValues g)) - 1)%Z
  then (index1 + 1)%Z else index1.

(** The check of TAB, which comes after those of K and L: its result and
    the key table after the three checks. *)
Definition idleTabCheck (win : Window) (g : Game) : bool * gmap Z bool :=
  isPressedOnce win GLFW_KEY_TAB
    (snd (isPressedOnce win GLFW_KEY_L
            (snd (isPressedOnce win GLFW_KEY_K (keysHeld g))))).

Definition updateIdle (win : Window) (dt posX posY : R) (g : Game) : Game :=
  (* Drag view around, advance, limits *)
  let radius := radiusOf g (getFocusedBody g) in
  let viewPolar3 := idlePolar win posX posY g in
  let viewSpeed3 := idleSpeed win posX posY g in
  let panPolar3 := idlePan win posX posY g in
  (* Position around center *)
  let relViewPos := scale (z3 viewPolar3) (polarToCartesian (xy viewPolar3)) in
  let viewPos1 := add relViewPos (positionOf g (getFocusedBody g)) in
  let direction := neg (polarToCartesian (add2 (xy viewPolar3) panPolar3)) in
  let viewDir1 := lookAt zero3 direction (Vec3 0 0 1) in
  (* Switching: the fields below that test [pressedTab] are written in the
     block of [if (isPressedOnce(GLFW_KEY_TAB))] *)
  let pressedTab := fst (idleTabCheck win g) in
  let next := chooseNextBody g (negb (glfwGetKey win GLFW_KEY_LEFT_SHIFT)) in
  let target :=
    sub (positionOf g (bodyAt (entityCollection g) next))
        (positionOf g (bodyAt (entityCollection g) (focusedBodyId g))) in
  {| epoch := epoch g;
     timeWarpValues := timeWarpValues g;
     timeWarpIndex := if pressedTab then 0%Z else idleTimeWarpIndex win g;
     entityCollection := entityCollection g;
     focusedBodyId := if pressedTab then next else focusedBodyId g;
     keysHeld := snd (idleTabCheck win g);
     wireframe := wireframe g;
     bloom := bloom g;
     preMousePosX := preMousePosX g;
     preMousePosY := preMousePosY g;
     dragging := dragFlag win g;
     sensitivity := sensitivity g;
     maxViewSpeed := maxViewSpeed g;
     viewSmoothness := viewSmoothness g;
     viewPolar := viewPolar3;
     panPolar := panPolar3;
     viewSpeed := viewSpeed3;
     viewPos := viewPos1;
     viewDir := viewDir1;
     viewFovy := viewFovy g;
     exposure := exposure g;
     bodyNameId := focusedBodyId g;
     bodyNameFade := 1;
     switchPhase := if pressedTab then TRACK else switchPhase g;
     switchTime := switchTime g;
     switchPreviousBodyId :=
       if pressedTab then focusedBodyId g else switchPreviousBodyId g;
     switchPreviousViewDir :=
       if pressedTab then viewDir1 else switchPreviousViewDir g;
     switchNewViewPolar :=
       if pressedTab then rayTest viewPolar3 relViewPos target radius
       else switchNewViewPolar g |}.

Definition ease (t : R) : R :=
  6 * t * t * t * t * t - 15 * t * t * t * t + 10 * t * t * t.

Definition ease2 (t alpha : R) : R :=
  let a := powf t alpha in
  a / (a + powf (1 - t) alpha).

(** [d += 2 pi] below [lo], [d -= 2 pi] above [hi]. *)
Definition wrapDelta (d lo hi : R) : R :=
  if decide (d < lo) then d + 2 * PI
  else if decide (hi < d) then d - 2 * PI
  else d.

Definition updateTrack (dt : R) (g : Game) : Game :=
  let totalTime := 1 in
  let t := Rmin 1 (switchTime g / totalTime) in
  let f := ease t in
  (* Interpolate positions *)
  let posDeltaTheta :=
    wrapDelta (x3 (switchNewViewPolar g) - x3 (viewPolar g)) (- PI) PI in
  let interpPolar :=
    add (scale (1 - f) (viewPolar g))
        (scale f (Vec3 (x3 (viewPolar g) + posDeltaTheta)
                       (y3 (switchNewViewPolar g))
                       (z3 (switchNewViewPolar g)))) in
  let viewPos1 :=
    add (positionOf g (getPreviousBody g))
        (scale (z3 interpPolar) (polarToCartesian (xy interpPolar))) in
  (* Aim at next entity *)
  let targetDir := normalize (sub (positionOf g (getFocusedBody g)) viewPos1) in
  let targetPhi := asin (z3 targetDir) in
  let targetTheta := atan2 (y3 targetDir) (x3 targetDir) in
  (* Angles of original direction *)
  let sourceDir := neg (col2 (transpose (switchPreviousViewDir g))) in
  let sourcePhi := asin (z3 sourceDir) in
  let sourceTheta := atan2 (y3 sourceDir) (x3 sourceDir) in
  let deltaTheta :=
    wrapDelta (targetTheta - sourceTheta) (- PI + 0.001) (PI - 0.001) in
  let phi := f * targetPhi + (1 - f) * sourcePhi in
  let theta := f * (sourceTheta + deltaTheta) + (1 - f) * sourceTheta in
  let dir := polarToCartesian (Vec2 theta phi) in
  let viewDir1 := lookAt zero3 dir (Vec3 0 0 1) in
  let switchTime1 := switchTime g + dt in
  let done := decide (totalTime < switchTime1) in
  {| epoch := epoch g;
     timeWarpValues := timeWarpValues g;
     timeWarpIndex := timeWarpIndex g;
     entityCollection := entityCollection g;
     focusedBodyId := focusedBodyId g;
     keysHeld := keysHeld g;
     wireframe := wireframe g;
     bloom := bloom g;
     preMousePosX := preMousePosX g;
     preMousePosY := preMousePosY g;
     dragging := dragging g;
     sensitivity := sensitivity g;
     maxViewSpeed := maxViewSpeed g;
     viewSmoothness := viewSmoothness g;
     viewPolar := if done then interpPolar else viewPolar g;
     panPolar := panPolar g;
     viewSpeed := viewSpeed g;
     viewPos := viewPos1;
     viewDir := viewDir1;
     viewFovy := viewFovy g;
     exposure := exposure g;
     bodyNameId := switchPreviousBodyId g;
     bodyNameFade := clamp (1 - t * 2) 0 1;
     switchPhase := if done then MOVE else switchPhase g;
     switchTime := if done then 0 else switchTime1;
     switchPreviousBodyId := switchPreviousBodyId g;
     switchPreviousViewDir := switchPreviousViewDir g;
     switchNewViewPolar := switchNewViewPolar g |}.

(** The position [updateMove] moves from: the committed polar position
    around the body that was left. *)
Definition moveSourcePos (g : Game) : vec3 :=
  add (positionOf g (getPreviousBody g))
      (scale (z3 (viewPolar g)) (polarToCartesian (xy (viewPolar g)))).

(** Distance from the new body at arrival. *)
Definition moveTargetDist (g : Game) : R :=
  Rmax (4 * radiusOf g (getFocusedBody g)) 1000.

(** Direction from the old position to the new body. *)
Definition moveDirection (g : Game) : vec3 :=
  normalize (sub (positionOf g (getFocusedBody g)) (moveSourcePos g)).

(** New position (the direction is subtracted, not to be inside the body). *)
Definition moveTargetPos (g : Game) : vec3 :=
  sub (positionOf g (getFocusedBody g))
      (scale (moveTargetDist g) (moveDirection g)).

Definition updateMove (dt : R) (g : Game) : Game :=
  let totalTime := 1 in
  let t := Rmin 1 (switchTime g / totalTime) in
  let f := ease2 t 4 in
  let sourcePos := moveSourcePos g in
  let targetDist := moveTargetDist g in
  let direction := moveDirection g in
  let targetPos := moveTargetPos g in
  let viewPos1 := add (scale f targetPos) (scale (1 - f) sourcePos) in
  let viewDir1 := lookAt zero3 direction (Vec3 0 0 1) in
  let switchTime1 := switchTime g + dt in
  let done := decide (totalTime < switchTime1) in
  {| epoch := epoch g;
     timeWarpValues := timeWarpValues g;
     timeWarpIndex := timeWarpIndex g;
     entityCollection := entityCollection g;
     focusedBodyId := focusedBodyId g;
     keysHeld := keysHeld g;
     wireframe := wireframe g;
     bloom := bloom g;
     preMousePosX := preMousePosX g;
     preMousePosY := preMousePosY g;
     dragging := dragging g;
     sensitivity := sensitivity g;
     maxViewSpeed := maxViewSpeed g;
     viewSmoothness := viewSmoothness g;
     viewPolar :=
       if done
       then Vec3 (atan2 (- y3 direction) (- x3 direction))
                 (asin (- z3 direction)) targetDist
       else viewPolar g;
     panPolar := if done then zero2 else panPolar g;
     viewSpeed := if done then zero3 else viewSpeed g;
     viewPos := viewPos1;
     viewDir := viewDir1;
     viewFovy := viewFovy g;
     exposure := exposure g;
     bodyNameId := focusedBodyId g;
     bodyNameFade := clamp ((t - 0.5) * 2) 0 1;
     switchPhase := if done then IDLE else switchPhase g;
     switchTime := if done then 0 else switchTime1;
     switchPreviousBodyId := switchPreviousBodyId g;
     switchPreviousViewDir := switchPreviousViewDir g;
     switchNewViewPolar := switchNewViewPolar g |}.

(** The dispatch of [Game::update] on the phase. *)
Definition updateCamera (win : Window) (dt : R) (g : Game) : Game :=
  match switchPhase g with
  | IDLE => updateIdle win dt (fst (glfwGetCursorPos win))
              (snd (glfwGetCursorPos win)) g
  | TRACK => updateTrack dt g
  | MOVE => updateMove dt g
  end.

(** ** Texture-load bodies ([Game::getTexLoadBodies]) *)

Definition getTexLoadBodies (es : list Entity) (focusedEntity : nat) : list nat :=
  (* Itself visible *)
  let v := [focusedEntity] in
  (* All parents visible *)
  let parents := getAllParents es (Some focusedEntity) in
  let v := v ++ parents in
  (* All siblings visible *)
  let siblings := getAllChildren es (getParent es (Some focusedEntity)) in
  let v := v ++ siblings in
  (* Only select bodies *)
  filter (fun h => isBody (getParam es (Some h)) = true) v.

(** ** The frame ([Game::scrollFun], [Game::update]) *)

(** [glm::radians]. *)
Definition radians (degrees : R) : R := degrees * (PI / 180).

(** The scroll callback, which GLFW calls from [glfwPollEvents]. *)
Definition scrollFun (win : Window) (offset : Z) (g : Game) : Game :=
  let alt := bool_decide (switchPhase g = IDLE) && glfwGetKey win GLFW_KEY_LEFT_ALT in
  let ctrl := bool_decide (switchPhase g = IDLE)
              && negb (glfwGetKey win GLFW_KEY_LEFT_ALT)
              && glfwGetKey win GLFW_KEY_LEFT_CONTROL in
  let dist := bool_decide (switchPhase g = IDLE)
              && negb (glfwGetKey win GLFW_KEY_LEFT_ALT)
              && negb (glfwGetKey win GLFW_KEY_LEFT_CONTROL) in
  {| epoch := epoch g;
     timeWarpValues := timeWarpValues g;
     timeWarpIndex := timeWarpIndex g;
     entityCollection := entityCollection g;
     focusedBodyId := focusedBodyId g;
     keysHeld := keysHeld g;
     wireframe := wireframe g;
     bloom := bloom g;
     preMousePosX := preMousePosX g;
     preMousePosY := preMousePosY g;
     dragging := dragging g;
     sensitivity := sensitivity g;
     maxViewSpeed := maxViewSpeed g;
     viewSmoothness := viewSmoothness g;
     viewPolar := viewPolar g;
     panPolar := panPolar g;
     viewSpeed :=
       if dist
       then Vec3 (x3 (viewSpeed g)) (y3 (viewSpeed g))
                 (z3 (viewSpeed g) - 40 * IZR offset * sensitivity g)
       else viewSpeed g;
     viewPos := viewPos g;
     viewDir := viewDir g;
     viewFovy :=
       if alt
       then clamp (viewFovy g * powf 0.5 (IZR offset * sensitivity g * 100))
                  (radians 0.1) (radians 40)
       else viewFovy g;
     exposure :=
       if ctrl then clamp (exposure g + 0.1 * IZR offset) (-4) 4 else exposure g;
     bodyNameId := bodyNameId g;
     bodyNameFade := bodyNameFade g;
     switchPhase := switchPhase g;
     switchTime := switchTime g;
     switchPreviousBodyId := switchPreviousBodyId g;
     switchPreviousViewDir := switchPreviousViewDir g;
     switchNewViewPolar := switchNewViewPolar g |}.

(** The part of the render-state snapshot that [update] computes. *)
Record RenderState := mkRender {
  r_viewPos : vec3;
  r_viewFovy : R;
  r_viewDir : mat3;
  r_exposure : R;
  r_wireframe : bool;
  r_bloom : bool;
  r_texLoadBodies : list nat;
  r_displayName : string;
  r_bodyNameFade : R;
  r_formattedTime : option string }.

(** The game with the epoch, the entity states, the key table and the two
    toggles of the first half of [update]. *)
Definition withFrameStart (g : Game) (epoch1 : R) (st : gmap nat EntityState)
    (keys : gmap Z bool) (wireframe1 bloom1 : bool) : Game :=
  {| epoch := epoch1;
     timeWarpValues := timeWarpValues g;
     timeWarpIndex := timeWarpIndex g;
     entityCollection := setState (entityCollection g) st;
     focusedBodyId := focusedBodyId g;
     keysHeld := keys;
     wireframe := wireframe1;
     bloom := bloom1;
     preMousePosX := preMousePosX g;
     preMousePosY := preMousePosY g;
     dragging := dragging g;
     sensitivity := sensitivity g;
     maxViewSpeed := maxViewSpeed g;
     viewSmoothness := viewSmoothness g;
     viewPolar := viewPolar g;
     panPolar := panPolar g;
     viewSpeed := viewSpeed g;
     viewPos := viewPos g;
     viewDir := viewDir g;
     viewFovy := viewFovy g;
     exposure := exposure g;
     bodyNameId := bodyNameId g;
     bodyNameFade := bodyNameFade g;
     switchPhase := switchPhase g;
     switchTime := switchTime g;
     switchPreviousBodyId := switchPreviousBodyId g;
     switchPreviousViewDir := switchPreviousViewDir g;
     switchNewViewPolar := switchNewViewPolar g |}.

(** The game with the mouse position and the key table of the second half
    of [update]. *)
Definition withFrameEnd (g : Game) (posX posY : R) (keys : gmap Z bool) : Game :=
  {| epoch := epoch g;
     timeWarpValues := timeWarpValues g;
     timeWarpIndex := timeWarpIndex g;
     entityCollection := entityCollection g;
     focusedBodyId := focusedBodyId g;
     keysHeld := keys;
     wireframe := wireframe g;
     bloom := bloom g;
     preMousePosX := posX;
     preMousePosY := posY;
     dragging := dragging g;
     sensitivity := sensitivity g;
     maxViewSpeed := maxViewSpeed g;
     viewSmoothness := viewSmoothness g;
     viewPolar := viewPolar g;
     panPolar := panPolar g;
     viewSpeed := viewSpeed g;
     viewPos := viewPos g;
     viewDir := viewDir g;
     viewFovy := viewFovy g;
     exposure := exposure g;
     bodyNameId := bodyNameId g;
     bodyNameFade := bodyNameFade g;
     switchPhase := switchPhase g;
     switchTime := switchTime g;
     switchPreviousBodyId := switchPreviousBodyId g;
     switchPreviousViewDir := switchPreviousViewDir g;
     switchNewViewPolar := switchNewViewPolar g |}.

(** One frame.  [win] is the window during the frame and [scroll] the
    scroll offsets that [glfwPollEvents] delivers at its end.  The
    renderer, the screenshot and the profiling output are outside the
    model: the frame returns the snapshot handed to the renderer.  [None]
    is a frame that does not end (the ancestor walk of a cyclic
    hierarchy). *)
Definition update (computePosition : Orbit -> R -> vec3) (win : Window)
    (scroll : list Z) (dt : R) (g : Game) : option (Game * RenderState) :=
  let epoch1 := epoch g + at_index 0 (timeWarpValues g) (timeWarpIndex g) * dt in
  match entityStateUpdate computePosition (entities (entityCollection g)) epoch1 with
  | None => None
  | Some st =>
      (* Wireframe on/off, bloom on/off *)
      let '(pressedW, keys1) := isPressedOnce win GLFW_KEY_W (keysHeld g) in
      let wireframe1 := if pressedW then negb (wireframe g) else wireframe g in
      let '(pressedB, keys2) := isPressedOnce win GLFW_KEY_B keys1 in
      let bloom1 := if pressedB then negb (bloom g) else bloom g in
      let g1 := withFrameStart g epoch1 st keys2 wireframe1 bloom1 in
      (* Camera *)
      let g2 := updateCamera win dt g1 in
      (* Mouse reset, screenshot key, profiler key *)
      let '(_, keys3) := isPressedOnce win GLFW_KEY_F12 (keysHeld g2) in
      let '(_, keys4) := isPressedOnce win GLFW_KEY_F5 keys3 in
      let g3 := withFrameEnd g2 (fst (glfwGetCursorPos win))
                  (snd (glfwGetCursorPos win)) keys4 in
      (* Focused entities *)
      let texLoadBodies :=
        match getFocusedBody g2 with
        | Some f => getTexLoadBodies (entities (entityCollection g2)) f
        | None => []
        end in
      (* Time formatting *)
      let formattedTime := getFormattedTime (floor epoch1) in
      let snapshot :=
        mkRender (viewPos g2) (viewFovy g2) (viewDir g2) (exposure g2)
          (wireframe g2) (bloom g2) texLoadBodies
          (getDisplayName (getParam (entities (entityCollection g2))
                             (getDisplayedBody g2)))
          (bodyNameFade g2) formattedTime in
      Some (foldl (fun g' offset => scrollFun win offset g') g3 scroll, snapshot)
  end.

(** The game at the camera dispatch of a frame in which the entity state
    update stored the states [st]. *)
Definition frameStart (g : Game) (st : gmap nat EntityState) : Game :=
  withFrameStart g (epoch g) st (keysHeld g) (wireframe g) (bloom g).

(** A frame of the camera: the window, the elapsed time and the entity
    states of the frame. *)
Record Frame := mkFrame {
  f_win : Window; f_dt : R; f_state : gmap nat EntityState }.

Definition cameraFrame (f : Frame) (g : Game) : Game :=
  updateCamera (f_win f) (f_dt f) (frameStart g (f_state f)).

(** The camera over a series of frames. *)
Definition cameraFrames (frames : list Frame) (g : Game) : Game :=
  foldl (fun g' f => cameraFrame f g') g frames.






(** C3 as the specification words it: the list has no duplicate and holds
    exactly the bodies among the focused entity, its ancestors and its
    siblings. *)
Definition texLoadClaim (es : list Entity) (focusedEntity : nat) (l : list nat)
  : Prop :=
  NoDup l /\
  forall h : nat,
    h ∈ l <->
    isBody (getParam es (Some h)) = true /\
    (h = focusedEntity \/ ancestor es h focusedEntity
     \/ sibling es h focusedEntity).

(** ** A small system, for the examples *)

Module Sample.

Definition noOrbit : Orbit := mkOrbit 0 0 0 0 0 0 0.
Definition circular (sma' pr' : R) : Orbit := mkOrbit 0 sma' 0 0 0 pr' 0.

Definition body (name : string) (radius : R) (orbit : option Orbit)
    (clouds : option Clouds) : EntityParam :=
  mkParam name name true (mkModel radius 86400)
    (bool_decide (is_Some orbit)) (default noOrbit orbit)
    (bool_decide (is_Some clouds)) (default (mkClouds 0) clouds).

Definition sun : Entity :=
  mkEntity (body "Sun" 696000 None None) None.
Definition earth : Entity :=
  mkEntity (body "Earth" 6371 (Some (circular 149600000 31558150))
              (Some (mkClouds 100))) (Some 0%nat).
Definition mars : Entity :=
  mkEntity (body "Mars" 3390 (Some (circular 227900000 59355000)) None)
    (Some 0%nat).
Definition venus : Entity :=
  mkEntity (body "Venus" 6052 (Some (circular 108200000 19414000)) None)
    (Some 0%nat).
Definition moon : Entity :=
  mkEntity (body "Moon" 1737 (Some (circular 384400 2360600)) None)
    (Some 1%nat).

(** Modelled from the spec: what [computePosition] gives for a circular
    orbit in the reference plane (eccentricity 0, all angles 0, section
    4.1): the point at distance [sma] and angle 2 pi epoch / period. *)
Definition circularPosition (o : Orbit) (t : R) : vec3 :=
  Vec3 (sma o * cos (2 * PI * t / pr o)) (sma o * sin (2 * PI * t / pr o)) 0.

(** A root that carries an orbit. *)
Definition orbitingRoot : Entity :=
  mkEntity (body "Root" 1 (Some (circular 1 1)) None) None.

(** Sun; Earth, Mars and Venus around it; the Moon around the Earth. *)
Definition system : list Entity := [sun; earth; mars; venus; moon].

(** Two bodies: A of radius 10, B of radius 1. *)
Definition pair : list Entity :=
  [mkEntity (body "A" 10 None None) None;
   mkEntity (body "B" 1 None None) None].

(** A at the origin and B at [posB]. *)
Definition pairState (posB : vec3) : gmap nat EntityState :=
  <[1%nat := mkState posB 0 0]> (<[0%nat := mkState zero3 0 0]> ∅).

Definition identity : mat3 := Mat3 (Vec3 1 0 0) (Vec3 0 1 0) (Vec3 0 0 1).

(** The camera at rest at distance 13 of A, on the x axis, B at
    (-11, 10, 0): the line from the camera to B passes at distance 5
    of the centre of A. *)
Definition game : Game :=
  {| epoch := 0;
     timeWarpValues := [1; 60; 3600];
     timeWarpIndex := 2;
     entityCollection := mkCollection pair (pairState (Vec3 (-11) 10 0));
     focusedBodyId := 0;
     keysHeld := ∅;
     wireframe := false;
     bloom := false;
     preMousePosX := 0;
     preMousePosY := 0;
     dragging := false;
     sensitivity := 0.001;
     maxViewSpeed := 0.2;
     viewSmoothness := 0.85;
     viewPolar := Vec3 0 0 13;
     panPolar := zero2;
     viewSpeed := zero3;
     viewPos := Vec3 13 0 0;
     viewDir := identity;
     viewFovy := 0.7;
     exposure := 0;
     bodyNameId := 0;
     bodyNameFade := 1;
     switchPhase := IDLE;
     switchTime := 0;
     switchPreviousBodyId := 0;
     switchPreviousViewDir := identity;
     switchNewViewPolar := zero3 |}.

(** The sample game in the MOVE phase toward B, which is at (23, 0, 0). *)
Definition moving : Game :=
  {| epoch := 0;
     timeWarpValues := [1; 60; 3600];
     timeWarpIndex := 0;
     entityCollection := mkCollection pair (pairState (Vec3 23 0 0));
     focusedBodyId := 1;
     keysHeld := ∅;
     wireframe := false;
     bloom := false;
     preMousePosX := 0;
     preMousePosY := 0;
     dragging := false;
     sensitivity := 0.001;
     maxViewSpeed := 0.2;
     viewSmoothness := 0.85;
     viewPolar := Vec3 0 0 13;
     panPolar := zero2;
     viewSpeed := zero3;
     viewPos := Vec3 13 0 0;
     viewDir := identity;
     viewFovy := 0.7;
     exposure := 0;
     bodyNameId := 0;
     bodyNameFade := 1;
     switchPhase := MOVE;
     switchTime := 0;
     switchPreviousBodyId := 0;
     switchPreviousViewDir := identity;
     switchNewViewPolar := Vec3 0 0 13 |}.


(** No key down, no button down, the cursor at the origin. *)
Definition idleWindow : Window :=
  mkWindow (fun _ => false) (fun _ => false) (0, 0).

(** Only TAB down. *)
Definition tabWindow : Window :=
  mkWindow (fun key => bool_decide (key = GLFW_KEY_TAB)) (fun _ => false) (0, 0).

(** A frame with no input, of elapsed time [dt], B at [posB]. *)
Definition quietFrame (dt : R) (posB : vec3) : Frame :=
  mkFrame idleWindow dt (pairState posB).

End Sample.

(** The state of an entity as the specification words it: the relative
    position plus the sum of the relative positions of the ancestors, with
    the rotation angle and the cloud displacement of the code. *)
Definition resolvedState (computePosition : Orbit -> R -> vec3)
    (es : list Entity) (epoch' : R) (h : nat) : EntityState :=
  mkState
    (add (relativePosition computePosition es epoch' h)
       (vsum (map (relativePosition computePosition es epoch')
                (getAllParents es (Some h)))))
    (rotationAngle epoch' (getParam es (Some h)))
    (cloudDisp epoch' (getParam es (Some h))).

(** The point at parameter [t] of the line through [o] with direction [d]. *)
Definition linePoint (o d : vec3) (t : R) : vec3 := add o (scale t d).

(** The camera position relative to the body it orbits, from the polar
    position. *)
Definition relativeViewPos (viewPolar' : vec3) : vec3 :=
  scale (z3 viewPolar') (polarToCartesian (xy viewPolar')).

(** The switch target as a ray test with limit 1.1 [radius], for the state
    [g'] after the frame that triggered the switch: with the line from the
    camera toward the new body and its point closest to the centre of the
    body that was left, the target is the shifted position when that point
    is in front of the camera and nearer than the limit, and the view
    position otherwise. *)
Definition switchTargetWith (radius : R) (g' : Game) : Prop :=
  let relViewPos := relativeViewPos (viewPolar g') in
  let target := sub (positionOf g' (getFocusedBody g'))
                    (positionOf g' (getPreviousBody g')) in
  let dir := normalize (sub target relViewPos) in
  let tc := - dot relViewPos dir in
  let closestDist := length (linePoint relViewPos dir tc) in
  let limit := radius * 1.1 in
  (0 < tc /\ closestDist < limit ->
   switchNewViewPolar g'
   = shiftedPolar (viewPolar g') relViewPos target
       (linePoint relViewPos dir tc) closestDist limit) /\
  (tc <= 0 \/ limit <= closestDist -> switchNewViewPolar g' = viewPolar g').

(** C2 as the specification words it: the limit is 1.1 times the radius of
    the NEW focused body. *)
Definition switchTargetClaim (g' : Game) : Prop :=
  switchTargetWith (radiusOf g' (getFocusedBody g')) g'.

(** C1 as the specification words it: 0 without a cloud layer or with a
    zero period, else the negated fractional part of epoch / period. *)
Definition claimedCloudDisp (epoch' : R) (p : EntityParam) : R :=
  if negb (hasClouds p) || bool_decide (getPeriod (getClouds p) = 0) then 0
  else fmod (- epoch' / getPeriod (getClouds p)) 1.

(** C8 as the specification words it: the position of the Orbit Model
    for an entity that has an orbit, the zero vector otherwise. *)
Definition claimedRelativePosition (computePosition : Orbit -> R -> vec3)
    (es : list Entity) (epoch' : R) (h : nat) : vec3 :=
  if hasOrbit (getParam es (Some h))
  then computePosition (getOrbit (getParam es (Some h))) epoch'
  else zero3.



(** ** More of [game.cpp]: the rotation axis, the starting body, profiling *)

(** [axis(rightAscension, declination)]. *)
Definition axis (rightAscension declination : R) : vec3 :=
  Vec3 (- sin rightAscension * cos declination)
       (cos rightAscension * cos declination)
       (sin declination).

(** The loop of [loadEntityFiles] that sets the focused body: the index
    of the first body whose name is [startingBody], counted from [i];
    [None] when the loop ends without a [break]. *)
Fixpoint startingBodyLoop (es : list Entity) (startingBody : string)
    (bodies : list nat) (i : Z) : option Z :=
  match bodies with
  | [] => None
  | b :: rest =>
      if String.eqb (getName (getParam es (Some b))) startingBody
      then Some i
      else startingBodyLoop es startingBody rest (i + 1)%Z
  end.

(** [focusedBodyId] after that loop: set at the [break], left as it was
    without one. *)
Definition startingFocus (es : list Entity) (startingBody : string)
    (focusedBodyId0 : Z) : Z :=
  default focusedBodyId0 (startingBodyLoop es startingBody (getBodies es) 0%Z).

(** Profiling times: a vector of (label, nanoseconds), the nanoseconds a
    [uint64_t]. *)
Definition UINT64_MOD : Z := 18446744073709551616.

(** [std::find_if] on the label, then [push_back(p)] at the end when there
    is no such entry, and [it->second = op(it->second, p.second)]
    otherwise. *)
Fixpoint mergeTime (op : Z -> Z -> Z) (p : string * Z) (times : list (string * Z))
  : list (string * Z) :=
  match times with
  | [] => [p]
  | pa :: rest =>
      if String.eqb (fst pa) (fst p)
      then (fst pa, op (snd pa) (snd p)) :: rest
      else pa :: mergeTime op p rest
  end.

(** [it->second += p.second] on [uint64_t]. *)
Definition addTime (x y : Z) : Z := ((x + y) mod UINT64_MOD)%Z.

(** The three members that [updateProfiling] writes; the frame counter
    without its machine bound. *)
Record Profiling := mkProfiling {
  fullTimes : list (string * Z);
  maxTimes : list (string * Z);
  numFrames : Z }.

Definition updateProfiling (a : list (string * Z)) (prof : Profiling) : Profiling :=
  let prof1 :=
    foldl (fun pr p =>
             mkProfiling (mergeTime addTime p (fullTimes pr))
               (mergeTime Z.max p (maxTimes pr))
               (numFrames pr))
      prof a in
  mkProfiling (fullTimes prof1) (maxTimes prof1) (numFrames prof1 + 1)%Z.

(** The time of the first entry with label [k], as [find_if] finds it. *)
Fixpoint timeOf (k : string) (times : list (string * Z)) : option Z :=
  match times with
  | [] => None
  | pa :: rest => if String.eqb (fst pa) k then Some (snd pa) else timeOf k rest
  end.

(** The times of the entries of [a] with label [k], in order. *)
Definition timesFor (k : string) (a : list (string * Z)) : list Z :=
  map snd (List.filter (fun p => String.eqb (fst p) k) a).

(** Every time of the list is a [uint64_t] value. *)
Definition timesInRange (times : list (string * Z)) : Prop :=
  Forall (fun p => (0 <= snd p < UINT64_MOD)%Z) times.

(** The sample game in the TRACK phase toward B, its target at distance
    40 of A while the camera is at distance 13. *)
Definition trackingFar : Game :=
  {| epoch := 0;
     timeWarpValues := [1; 60; 3600];
     timeWarpIndex := 0;
     entityCollection := mkCollection Sample.pair (Sample.pairState (Vec3 23 0 0));
     focusedBodyId := 1;
     keysHeld := ∅;
     wireframe := false;
     bloom := false;
     preMousePosX := 0;
     preMousePosY := 0;
     dragging := false;
     sensitivity := 0.001;
     maxViewSpeed := 0.2;
     viewSmoothness := 0.85;
     viewPolar := Vec3 0 0 13;
     panPolar := zero2;
     viewSpeed := zero3;
     viewPos := Vec3 13 0 0;
     viewDir := Sample.identity;
     viewFovy := 0.7;
     exposure := 0;
     bodyNameId := 0;
     bodyNameFade := 1;
     switchPhase := TRACK;
     switchTime := 0;
     switchPreviousBodyId := 0;
     switchPreviousViewDir := Sample.identity;
     switchNewViewPolar := Vec3 0 0 40 |}.


(** C5 as the specification words it, for the state [g'] that an IDLE
    update leaves: the camera is not nearer to the centre of the focused
    body than the radius of that body. *)
Definition cameraOutsideFocus (g' : Game) : Prop :=
  radiusOf g' (getFocusedBody g')
  <= Glm.length (sub (viewPos g') (positionOf g' (getFocusedBody g'))).

(** The sample pair with B, of radius 1, at (-12, 0, 0), two units off
    the surface of A; the camera in IDLE around B at distance 4, on the
    side of A. *)
Definition besideSmallBody : Game :=
  {| epoch := 0;
     timeWarpValues := [1; 60; 3600];
     timeWarpIndex := 0;
     entityCollection :=
       mkCollection Sample.pair (Sample.pairState (Vec3 (-12) 0 0));
     focusedBodyId := 1;
     keysHeld := ∅;
     wireframe := false;
     bloom := false;
     preMousePosX := 0;
     preMousePosY := 0;
     dragging := false;
     sensitivity := 0.001;
     maxViewSpeed := 0.2;
     viewSmoothness := 0.85;
     viewPolar := Vec3 0 0 4;
     panPolar := zero2;
     viewSpeed := zero3;
     viewPos := Vec3 (-8) 0 0;
     viewDir := Sample.identity;
     viewFovy := 0.7;
     exposure := 0;
     bodyNameId := 1;
     bodyNameFade := 1;
     switchPhase := IDLE;
     switchTime := 0;
     switchPreviousBodyId := 0;
     switchPreviousViewDir := Sample.identity;
     switchNewViewPolar := zero3 |}.

(** Only the key [k] down, no button down, the cursor at the origin. *)
Definition keyWindow (k : Z) : Window :=
  mkWindow (fun key => bool_decide (key = k)) (fun _ => false) (0, 0).
(** ** Theorems *)

Local Open Scope Z_scope.

Example getFormattedTime_reference :
  getFormattedTime 0 = Some "Jan. 1 2017 00:00:00 UTC"%string.
Proof. vm_compute. reflexivity. Qed.

Example getFormattedTime_365_days :
  getFormattedTime (365 * 86400) = Some "Jan. 1 2018 00:00:00 UTC"%string.
Proof. vm_compute. reflexivity. Qed.

Example getFormattedTime_feb29_2020 :
  getFormattedTime ((365 * 3 + 31 + 28) * 86400 + 86399)
    = Some "Feb. 29 2020 23:59:59 UTC"%string
  /\ getFormattedTime ((365 * 3 + 31 + 29) * 86400)
    = Some "Mar. 1 2020 00:00:00 UTC"%string.
Proof. split; vm_compute; reflexivity. Qed.

Example getFormattedTime_negative :
  getFormattedTime (-1) = Some "Jan. 1 2017 00:00:0/ UTC"%string.
Proof. vm_compute. reflexivity. Qed.

(** *** Calendar lemmas *)

Lemma to_int_small (z : Z) : -2147483648 <= z <= INT_MAX -> to_int z = z.
Proof.
  unfold to_int, INT_MAX. intros Hz.
  rewrite Z.mod_small by lia. lia.
Qed.

Lemma isLeapYear_gregorian (y : Z) : 0 <= y -> isLeapYear y = Gregorian.leap y.
Proof.
  intros Hy. unfold isLeapYear, Gregorian.leap.
  rewrite !Z.rem_mod_nonneg by lia.
  repeat case_decide;
    repeat match goal with
           | |- context [?a =? ?b] => destruct (Z.eqb_spec a b)
           end; simpl; try reflexivity; exfalso;
    lia.
Qed.

Lemma days_before_year_succ (y : Z) :
  0 < y ->
  Gregorian.days_before_year (y + 1)
  = Gregorian.days_before_year y + 365 + (if Gregorian.leap y then 1 else 0).
Proof.
  intros Hy. unfold Gregorian.days_before_year, Gregorian.leaps_before, Gregorian.leap.
  replace (y + 1 - 1) with y by lia.
  repeat case_decide; Z.div_mod_to_equations; lia.
Qed.

Lemma yearLoop_exit (fuel : nat) (days i year : Z) :
  2017 <= year ->
  i = Gregorian.days_before_year year ->
  i <= days ->
  days - i < Z.of_nat fuel ->
  exists year',
    2017 <= year' /\
    yearLoop fuel days i year = Some (Gregorian.days_before_year year', year') /\
    Gregorian.days_before_year year' <= days
      < Gregorian.days_before_year (year' + 1).
Proof.
  revert i year. induction fuel as [|fuel IH]; intros i year Hy Hi Hle Hfuel.
  - lia.
  - cbn [yearLoop]. rewrite isLeapYear_gregorian by lia.
    pose proof (days_before_year_succ year ltac:(lia)) as Hs.
    destruct (Z.leb_spec (i + (365 + (if Gregorian.leap year then 1 else 0))) days)
      as [Hgo|Hstop].
    + apply IH; try lia.
      destruct (Gregorian.leap year); lia.
    + exists year. subst i. repeat split; try lia.
Qed.

Lemma monthLength_nth (y : Z) (m : nat) :
  0 <= y -> (m < 12)%nat ->
  nth_error (monthLength y) m = Some (Gregorian.month_days y m).
Proof.
  intros Hy Hm. unfold monthLength. rewrite isLeapYear_gregorian by exact Hy.
  do 12 (destruct m as [|m]; [cbn; destruct (Gregorian.leap y); reflexivity|]).
  lia.
Qed.

Lemma monthNames_nth (m : nat) :
  (m < 12)%nat -> nth_error monthNames m = Some (Gregorian.month_name m).
Proof.
  intros Hm. do 12 (destruct m as [|m]; [reflexivity|]). lia.
Qed.

Lemma days_before_month_12 (y : Z) :
  Gregorian.days_before_month y 12 = 365 + (if Gregorian.leap y then 1 else 0).
Proof. cbn. destruct (Gregorian.leap y); reflexivity. Qed.

Lemma month_days_pos (y : Z) (m : nat) : 28 <= Gregorian.month_days y m.
Proof.
  unfold Gregorian.month_days.
  do 12 (destruct m as [|m]; [destruct (Gregorian.leap y); lia|]). lia.
Qed.

Lemma days_before_month_S (y : Z) (m : nat) :
  Gregorian.days_before_month y (S m)
  = Gregorian.days_before_month y m + Gregorian.month_days y m.
Proof. reflexivity. Qed.

Lemma days_before_month_mono (y : Z) (a b : nat) :
  (a <= b)%nat ->
  Gregorian.days_before_month y a <= Gregorian.days_before_month y b.
Proof.
  induction 1 as [|b Hab IH]; [lia|].
  rewrite days_before_month_S. pose proof (month_days_pos y b). lia.
Qed.

Lemma monthLoop_exit (fuel : nat) (y remainingDays : Z) (m : nat) :
  0 <= y ->
  Gregorian.days_before_month y m <= remainingDays
    < Gregorian.days_before_month y 12 ->
  (12 < fuel + m)%nat ->
  exists m',
    (m' < 12)%nat /\
    monthLoop fuel (monthLength y) remainingDays
      (Gregorian.days_before_month y m) m
    = Some (Gregorian.days_before_month y m', m') /\
    Gregorian.days_before_month y m' <= remainingDays
      < Gregorian.days_before_month y m' + Gregorian.month_days y m'.
Proof.
  intros Hy. revert m. induction fuel as [|fuel IH]; intros m Hr Hfuel.
  - pose proof (days_before_month_mono y 12 m ltac:(lia)). lia.
  - destruct (Nat.lt_ge_cases m 12) as [Hm|Hm].
    + cbn [monthLoop]. rewrite monthLength_nth by assumption.
      destruct (Z.leb_spec (Gregorian.days_before_month y m
                            + Gregorian.month_days y m) remainingDays)
        as [Hgo|Hstop].
      * rewrite <- days_before_month_S. apply (IH (S m)); [|lia].
        rewrite days_before_month_S. lia.
      * exists m. repeat split; try lia.
    + pose proof (days_before_month_mono y 12 m Hm). lia.
Qed.

Lemma suffixb_refl (t : string) : suffixb t t = true.
Proof. destruct t; cbn [suffixb]; rewrite String.eqb_refl; reflexivity. Qed.

Lemma suffixb_app_r (t x s : string) :
  suffixb t s = true -> suffixb t (x ++ s) = true.
Proof.
  intros H. induction x as [|c x IH]; [exact H|].
  change (suffixb t (String c (x ++ s)) = true).
  cbn [suffixb]. rewrite IH. apply orb_true_r.
Qed.

Lemma format_two_digits (v : Z) :
  0 <= v < 100 -> format v = Gregorian.two_digits v.
Proof.
  intros Hv.
  assert (Hall : forallb (fun n => String.eqb (format (Z.of_nat n))
                                     (Gregorian.two_digits (Z.of_nat n)))
                   (seq 0 100) = true) by (vm_compute; reflexivity).
  rewrite forallb_forall in Hall.
  specialize (Hall (Z.to_nat v)).
  rewrite Z2Nat.id in Hall by lia.
  apply String.eqb_eq, Hall, in_seq. lia.
Qed.

(** C7 (amended).  For every epoch that is not negative and whose day
    count stays 366 below the largest [int], [getFormattedTime] returns
    the string "<Mon>. <day> <year> HH:MM:SS UTC" of the one valid date of
    the proleptic Gregorian calendar (leap years divisible by 4, not by
    100 unless by 400; month lengths 31,28/29,31,30,31,30,31,31,30,31,30,31)
    whose day number, counted from 1 January 2017, is the epoch's day
    count, with hour, minute and second on two zero-padded digits. *)
Theorem getFormattedTime_gregorian (epoch : Z) :
  0 <= epoch ->
  epoch / 86400 <= INT_MAX - 366 ->
  exists d : Gregorian.date,
    Gregorian.valid d /\
    Gregorian.day_number d = epoch / 86400 /\
    getFormattedTime epoch
    = Some (Gregorian.render d (epoch / 3600 mod 24) (epoch / 60 mod 60)
              (epoch mod 60)).
Proof.
  intros Hpos Hrange. unfold getFormattedTime.
  rewrite !Z.quot_div_nonneg by lia.
  rewrite !Z.rem_mod_nonneg by (try apply Z.div_pos; lia).
  assert (Hd : 0 <= epoch / 86400) by (apply Z.div_pos; lia).
  unfold INT_MAX in Hrange.
  rewrite !to_int_small
    by (unfold INT_MAX;
        first [ lia
              | pose proof (Z.mod_pos_bound epoch 60 ltac:(lia)); lia
              | pose proof (Z.mod_pos_bound (epoch / 60) 60 ltac:(lia)); lia
              | pose proof (Z.mod_pos_bound (epoch / 3600) 24 ltac:(lia)); lia ]).
  set (days := epoch / 86400) in *.
  destruct (yearLoop_exit (S (Z.to_nat days)) days 0 2017)
    as (y & Hy & Hloop & Hlo & Hhi); try lia; [reflexivity|].
  rewrite Hloop.
  rewrite days_before_year_succ in Hhi by lia.
  destruct (monthLoop_exit 13 y (days - Gregorian.days_before_year y) 0)
    as (m & Hm & Hmloop & Hmlo & Hmhi); try lia.
  { rewrite days_before_month_12. cbn [Gregorian.days_before_month].
    destruct (Gregorian.leap y); lia. }
  cbn [Gregorian.days_before_month] in Hmloop. rewrite Hmloop.
  rewrite monthNames_nth by exact Hm.
  exists {| Gregorian.year := y; Gregorian.month := m;
            Gregorian.day := days - Gregorian.days_before_year y
                             - Gregorian.days_before_month y m + 1 |}.
  split; [|split].
  - unfold Gregorian.valid; cbn. lia.
  - unfold Gregorian.day_number; cbn. lia.
  - unfold Gregorian.render; cbn [Gregorian.year Gregorian.month Gregorian.day].
    rewrite !format_two_digits
      by (match goal with
          | |- 0 <= ?a mod ?b < 100 =>
              pose proof (Z.mod_pos_bound a b ltac:(lia)); lia
          end).
    reflexivity.
Qed.

(** The theorem at the last second of 29 February 2020. *)
Lemma getFormattedTime_gregorian_witness :
  exists d : Gregorian.date,
    Gregorian.valid d /\
    Gregorian.day_number d = 98236799 / 86400 /\
    getFormattedTime 98236799
    = Some (Gregorian.render d (98236799 / 3600 mod 24) (98236799 / 60 mod 60)
              (98236799 mod 60)).
Proof.
  apply (getFormattedTime_gregorian 98236799).
  - lia.
  - vm_compute. discriminate.
Defined.

(** C7 as the claim words it, for every epoch, fails one second before the
    reference instant: the text returned there is "Jan. 1 2017 00:00:0/ UTC",
    which is the rendering of no date with a seconds field 00..59. *)
Lemma getFormattedTime_before_reference :
  getFormattedTime (-1) = Some "Jan. 1 2017 00:00:0/ UTC"%string /\
  ~ (exists (d : Gregorian.date) (h mi s : Z),
       0 <= s < 60 /\
       getFormattedTime (-1) = Some (Gregorian.render d h mi s)).
Proof.
  split; [exact getFormattedTime_negative|].
  intros (d & h & mi & s & Hs & Heq).
  rewrite getFormattedTime_negative in Heq. injection Heq as Heq.
  assert (Hsuf : suffixb (Gregorian.two_digits s ++ " UTC")
                   "Jan. 1 2017 00:00:0/ UTC" = true).
  { rewrite Heq. unfold Gregorian.render.
    repeat first [apply suffixb_refl | apply suffixb_app_r]. }
  assert (Hall : forallb (fun n => negb (suffixb
                    (Gregorian.two_digits (Z.of_nat n) ++ " UTC")
                    "Jan. 1 2017 00:00:0/ UTC")) (seq 0 60) = true)
    by (vm_compute; reflexivity).
  rewrite forallb_forall in Hall.
  specialize (Hall (Z.to_nat s)). rewrite Z2Nat.id in Hall by lia.
  rewrite Hsuf in Hall. discriminate Hall. apply in_seq. lia.
Qed.

(** *** Edge-triggered keys *)

Lemma isPressedOnce_result (win : Window) (key : Z) (kh : gmap Z bool) :
  fst (isPressedOnce win key kh) = glfwGetKey win key && negb (held kh key).
Proof.
  unfold isPressedOnce.
  destruct (glfwGetKey win key), (held kh key); reflexivity.
Qed.

Lemma isPressedOnce_held (win : Window) (key k : Z) (kh : gmap Z bool) :
  held (snd (isPressedOnce win key kh)) k
  = if decide (key = k) then glfwGetKey win key else held kh k.
Proof.
  unfold isPressedOnce.
  destruct (glfwGetKey win key) eqn:Hdown, (held kh key) eqn:Hheld;
    cbn [snd]; unfold held in *; case_decide; subst;
    rewrite ?lookup_insert_eq, ?lookup_insert_ne by assumption;
    try reflexivity; assumption.
Qed.

Lemma pressChecks_cons (win : Window) (key : Z) (rest : list (Window * Z))
    (kh : gmap Z bool) :
  pressChecks ((win, key) :: rest) kh
  = (fst (isPressedOnce win key kh)
       :: fst (pressChecks rest (snd (isPressedOnce win key kh))),
     snd (pressChecks rest (snd (isPressedOnce win key kh)))).
Proof.
  cbn [pressChecks]. destruct (isPressedOnce win key kh) as [r kh1].
  cbn [fst snd]. destruct (pressChecks rest kh1); reflexivity.
Qed.

Lemma pressChecks_results (checks : list (Window * Z)) (kh : gmap Z bool) :
  fst (pressChecks checks kh)
  = imap (fun i c =>
            glfwGetKey (fst c) (snd c)
            && negb (lastSeen (snd c) (take i checks) (held kh (snd c))))
      checks.
Proof.
  revert kh. induction checks as [|[win key] rest IH]; intros kh; [reflexivity|].
  rewrite pressChecks_cons. cbn [fst imap take lastSeen snd].
  rewrite isPressedOnce_result. f_equal.
  rewrite IH. apply imap_ext. intros i [w k] _. cbn [fst snd compose take lastSeen].
  rewrite isPressedOnce_held. reflexivity.
Qed.

Lemma pressChecks_held (checks : list (Window * Z)) (kh : gmap Z bool) (k : Z) :
  held (snd (pressChecks checks kh)) k = lastSeen k checks (held kh k).
Proof.
  revert kh. induction checks as [|[win key] rest IH]; intros kh; [reflexivity|].
  rewrite pressChecks_cons. cbn [snd lastSeen].
  rewrite IH, isPressedOnce_held. reflexivity.
Qed.

Lemma lastSeen_all_down (key : Z) (checks : list (Window * Z)) :
  (forall c, c ∈ checks -> snd c = key -> glfwGetKey (fst c) key = true) ->
  lastSeen key checks true = true.
Proof.
  induction checks as [|[win k] rest IH]; intros Hdown; [reflexivity|].
  cbn [lastSeen]. case_decide as Hk.
  - subst k.
    pose proof (Hdown (win, key) (list_elem_of_here _ _) eq_refl) as Hw.
    cbn [fst] in Hw. rewrite Hw.
    apply IH. intros c Hc. apply Hdown. apply list_elem_of_further, Hc.
  - apply IH. intros c Hc. apply Hdown. apply list_elem_of_further, Hc.
Qed.

Lemma lastSeen_app (key : Z) (l1 l2 : list (Window * Z)) (b : bool) :
  lastSeen key (l1 ++ l2) b = lastSeen key l2 (lastSeen key l1 b).
Proof.
  revert b. induction l1 as [|[win k] l1 IH]; intros b; [reflexivity|].
  cbn [app lastSeen]. apply IH.
Qed.

(** C9.  Over any series of checks of any keys, the check number [i], of
    key [key] in window [win], returns true exactly when the key is down
    and the latest earlier check of that key (or the table, before any)
    did not record it as held; each check records what it saw for its
    key only; and after a check that saw the key down, no check of that
    key returns true as long as every check of it in between saw it
    down. *)
Theorem isPressedOnce_edge (checks : list (Window * Z)) (kh : gmap Z bool) :
  fst (pressChecks checks kh)
  = imap (fun i c =>
            glfwGetKey (fst c) (snd c)
            && negb (lastSeen (snd c) (take i checks) (held kh (snd c))))
      checks
  /\ (forall k : Z,
        held (snd (pressChecks checks kh)) k = lastSeen k checks (held kh k))
  /\ (forall (i j : nat) (wi wj : Window) (key : Z),
        (i < j)%nat ->
        checks !! i = Some (wi, key) ->
        checks !! j = Some (wj, key) ->
        (forall (n : nat) (wn : Window),
           (i <= n < j)%nat -> checks !! n = Some (wn, key) ->
           glfwGetKey wn key = true) ->
        fst (pressChecks checks kh) !! j = Some false).
Proof.
  split; [apply pressChecks_results|].
  split; [intros k; apply pressChecks_held|].
  intros i j wi wj key Hij Hi Hj Hdown.
  rewrite pressChecks_results, list_lookup_imap, Hj. cbn [fmap option_fmap option_map fst snd].
  f_equal.
  assert (Hsplit : take j checks = take i checks ++ (wi, key) :: drop (S i) (take j checks)).
  { rewrite <- (take_drop_middle (take j checks) i (wi, key)) at 1.
    - rewrite take_take. f_equal. f_equal. lia.
    - rewrite lookup_take_lt by lia. exact Hi. }
  rewrite Hsplit, lastSeen_app. cbn [lastSeen].
  rewrite decide_True by reflexivity.
  rewrite (Hdown i wi) by (try lia; exact Hi).
  rewrite lastSeen_all_down; [apply andb_false_r|].
  intros [wn k] Hin Hk. cbn [fst snd] in *. subst k.
  apply list_elem_of_lookup in Hin as [n Hn].
  rewrite lookup_drop in Hn.
  destruct (decide (S i + n < j)%nat) as [Hlt|Hge].
  - rewrite lookup_take_lt in Hn by lia.
    apply (Hdown (S i + n)%nat wn); [lia|exact Hn].
  - rewrite lookup_take_ge in Hn by lia. discriminate.
Qed.

(** *** The switch trigger of [updateIdle] *)

Local Open Scope R_scope.

(** The TAB check of [updateIdle] comes after the checks of K and L, which
    leave the entry of TAB alone. *)
Lemma idleTabCheck_edge (win : Window) (g : Game) :
  fst (idleTabCheck win g)
  = glfwGetKey win GLFW_KEY_TAB && negb (held (keysHeld g) GLFW_KEY_TAB).
Proof.
  unfold idleTabCheck. rewrite isPressedOnce_result, !isPressedOnce_held.
  rewrite (decide_False (P := GLFW_KEY_L = GLFW_KEY_TAB)) by (compute; discriminate).
  rewrite (decide_False (P := GLFW_KEY_K = GLFW_KEY_TAB)) by (compute; discriminate).
  reflexivity.
Qed.

(** C10.  When the TAB edge fires in an IDLE update, whatever the K and L
    keys did in that frame, the time-warp index is 0 afterwards, the phase
    is TRACK, the body that was focused is recorded as the previous body,
    the orientation of this frame is recorded as the previous orientation,
    and the focus is the next body of the cycle. *)
Theorem updateIdle_switch_kills_timewarp
    (win : Window) (dt : R) (g : Game) :
  switchPhase g = IDLE ->
  glfwGetKey win GLFW_KEY_TAB = true ->
  held (keysHeld g) GLFW_KEY_TAB = false ->
  let g' := updateCamera win dt g in
  timeWarpIndex g' = 0%Z /\
  switchPhase g' = TRACK /\
  switchPreviousBodyId g' = focusedBodyId g /\
  switchPreviousViewDir g' = viewDir g' /\
  focusedBodyId g'
  = chooseNextBody g (negb (glfwGetKey win GLFW_KEY_LEFT_SHIFT)).
Proof.
  intros Hidle Hdown Hheld g'. subst g'. unfold updateCamera. rewrite Hidle.
  pose proof (idleTabCheck_edge win g) as Hedge.
  rewrite Hdown, Hheld in Hedge. cbn [andb negb] in Hedge.
  unfold updateIdle.
  cbn [timeWarpIndex switchPhase switchPreviousBodyId switchPreviousViewDir
       viewDir focusedBodyId].
  rewrite Hedge. repeat split; reflexivity.
Qed.

(** The theorem for the sample game, with TAB down. *)
Lemma updateIdle_switch_kills_timewarp_witness :
  timeWarpIndex (updateCamera Sample.tabWindow 0 Sample.game) = 0%Z /\
  switchPhase (updateCamera Sample.tabWindow 0 Sample.game) = TRACK /\
  switchPreviousBodyId (updateCamera Sample.tabWindow 0 Sample.game)
  = focusedBodyId Sample.game /\
  switchPreviousViewDir (updateCamera Sample.tabWindow 0 Sample.game)
  = viewDir (updateCamera Sample.tabWindow 0 Sample.game) /\
  focusedBodyId (updateCamera Sample.tabWindow 0 Sample.game)
  = chooseNextBody Sample.game
      (negb (glfwGetKey Sample.tabWindow GLFW_KEY_LEFT_SHIFT)).
Proof.
  apply (updateIdle_switch_kills_timewarp Sample.tabWindow 0 Sample.game);
    reflexivity.
Defined.

(** *** Limits of the IDLE camera *)

Lemma maxVerticalAngle_pos : 0 < maxVerticalAngle.
Proof. unfold maxVerticalAngle. pose proof PI2_1. lra. Qed.

(** An IDLE update that triggers no switch leaves the focus where it
    was. *)
Lemma idle_no_switch_focus (win : Window) (dt posX posY : R) (g : Game) :
  glfwGetKey win GLFW_KEY_TAB && negb (held (keysHeld g) GLFW_KEY_TAB) = false ->
  getFocusedBody (updateIdle win dt posX posY g) = getFocusedBody g.
Proof.
  intros Hedge. rewrite <- idleTabCheck_edge in Hedge.
  unfold getFocusedBody, updateIdle. cbn [focusedBodyId entityCollection].
  rewrite Hedge. reflexivity.
Qed.

(** C5 (amended).  After every IDLE update, from any state and with any
    input: the elevation, and the elevation plus the pan offset, lie
    between -(pi/2 - 0.001) and pi/2 - 0.001, hence strictly inside
    (-pi/2 + eps, pi/2 - eps) for every eps below 0.001; when the
    elevation had to be clamped, the elevation component of the velocity
    is zero; and the distance is at least the radius of the body that was
    focused when the update began.  That body is still the focused body
    of the state the update leaves unless the update triggers a switch
    (an edge of TAB), so without a switch the distance is at least the
    radius of the focused body of that state.  The polar position that
    the end of MOVE hands to IDLE also has a distance of at least the
    radius of the focused body. *)
Theorem updateIdle_limits (win : Window) (dt posX posY : R) (g : Game) :
  (- maxVerticalAngle <= y3 (viewPolar (updateIdle win dt posX posY g))
     <= maxVerticalAngle) /\
  (- maxVerticalAngle
     <= y3 (viewPolar (updateIdle win dt posX posY g))
        + y2 (panPolar (updateIdle win dt posX posY g))
     <= maxVerticalAngle) /\
  (forall eps : R, 0 < eps < 0.001 ->
     - (PI / 2) + eps
     < y3 (viewPolar (updateIdle win dt posX posY g))
       + y2 (panPolar (updateIdle win dt posX posY g))
     < PI / 2 - eps) /\
  (maxVerticalAngle < y3 (viewPolar g) + y3 (dragSpeed win posX posY g)
   \/ y3 (viewPolar g) + y3 (dragSpeed win posX posY g) < - maxVerticalAngle ->
   y3 (viewSpeed (updateIdle win dt posX posY g)) = 0) /\
  radiusOf g (getFocusedBody g) <= z3 (viewPolar (updateIdle win dt posX posY g)) /\
  (glfwGetKey win GLFW_KEY_TAB && negb (held (keysHeld g) GLFW_KEY_TAB) = false ->
   getFocusedBody (updateIdle win dt posX posY g) = getFocusedBody g /\
   radiusOf (updateIdle win dt posX posY g)
     (getFocusedBody (updateIdle win dt posX posY g))
   <= z3 (viewPolar (updateIdle win dt posX posY g))) /\
  (1 < switchTime g + dt ->
   getFocusedBody (updateMove dt g) = getFocusedBody g /\
   radiusOf (updateMove dt g) (getFocusedBody (updateMove dt g))
   <= z3 (viewPolar (updateMove dt g))).
Proof.
  pose proof maxVerticalAngle_pos as Hmax.
  assert (Hy : - maxVerticalAngle <= y3 (viewPolar (updateIdle win dt posX posY g))
               <= maxVerticalAngle).
  { unfold updateIdle. cbn [viewPolar]. unfold idlePolar. cbn [y3].
    repeat case_decide; lra. }
  assert (Hp : - maxVerticalAngle
               <= y3 (viewPolar (updateIdle win dt posX posY g))
                  + y2 (panPolar (updateIdle win dt posX posY g))
               <= maxVerticalAngle).
  { unfold updateIdle in *. cbn [viewPolar panPolar] in *.
    unfold idlePan. cbn [y2]. repeat case_decide; lra. }
  assert (Hz : radiusOf g (getFocusedBody g)
               <= z3 (viewPolar (updateIdle win dt posX posY g))).
  { unfold updateIdle. cbn [viewPolar]. unfold idlePolar. cbn [z3].
    case_decide; lra. }
  split; [exact Hy|]. split; [exact Hp|]. split; [|split; [|split; [|split]]].
  - intros eps Heps. unfold maxVerticalAngle in Hp. lra.
  - intros Hclamped. unfold updateIdle. cbn [viewSpeed].
    unfold idleSpeed, idleElevation. cbn [y3].
    repeat case_decide; lra.
  - exact Hz.
  - intros Hedge.
    rewrite (idle_no_switch_focus win dt posX posY g Hedge).
    split; [reflexivity|exact Hz].
  - intros Hdone. split; [reflexivity|].
    change (radiusOf (updateMove dt g) (getFocusedBody (updateMove dt g)))
      with (radiusOf g (getFocusedBody g)).
    unfold updateMove. cbn [viewPolar].
    rewrite decide_True by exact Hdone. cbn [z3]. unfold moveTargetDist.
    pose proof (Rmax_l (4 * radiusOf g (getFocusedBody g)) 1000).
    pose proof (Rmax_r (4 * radiusOf g (getFocusedBody g)) 1000).
    lra.
Qed.

(** *** The hierarchy *)

Lemma elem_of_concat_map {A B : Type} (f : A -> list B) (l : list A) (x : B) :
  x ∈ concat (map f l) <-> exists i : A, i ∈ l /\ x ∈ f i.
Proof.
  induction l as [|a l IH]; cbn [map concat].
  - split; [intros H; apply elem_of_nil in H; contradiction|].
    intros (i & Hi & _). apply elem_of_nil in Hi. contradiction.
  - rewrite elem_of_app, IH. split.
    + intros [Hx|(i & Hi & Hx)].
      * exists a. split; [apply list_elem_of_here|exact Hx].
      * exists i. split; [apply list_elem_of_further, Hi|exact Hx].
    + intros (i & Hi & Hx). apply elem_of_cons in Hi as [->|Hi].
      * left. exact Hx.
      * right. exists i. split; assumption.
Qed.

Section HierarchyFacts.

Variable es : list Entity.

Lemma getParent_Some_lt (h p : nat) :
  getParent es (Some h) = Some p -> (h < List.length es)%nat.
Proof.
  cbn. destruct (es !! h) as [e|] eqn:He; [|discriminate].
  intros _. apply lookup_lt_Some in He. exact He.
Qed.

Lemma nthParent_None (k : nat) : nthParent es k None = None.
Proof. induction k as [|k IH]; [reflexivity|]. cbn. rewrite IH. reflexivity. Qed.

Lemma nthParent_shift (k : nat) (h : EntityHandle) :
  nthParent es (S k) h = nthParent es k (getParent es h).
Proof.
  induction k as [|k IH]; [reflexivity|].
  change (getParent es (nthParent es (S k) h)
          = getParent es (nthParent es k (getParent es h))).
  rewrite IH. reflexivity.
Qed.

Lemma nthParent_None_le (j k : nat) (h : EntityHandle) :
  (j <= k)%nat -> nthParent es j h = None -> nthParent es k h = None.
Proof.
  induction 1 as [|k Hjk IH]; [auto|].
  intros Hj. cbn. rewrite IH by exact Hj. reflexivity.
Qed.

Lemma wellFormed_chain (h : nat) :
  wellFormed es -> (h < List.length es)%nat ->
  nthParent es (List.length es) (Some h) = None.
Proof.
  intros [_ Hchain] Hh. rewrite Forall_forall in Hchain.
  apply Hchain. unfold getAll. apply list_elem_of_In, in_seq. lia.
Qed.

Lemma wellFormed_parent_lt (h p : nat) :
  wellFormed es -> getParent es (Some h) = Some p -> (p < List.length es)%nat.
Proof.
  intros [Hres _] Hp. rewrite Forall_forall in Hres.
  specialize (Hres h). rewrite Hp in Hres. apply Hres.
  unfold getAll. apply list_elem_of_In, in_seq.
  pose proof (getParent_Some_lt h p Hp). lia.
Qed.

Lemma getAllParents_from_S (fuel : nat) (h : EntityHandle) :
  getAllParents_from es (S fuel) h
  = match getParent es h with
    | Some p => p :: getAllParents_from es fuel (Some p)
    | None => []
    end.
Proof. reflexivity. Qed.

(** Enough fuel gives the whole chain of ancestors: more changes nothing. *)
Lemma getAllParents_from_enough (k fuel : nat) (h : EntityHandle) :
  nthParent es k h = None -> (k <= fuel)%nat ->
  getAllParents_from es fuel h = getAllParents_from es k h.
Proof.
  revert fuel h. induction k as [|k IH]; intros fuel h Hk Hle.
  - cbn in Hk. subst h. destruct fuel; reflexivity.
  - destruct fuel as [|fuel]; [lia|].
    cbn [getAllParents_from]. rewrite nthParent_shift in Hk.
    destruct (getParent es h) as [p|]; [|reflexivity].
    f_equal. apply IH; [exact Hk|lia].
Qed.

Lemma getAllParents_parent (h p : nat) :
  wellFormed es -> getParent es (Some h) = Some p ->
  getAllParents es (Some h) = p :: getAllParents es (Some p).
Proof.
  intros Hwf Hp. unfold getAllParents.
  pose proof (getParent_Some_lt h p Hp) as Hh.
  destruct (List.length es) as [|n] eqn:Hn; [lia|].
  rewrite (getAllParents_from_S n (Some h)), Hp. f_equal.
  symmetry. apply getAllParents_from_enough; [|lia].
  pose proof (wellFormed_chain h Hwf ltac:(lia)) as Hc.
  rewrite Hn, nthParent_shift, Hp in Hc. exact Hc.
Qed.

Lemma getAllParents_root (h : nat) :
  getParent es (Some h) = None -> getAllParents es (Some h) = [].
Proof.
  intros Hp. unfold getAllParents.
  destruct (List.length es); cbn [getAllParents_from]; [reflexivity|].
  rewrite Hp. reflexivity.
Qed.

Lemma ancestor_nthParent (a h : nat) :
  ancestor es a h <-> exists d : nat, nthParent es (S d) (Some h) = Some a.
Proof.
  split.
  - induction 1 as [h p Hp|h p a Hp _ [d Hd]].
    + exists 0%nat. exact Hp.
    + exists (S d). rewrite nthParent_shift, Hp. exact Hd.
  - intros [d Hd]. revert h Hd. induction d as [|d IH]; intros h Hd.
    + apply ancestor_parent. exact Hd.
    + rewrite nthParent_shift in Hd.
      destruct (getParent es (Some h)) as [p|] eqn:Hp.
      * apply (ancestor_step es h p a Hp). apply IH. exact Hd.
      * rewrite nthParent_None in Hd. discriminate.
Qed.

Lemma elem_getAllParents_from (fuel : nat) (a h : nat) :
  a ∈ getAllParents_from es fuel (Some h) -> ancestor es a h.
Proof.
  revert h. induction fuel as [|fuel IH]; intros h Hin.
  - cbn in Hin. apply elem_of_nil in Hin. contradiction.
  - cbn [getAllParents_from] in Hin.
    destruct (getParent es (Some h)) as [p|] eqn:Hp.
    + apply elem_of_cons in Hin as [->|Hin].
      * apply ancestor_parent. exact Hp.
      * apply (ancestor_step es h p a Hp). apply IH. exact Hin.
    + apply elem_of_nil in Hin. contradiction.
Qed.

Lemma ancestor_in_getAllParents_from (a h : nat) :
  ancestor es a h ->
  forall fuel : nat, nthParent es fuel (Some h) = None ->
  a ∈ getAllParents_from es fuel (Some h).
Proof.
  induction 1 as [h p Hp|h p a Hp Hanc IH]; intros fuel Hchain.
  - destruct fuel as [|fuel]; [discriminate|].
    rewrite getAllParents_from_S, Hp. apply list_elem_of_here.
  - destruct fuel as [|fuel]; [discriminate|].
    rewrite getAllParents_from_S, Hp. apply list_elem_of_further.
    apply IH. rewrite nthParent_shift, Hp in Hchain. exact Hchain.
Qed.

Lemma elem_getAllParents (a h : nat) :
  wellFormed es -> (h < List.length es)%nat ->
  a ∈ getAllParents es (Some h) <-> ancestor es a h.
Proof.
  intros Hwf Hh. split; [apply elem_getAllParents_from|].
  intros Hanc. apply ancestor_in_getAllParents_from; [exact Hanc|].
  apply wellFormed_chain; assumption.
Qed.

Lemma elem_getChildren (h p : nat) :
  h ∈ getChildren es (Some p) <-> getParent es (Some h) = Some p.
Proof.
  unfold getChildren. rewrite list_elem_of_filter. split; [tauto|].
  intros Hp. split; [exact Hp|].
  unfold getAll. apply list_elem_of_In, in_seq.
  pose proof (getParent_Some_lt h p Hp). lia.
Qed.

Lemma getAllChildren_from_S (fuel : nat) (h : EntityHandle) :
  getAllChildren_from es (S fuel) h
  = getChildren es h
    ++ concat (map (fun i => getAllChildren_from es fuel (Some i))
                 (getChildren es h)).
Proof. reflexivity. Qed.

Lemma ancestor_above (i h p : nat) :
  ancestor es i h -> getParent es (Some i) = Some p -> ancestor es p h.
Proof.
  intros Hanc Hp. induction Hanc as [h i Hi|h q i Hq Hanc IH].
  - apply (ancestor_step es h i p Hi). apply ancestor_parent. exact Hp.
  - apply (ancestor_step es h q p Hq). apply IH. exact Hp.
Qed.

Lemma elem_getAllChildren_from (fuel : nat) (h p : nat) :
  h ∈ getAllChildren_from es fuel (Some p) -> ancestor es p h.
Proof.
  revert p. induction fuel as [|fuel IH]; intros p Hin.
  - cbn in Hin. apply elem_of_nil in Hin. contradiction.
  - rewrite getAllChildren_from_S in Hin.
    apply elem_of_app in Hin as [Hin|Hin].
    + apply ancestor_parent. apply elem_getChildren. exact Hin.
    + apply elem_of_concat_map in Hin as (i & Hi & Hh).
      apply elem_getChildren in Hi.
      apply (ancestor_above i h p); [|exact Hi].
      apply IH. exact Hh.
Qed.

Lemma below_in_getAllChildren_from (d : nat) :
  forall (h p : nat) (fuel : nat),
    nthParent es (S d) (Some h) = Some p -> (d < fuel)%nat ->
    h ∈ getAllChildren_from es fuel (Some p).
Proof.
  induction d as [|d IH]; intros h p fuel Hd Hfuel.
  - destruct fuel as [|fuel]; [lia|].
    rewrite getAllChildren_from_S. apply elem_of_app. left.
    apply elem_getChildren. exact Hd.
  - destruct fuel as [|fuel]; [lia|].
    rewrite getAllChildren_from_S. apply elem_of_app. right.
    change (getParent es (nthParent es (S d) (Some h)) = Some p) in Hd.
    destruct (nthParent es (S d) (Some h)) as [i|] eqn:Hi; [|discriminate].
    apply elem_of_concat_map. exists i. split.
    + apply elem_getChildren. exact Hd.
    + apply IH; [exact Hi|lia].
Qed.

Lemma elem_getAllChildren (h p : nat) :
  wellFormed es ->
  h ∈ getAllChildren es (Some p) <-> ancestor es p h.
Proof.
  intros Hwf. split; [apply elem_getAllChildren_from|].
  intros Hanc. pose proof Hanc as Hanc'.
  apply ancestor_nthParent in Hanc as [d Hd].
  apply (below_in_getAllChildren_from d); [exact Hd|].
  assert (Hh : (h < List.length es)%nat).
  { inversion Hanc' as [? ? Hp|? q ? Hp]; subst;
      eapply getParent_Some_lt; exact Hp. }
  pose proof (wellFormed_chain h Hwf Hh) as Hchain.
  destruct (Nat.lt_ge_cases d (List.length es)) as [Hlt|Hge]; [exact Hlt|].
  exfalso.
  rewrite (nthParent_None_le (List.length es) (S d)) in Hd;
    [discriminate|lia|exact Hchain].
Qed.

(** An entity that has a parent is among the descendants of that parent. *)
Lemma self_in_getAllChildren (f p : nat) :
  getParent es (Some f) = Some p ->
  f ∈ getAllChildren es (getParent es (Some f)).
Proof.
  intros Hp. rewrite Hp. unfold getAllChildren.
  pose proof (getParent_Some_lt f p Hp) as Hf.
  destruct (List.length es) as [|n]; [lia|].
  rewrite getAllChildren_from_S. apply elem_of_app. left.
  apply elem_getChildren. exact Hp.
Qed.

(** The children of a handle, the null handle included: the entities
    whose parent is that handle. *)
Lemma elem_getChildren_handle (h : nat) (q : EntityHandle) :
  h ∈ getChildren es q <->
  getParent es (Some h) = q /\ (h < List.length es)%nat.
Proof.
  unfold getChildren. rewrite list_elem_of_filter. unfold getAll.
  rewrite list_elem_of_In, in_seq. split; intros [H1 H2]; split; auto; lia.
Qed.

Lemma elem_getAllChildren_from_lt (fuel : nat) (h : nat) (q : EntityHandle) :
  h ∈ getAllChildren_from es fuel q -> (h < List.length es)%nat.
Proof.
  revert q. induction fuel as [|fuel IH]; intros q Hin.
  - cbn in Hin. apply elem_of_nil in Hin. contradiction.
  - rewrite getAllChildren_from_S in Hin.
    apply elem_of_app in Hin as [Hin|Hin].
    + apply elem_getChildren_handle in Hin. tauto.
    + apply elem_of_concat_map in Hin as (i & _ & Hh). apply (IH _ Hh).
Qed.

(** An entity whose chain of parents reaches, in [d] steps, a child of
    the handle [q] is among the descendants of [q]. *)
Lemma chain_in_getAllChildren_from (d : nat) :
  forall (h i : nat) (q : EntityHandle) (fuel : nat),
    nthParent es d (Some h) = Some i ->
    getParent es (Some i) = q ->
    (i < List.length es)%nat ->
    (d < fuel)%nat ->
    h ∈ getAllChildren_from es fuel q.
Proof.
  induction d as [|d IH]; intros h i q fuel Hd Hq Hi Hfuel.
  - cbn in Hd. injection Hd as ->.
    destruct fuel as [|fuel]; [lia|].
    rewrite getAllChildren_from_S. apply elem_of_app. left.
    apply elem_getChildren_handle. split; assumption.
  - destruct fuel as [|fuel]; [lia|].
    change (getParent es (nthParent es d (Some h)) = Some i) in Hd.
    destruct (nthParent es d (Some h)) as [j|] eqn:Hj; [|discriminate].
    rewrite getAllChildren_from_S. apply elem_of_app. right.
    apply elem_of_concat_map. exists i. split.
    + apply elem_getChildren_handle. split; assumption.
    + apply (IH h j (Some i) fuel Hj Hd); [|lia].
      apply (getParent_Some_lt j i Hd).
Qed.

(** A chain of parents that ends passes through a root. *)
Lemma root_of_chain (h : nat) (k : nat) :
  nthParent es k (Some h) = None ->
  exists (d i : nat),
    (d < k)%nat /\ nthParent es d (Some h) = Some i /\
    getParent es (Some i) = None.
Proof.
  induction k as [|k IH]; intros Hk; [discriminate|].
  change (getParent es (nthParent es k (Some h)) = None) in Hk.
  destruct (nthParent es k (Some h)) as [i|] eqn:Hi.
  - exists k, i. split; [lia|]. split; [exact Hi|exact Hk].
  - destruct (IH eq_refl) as (d & i & Hd & Hchain & Hroot).
    exists d, i. split; [lia|]. split; assumption.
Qed.

Lemma nthParent_lt (d h i : nat) :
  wellFormed es -> (h < List.length es)%nat ->
  nthParent es d (Some h) = Some i -> (i < List.length es)%nat.
Proof.
  intros Hwf Hh Hd. destruct d as [|d].
  - cbn in Hd. injection Hd as <-. exact Hh.
  - change (getParent es (nthParent es d (Some h)) = Some i) in Hd.
    destruct (nthParent es d (Some h)) as [j|]; [|discriminate].
    apply (wellFormed_parent_lt j i Hwf Hd).
Qed.

(** The descendants of the null handle are all the entities: the roots
    and everything below them. *)
Lemma elem_getAllChildren_None (h : nat) :
  wellFormed es ->
  h ∈ getAllChildren es None <-> (h < List.length es)%nat.
Proof.
  intros Hwf. split; [apply elem_getAllChildren_from_lt|].
  intros Hh.
  destruct (root_of_chain h (List.length es) (wellFormed_chain h Hwf Hh))
    as (d & i & Hd & Hchain & Hroot).
  apply (chain_in_getAllChildren_from d h i None (List.length es) Hchain Hroot);
    [|exact Hd].
  apply (nthParent_lt d h i Hwf Hh Hchain).
Qed.

(** An entity is among the descendants of the handle of its parent. *)
Lemma self_in_getAllChildren_handle (f : nat) :
  (f < List.length es)%nat ->
  f ∈ getAllChildren es (getParent es (Some f)).
Proof.
  intros Hf. unfold getAllChildren.
  apply (chain_in_getAllChildren_from 0 f f); [reflexivity|reflexivity|exact Hf|lia].
Qed.

End HierarchyFacts.

(** *** Texture-load bodies *)

(** C3 (amended).  For every focused entity of a well-formed hierarchy,
    the list of [getTexLoadBodies] holds exactly the entities carrying a
    Model among: the focused entity, its ancestors, and all descendants
    of the handle that [getParent] gives for it.  For an entity that has
    a parent these are the descendants of the parent: the focused entity
    again, its siblings, and everything below them.  For a root the
    handle is the null handle, whose descendants in the model of the
    hierarchy are the roots and everything below them, that is every
    entity.  In both cases the focused entity, when it carries a Model,
    is listed more than once. *)
Theorem getTexLoadBodies_members (es : list Entity) (f : nat) :
  wellFormed es ->
  (f < List.length es)%nat ->
  (forall h : nat,
     h ∈ getTexLoadBodies es f <->
     isBody (getParam es (Some h)) = true /\
     (h = f \/ ancestor es h f \/
      match getParent es (Some f) with
      | Some p => ancestor es p h
      | None => (h < List.length es)%nat
      end)) /\
  (isBody (getParam es (Some f)) = true -> ~ NoDup (getTexLoadBodies es f)).
Proof.
  intros Hwf Hf. split.
  - intros h. unfold getTexLoadBodies.
    rewrite list_elem_of_filter, !elem_of_app, list_elem_of_singleton.
    rewrite (elem_getAllParents es h f Hwf Hf).
    destruct (getParent es (Some f)) as [p|].
    + rewrite (elem_getAllChildren es h p Hwf). tauto.
    + rewrite (elem_getAllChildren_None es h Hwf). tauto.
  - intros Hbody Hnodup. unfold getTexLoadBodies in Hnodup.
    rewrite <- app_assoc in Hnodup. cbn [app] in Hnodup.
    rewrite filter_cons_True in Hnodup by exact Hbody.
    apply NoDup_cons in Hnodup as [Hnotin _]. apply Hnotin.
    apply list_elem_of_filter. split; [exact Hbody|].
    apply elem_of_app. right. apply (self_in_getAllChildren_handle es f Hf).
Qed.

Lemma sample_wellFormed : wellFormed Sample.system.
Proof.
  split; unfold getAll; cbn [List.length Sample.system seq];
    repeat (apply Forall_cons; split; [cbn; try lia; reflexivity|]);
    apply Forall_nil_2.
Qed.

Example getTexLoadBodies_mars :
  getTexLoadBodies Sample.system 2 = [2; 0; 1; 2; 3; 4]%nat.
Proof. reflexivity. Qed.

(** The Sun, a root: itself, then every entity. *)
Example getTexLoadBodies_sun :
  getTexLoadBodies Sample.system 0 = [0; 0; 1; 2; 3; 4]%nat.
Proof. reflexivity. Qed.

(** The theorem at Mars, whose parent is the Sun. *)
Lemma getTexLoadBodies_members_witness :
  (forall h : nat,
     h ∈ getTexLoadBodies Sample.system 2 <->
     isBody (getParam Sample.system (Some h)) = true /\
     (h = 2%nat \/ ancestor Sample.system h 2 \/
      match getParent Sample.system (Some 2%nat) with
      | Some p => ancestor Sample.system p h
      | None => (h < List.length Sample.system)%nat
      end)) /\
  (isBody (getParam Sample.system (Some 2%nat)) = true ->
   ~ NoDup (getTexLoadBodies Sample.system 2)).
Proof.
  apply (getTexLoadBodies_members Sample.system 2).
  - exact sample_wellFormed.
  - cbn. lia.
Defined.

(** C3 as the specification words it fails for Mars, a leaf with one
    parent and two siblings: the list is Mars, Sun, Earth, Mars, Venus,
    Moon, in which Mars is listed twice (and the Moon, a child of a
    sibling, is listed). *)
Lemma getTexLoadBodies_duplicates :
  ~ texLoadClaim Sample.system 2 (getTexLoadBodies Sample.system 2).
Proof.
  rewrite getTexLoadBodies_mars. intros [Hnodup _].
  apply NoDup_cons in Hnodup as [Hnotin _]. apply Hnotin.
  do 2 apply list_elem_of_further. apply list_elem_of_here.
Qed.

(** *** Entity state update *)

Lemma vec3_eq (a b : vec3) :
  x3 a = x3 b -> y3 a = y3 b -> z3 a = z3 b -> a = b.
Proof. destruct a, b; cbn; intros -> -> ->; reflexivity. Qed.

Lemma add_assoc (a b c : vec3) : add (add a b) c = add a (add b c).
Proof. apply vec3_eq; cbn; lra. Qed.

Lemma add_comm (a b : vec3) : add a b = add b a.
Proof. apply vec3_eq; cbn; lra. Qed.

Lemma add_zero_r (a : vec3) : add a zero3 = a.
Proof. apply vec3_eq; cbn; lra. Qed.

Lemma foldl_add_vsum {A : Type} (f : A -> vec3) (l : list A) (acc : vec3) :
  foldl (fun a p => add a (f p)) acc l = add acc (vsum (map f l)).
Proof.
  revert acc. induction l as [|p l IH]; intros acc; cbn [foldl map vsum foldr].
  - rewrite add_zero_r. reflexivity.
  - rewrite IH. apply add_assoc.
Qed.

Lemma foldl_insert_lookup {V : Type} (f : nat -> V) (l : list nat)
    (m0 : gmap nat V) (k : nat) :
  foldl (fun m h => <[h := f h]> m) m0 l !! k
  = if decide (k ∈ l) then Some (f k) else m0 !! k.
Proof.
  revert m0. induction l as [|a l IH]; intros m0; cbn [foldl].
  - rewrite decide_False by apply not_elem_of_nil. reflexivity.
  - rewrite IH. destruct (decide (k ∈ l)) as [Hin|Hnotin].
    + rewrite decide_True by (apply list_elem_of_further, Hin). reflexivity.
    + destruct (decide (k = a)) as [->|Hne].
      * rewrite decide_True by apply list_elem_of_here.
        apply lookup_insert_eq.
      * rewrite decide_False
          by (intros H; apply elem_of_cons in H as [?|?]; contradiction).
        apply lookup_insert_ne. congruence.
Qed.

Lemma elem_getAll (es : list Entity) (h : nat) :
  h ∈ getAll es <-> (h < List.length es)%nat.
Proof. unfold getAll. rewrite list_elem_of_In, in_seq. lia. Qed.

Section EntityUpdateFacts.

Variable computePosition : Orbit -> R -> vec3.
Variable es : list Entity.
Variable epoch' : R.

Local Abbreviation rel := (relativePosition computePosition es epoch').
Local Abbreviation rels := (relativePositions computePosition es epoch').
Local Abbreviation resolved := (resolvedState computePosition es epoch').

Lemma relativeAt_relativePositions (h : nat) :
  (h < List.length es)%nat -> relativeAt rels h = rel h.
Proof.
  intros Hh. unfold relativeAt, relativePositions.
  rewrite foldl_insert_lookup, decide_True by (apply elem_getAll, Hh).
  reflexivity.
Qed.

Lemma absLoop_chain (m : gmap nat vec3) (fuel : nat) :
  forall (acc : vec3) (h : nat),
    nthParent es (S fuel) (Some h) = None ->
    absLoop es fuel m acc (getParent es (Some h))
    = Some (foldl (fun a p => add a (relativeAt m p)) acc
              (getAllParents_from es fuel (Some h))).
Proof.
  induction fuel as [|fuel IH]; intros acc h Hchain.
  - change (getParent es (Some h) = None) in Hchain.
    rewrite Hchain. reflexivity.
  - rewrite nthParent_shift in Hchain. rewrite getAllParents_from_S.
    destruct (getParent es (Some h)) as [p|] eqn:Hp; [|reflexivity].
    cbn [absLoop foldl]. apply IH. exact Hchain.
Qed.

Lemma getAllParents_from_lt (fuel : nat) (h : nat) :
  wellFormed es ->
  Forall (fun p => (p < List.length es)%nat) (getAllParents_from es fuel (Some h)).
Proof.
  intros Hwf. revert h. induction fuel as [|fuel IH]; intros h.
  - apply Forall_nil_2.
  - rewrite getAllParents_from_S.
    destruct (getParent es (Some h)) as [p|] eqn:Hp; [|apply Forall_nil_2].
    apply Forall_cons. split; [|apply IH].
    apply (wellFormed_parent_lt es h p Hwf Hp).
Qed.

Lemma entityState_resolved (h : nat) :
  wellFormed es -> (h < List.length es)%nat ->
  entityState es epoch' rels h = Some (resolved h).
Proof.
  intros Hwf Hh. unfold entityState.
  rewrite absLoop_chain
    by (cbn; rewrite (wellFormed_chain es h Hwf Hh); reflexivity).
  unfold resolvedState. f_equal. f_equal.
  rewrite foldl_add_vsum, relativeAt_relativePositions by exact Hh.
  f_equal. f_equal. apply map_ext_in. intros p Hp.
  apply relativeAt_relativePositions.
  pose proof (getAllParents_from_lt (List.length es) h Hwf) as Hlt.
  rewrite Forall_forall in Hlt. apply Hlt, list_elem_of_In, Hp.
Qed.

Lemma stateLoop_resolved (hs : list nat) (st : gmap nat EntityState) :
  wellFormed es ->
  Forall (fun h => (h < List.length es)%nat) hs ->
  stateLoop es epoch' rels hs st
  = Some (foldl (fun m h => <[h := resolved h]> m) st hs).
Proof.
  intros Hwf. revert st. induction hs as [|h hs IH]; intros st Hhs.
  - reflexivity.
  - apply Forall_cons in Hhs as [Hh Hhs].
    cbn [stateLoop foldl]. rewrite entityState_resolved by assumption.
    apply IH. exact Hhs.
Qed.

Lemma entityStateUpdate_resolved :
  wellFormed es ->
  exists st : gmap nat EntityState,
    entityStateUpdate computePosition es epoch' = Some st /\
    forall h : nat, (h < List.length es)%nat -> st !! h = Some (resolved h).
Proof.
  intros Hwf. unfold entityStateUpdate.
  rewrite stateLoop_resolved;
    [|exact Hwf|apply Forall_forall; intros h Hh; apply elem_getAll, Hh].
  eexists. split; [reflexivity|].
  intros h Hh. rewrite foldl_insert_lookup.
  rewrite decide_True by (apply elem_getAll, Hh). reflexivity.
Qed.

End EntityUpdateFacts.

(** C8 (amended).  In a well-formed hierarchy the entity state update
    returns, and in its result: the relative position of an entity is the
    position of the Orbit Model when the entity has a parent and an orbit,
    and the zero vector otherwise; the absolute position is the relative
    position plus the sum of the relative positions of all ancestors; and
    the absolute position of an entity that has a parent is the absolute
    position of the parent plus its own relative position (so, in
    root, A, B, that of B is that of A plus the relative position of B,
    at every epoch). *)
Theorem update_positions (computePosition : Orbit -> R -> vec3)
    (es : list Entity) (epoch' : R) :
  wellFormed es ->
  exists st : gmap nat EntityState,
    entityStateUpdate computePosition es epoch' = Some st /\
    forall h : nat, (h < List.length es)%nat ->
      exists s : EntityState,
        st !! h = Some s /\
        relativePosition computePosition es epoch' h
        = (if exists_ (getParent es (Some h)) && hasOrbit (getParam es (Some h))
           then computePosition (getOrbit (getParam es (Some h))) epoch'
           else zero3) /\
        getPosition s
        = add (relativePosition computePosition es epoch' h)
            (vsum (map (relativePosition computePosition es epoch')
                     (getAllParents es (Some h)))) /\
        forall p : nat, getParent es (Some h) = Some p ->
          exists sp : EntityState,
            st !! p = Some sp /\
            getPosition s
            = add (getPosition sp) (relativePosition computePosition es epoch' h).
Proof.
  intros Hwf.
  destruct (entityStateUpdate_resolved computePosition es epoch' Hwf)
    as (st & Hst & Hlookup).
  exists st. split; [exact Hst|]. intros h Hh.
  exists (resolvedState computePosition es epoch' h).
  split; [apply Hlookup, Hh|]. split; [|split].
  - unfold relativePosition.
    destruct (exists_ (getParent es (Some h))),
      (hasOrbit (getParam es (Some h))); reflexivity.
  - reflexivity.
  - intros p Hp. exists (resolvedState computePosition es epoch' p).
    split; [apply Hlookup, (wellFormed_parent_lt es h p Hwf Hp)|].
    unfold resolvedState. cbn [getPosition].
    rewrite (getAllParents_parent es h p Hwf Hp). cbn [map vsum foldr].
    fold (vsum (map (relativePosition computePosition es epoch')
                  (getAllParents es (Some p)))).
    rewrite (add_comm (add _ _) (relativePosition computePosition es epoch' h)).
    reflexivity.
Qed.

(** The theorem for the sample system at epoch 50. *)
Lemma update_positions_witness :
  exists st : gmap nat EntityState,
    entityStateUpdate Sample.circularPosition Sample.system 50 = Some st /\
    forall h : nat, (h < List.length Sample.system)%nat ->
      exists s : EntityState,
        st !! h = Some s /\
        relativePosition Sample.circularPosition Sample.system 50 h
        = (if exists_ (getParent Sample.system (Some h))
              && hasOrbit (getParam Sample.system (Some h))
           then Sample.circularPosition
                  (getOrbit (getParam Sample.system (Some h))) 50
           else zero3) /\
        getPosition s
        = add (relativePosition Sample.circularPosition Sample.system 50 h)
            (vsum (map (relativePosition Sample.circularPosition Sample.system 50)
                     (getAllParents Sample.system (Some h)))) /\
        forall p : nat, getParent Sample.system (Some h) = Some p ->
          exists sp : EntityState,
            st !! p = Some sp /\
            getPosition s
            = add (getPosition sp)
                (relativePosition Sample.circularPosition Sample.system 50 h).
Proof.
  apply (update_positions Sample.circularPosition Sample.system 50).
  exact sample_wellFormed.
Defined.

(** C8 as the specification words it fails for a root that carries an
    orbit: its relative position is the zero vector, not the position of
    the Orbit Model, which at epoch 0 is (1, 0, 0) here. *)
Lemma root_orbit_ignored :
  relativePosition Sample.circularPosition [Sample.orbitingRoot] 0 0 = zero3 /\
  relativePosition Sample.circularPosition [Sample.orbitingRoot] 0 0
  <> claimedRelativePosition Sample.circularPosition [Sample.orbitingRoot] 0 0.
Proof.
  split; [reflexivity|].
  unfold relativePosition, claimedRelativePosition. cbn.
  intros Heq. apply (f_equal x3) in Heq. cbn in Heq.
  replace (2 * PI * 0 / 1) with 0 in Heq by lra.
  rewrite cos_0 in Heq. lra.
Qed.

Lemma fmod_minus_half : fmod (- 50 / 100) 1 = - (1 / 2).
Proof.
  unfold fmod, Rtrunc. rewrite decide_False by lra.
  replace (- (- 50 / 100 / 1)) with (1 / 2) by lra.
  rewrite <- (Int_part_spec (1 / 2) 0) by (cbn; lra). cbn. lra.
Qed.

(** C1, the code at an entity with a cloud layer.  For the Earth of the
    sample system, whose clouds have period 100, the state computed at
    epoch 50 has cloud displacement 0, where the claim gives the negated
    fractional part of 50/100, which is -1/2; and the code gives 0 for
    every entity that has a cloud layer, at every epoch. *)
Theorem cloudDisp_with_clouds (computePosition : Orbit -> R -> vec3) :
  (exists (st : gmap nat EntityState) (s : EntityState),
     entityStateUpdate computePosition Sample.system 50 = Some st /\
     st !! 1%nat = Some s /\
     getCloudDisp s = 0 /\
     claimedCloudDisp 50 (getParam Sample.system (Some 1%nat)) = - (1 / 2)) /\
  (forall (epoch' : R) (p : EntityParam),
     hasClouds p = true -> cloudDisp epoch' p = 0).
Proof.
  split.
  - destruct (entityStateUpdate_resolved computePosition Sample.system 50
                sample_wellFormed) as (st & Hst & Hlookup).
    exists st, (resolvedState computePosition Sample.system 50 1).
    split; [exact Hst|]. split; [apply Hlookup; cbn; lia|].
    split; [reflexivity|].
    unfold claimedCloudDisp. cbn.
    rewrite bool_decide_eq_false_2 by lra. apply fmod_minus_half.
  - intros epoch' p Hclouds. unfold cloudDisp. rewrite Hclouds. reflexivity.
Qed.

(** *** Geometry of the ray test *)

Lemma dot_nonneg (v : vec3) : 0 <= dot v v.
Proof. unfold dot. nra. Qed.

Lemma dot_pos (v : vec3) : v <> zero3 -> 0 < dot v v.
Proof.
  intros Hv. destruct (Rle_lt_or_eq_dec 0 (dot v v) (dot_nonneg v)) as [H|H];
    [exact H|].
  exfalso. apply Hv. unfold dot in H. apply vec3_eq; cbn; nra.
Qed.

Lemma length_of_square (v : vec3) (r : R) :
  0 <= r -> dot v v = r * r -> Glm.length v = r.
Proof. intros Hr Hd. unfold Glm.length. rewrite Hd. apply sqrt_square, Hr. Qed.

Lemma normalize_of_square (v : vec3) (r : R) :
  0 <= r -> dot v v = r * r -> normalize v = scale (/ r) v.
Proof.
  intros Hr Hd. unfold normalize. rewrite Hd, sqrt_square by exact Hr.
  reflexivity.
Qed.

Lemma normalize_unit (v : vec3) :
  v <> zero3 -> dot (normalize v) (normalize v) = 1.
Proof.
  intros Hv. pose proof (dot_pos v Hv) as Hpos.
  pose proof (sqrt_lt_R0 _ Hpos) as Hs. pose proof (sqrt_def _ (Rlt_le _ _ Hpos)) as Hsq.
  unfold normalize, dot in *. cbn [scale x3 y3 z3].
  set (s := sqrt _) in *.
  replace (/ s * x3 v * (/ s * x3 v) + / s * y3 v * (/ s * y3 v)
           + / s * z3 v * (/ s * z3 v))
    with ((x3 v * x3 v + y3 v * y3 v + z3 v * z3 v) / (s * s)) by (field; lra).
  rewrite Hsq. field. lra.
Qed.

Lemma length_le (a b : vec3) : dot a a <= dot b b -> Glm.length a <= Glm.length b.
Proof. intros H. unfold Glm.length. apply sqrt_le_1_alt, H. Qed.

(** On a line with a unit direction, the point at parameter [- dot o d]
    is the nearest to the origin. *)
Lemma linePoint_closest (o d : vec3) (t : R) :
  dot d d = 1 ->
  Glm.length (linePoint o d (- dot o d)) <= Glm.length (linePoint o d t).
Proof.
  intros Hd. apply length_le. destruct o as [ox oy oz], d as [dx dy dz].
  unfold linePoint, dot in *. cbn [add scale x3 y3 z3] in *.
  set (b := ox * dx + oy * dy + oz * dz).
  match goal with
  | |- ?l <= ?r =>
      replace l with ((ox * ox + oy * oy + oz * oz) - 2 * b * b
                      + b * b * (dx * dx + dy * dy + dz * dz))
        by (unfold b; ring);
      replace r with ((ox * ox + oy * oy + oz * oz) + 2 * t * b
                      + t * t * (dx * dx + dy * dy + dz * dz))
        by (unfold b; ring)
  end.
  rewrite Hd. pose proof (Rle_0_sqr (t + b)) as Hsq. unfold Rsqr in Hsq. lra.
Qed.

Lemma sub_zero_eq (a b : vec3) : sub a b = zero3 -> a = b.
Proof.
  intros Hz. pose proof (f_equal x3 Hz) as Hx. pose proof (f_equal y3 Hz) as Hy.
  pose proof (f_equal z3 Hz) as Hzz. cbn in Hx, Hy, Hzz.
  apply vec3_eq; lra.
Qed.

Lemma closestPoint_linePoint (o d : vec3) (b : R) :
  sub o (scale b d) = linePoint o d (- b).
Proof. apply vec3_eq; cbn; lra. Qed.

Lemma length_pos (v : vec3) : v <> zero3 -> 0 < Glm.length v.
Proof. intros Hv. unfold Glm.length. apply sqrt_lt_R0, dot_pos, Hv. Qed.

Lemma sub_ne_zero (a b : vec3) : a <> b -> sub a b <> zero3.
Proof. intros Hne Hz. apply Hne, sub_zero_eq, Hz. Qed.

Lemma sin_cos_square (x : R) : sin x * sin x + cos x * cos x = 1.
Proof. pose proof (sin2_cos2 x) as H. unfold Rsqr in H. exact H. Qed.

Lemma polarToCartesian_unit (p : vec2) :
  dot (polarToCartesian p) (polarToCartesian p) = 1.
Proof.
  unfold polarToCartesian, dot. cbn [x3 y3 z3].
  pose proof (sin_cos_square (x2 p)) as Hx. pose proof (sin_cos_square (y2 p)) as Hy.
  replace (cos (x2 p) * cos (y2 p) * (cos (x2 p) * cos (y2 p))
           + sin (x2 p) * cos (y2 p) * (sin (x2 p) * cos (y2 p))
           + sin (y2 p) * sin (y2 p))
    with ((sin (x2 p) * sin (x2 p) + cos (x2 p) * cos (x2 p))
          * (cos (y2 p) * cos (y2 p)) + sin (y2 p) * sin (y2 p)) by ring.
  rewrite Hx. lra.
Qed.

Lemma sqrt_one_plus_square (x y r : R) :
  0 < x -> 0 < r -> r * r = x * x + y * y ->
  sqrt (1 + (y / x)²) = r / x.
Proof.
  intros Hx Hr Hsq. apply sqrt_lem_1.
  - unfold Rsqr. nra.
  - apply Rlt_le, Rdiv_lt_0_compat; assumption.
  - unfold Rsqr. field_simplify_eq; [|lra]. nra.
Qed.

Lemma atan2_cos_sin (y x : R) :
  0 < sqrt (x * x + y * y) ->
  cos (atan2 y x) = x / sqrt (x * x + y * y) /\
  sin (atan2 y x) = y / sqrt (x * x + y * y).
Proof.
  intros Hr. set (r := sqrt (x * x + y * y)) in *.
  assert (Hsq : r * r = x * x + y * y) by (apply sqrt_def; nra).
  unfold atan2. destruct (decide (0 < x)) as [Hx|Hx].
  - rewrite cos_atan, sin_atan, (sqrt_one_plus_square x y r Hx Hr Hsq).
    split; field; lra.
  - destruct (decide (x < 0)) as [Hx'|Hx'].
    + assert (Hroot : sqrt (1 + (y / x)²) = r / - x).
      { replace (y / x) with (- y / - x) by (field; lra).
        apply sqrt_one_plus_square; [lra|exact Hr|nra]. }
      destruct (decide (0 <= y)).
      * rewrite neg_cos, neg_sin, cos_atan, sin_atan, Hroot. split; field; lra.
      * rewrite cos_minus, sin_minus, cos_PI, sin_PI, cos_atan, sin_atan, Hroot.
        split; field; lra.
    + assert (Hx0 : x = 0) by lra. subst x.
      destruct (decide (0 < y)) as [Hy|Hy].
      * assert (Hry : r = y) by (apply sqrt_lem_1; nra).
        rewrite cos_PI2, sin_PI2, Hry. split; field; lra.
      * destruct (decide (y < 0)) as [Hy'|Hy'].
        -- assert (Hry : r = - y) by (apply sqrt_lem_1; nra).
           rewrite cos_neg, sin_neg, cos_PI2, sin_PI2, Hry. split; field; lra.
        -- exfalso. assert (y = 0) by lra. subst y.
           unfold r in Hr. replace (0 * 0 + 0 * 0) with 0 in Hr by lra.
           rewrite sqrt_0 in Hr. lra.
Qed.

Lemma polar_of_unit (u : vec3) :
  dot u u = 1 ->
  polarToCartesian (Vec2 (atan2 (y3 u) (x3 u)) (asin (z3 u))) = u.
Proof.
  destruct u as [x y z]. unfold dot, polarToCartesian. cbn [x2 y2 x3 y3 z3].
  intros Hunit.
  assert (Hz : -1 <= z <= 1) by nra.
  rewrite (sin_asin z Hz), (cos_asin z Hz).
  replace (1 - z²) with (x * x + y * y) by (unfold Rsqr; lra).
  destruct (Rle_lt_or_eq_dec 0 (sqrt (x * x + y * y)) (sqrt_pos _)) as [Hr|Hr].
  - destruct (atan2_cos_sin y x Hr) as [Hc Hs]. rewrite Hc, Hs.
    f_equal; field; lra.
  - rewrite <- Hr. symmetry in Hr. apply sqrt_eq_0 in Hr; [|nra].
    assert (x = 0) by nra. assert (y = 0) by nra. subst x y.
    f_equal; lra.
Qed.

(** The two outcomes of the ray test, by the position of the closest
    point and its distance. *)
Lemma rayTest_cases (vp rvp target : vec3) (radius : R) :
  let dir := normalize (sub target rvp) in
  let tc := - dot rvp dir in
  let closestDist := Glm.length (linePoint rvp dir tc) in
  (0 < tc /\ closestDist < radius * 1.1 ->
   rayTest vp rvp target radius
   = shiftedPolar vp rvp target (linePoint rvp dir tc) closestDist (radius * 1.1))
  /\ (tc <= 0 \/ radius * 1.1 <= closestDist -> rayTest vp rvp target radius = vp).
Proof.
  intros dir tc closestDist. subst closestDist tc. unfold rayTest. fold dir.
  cbv zeta. rewrite closestPoint_linePoint. split.
  - intros [Htc Hdist].
    rewrite decide_True by lra. rewrite decide_True by exact Hdist. reflexivity.
  - intros [Htc|Hdist].
    + rewrite decide_False by lra. reflexivity.
    + case_decide; [|reflexivity]. rewrite decide_False by lra. reflexivity.
Qed.

(** The state after the frame that triggers a switch: the target is the
    ray test of that frame, with the radius of the body that was focused
    before the switch. *)
Lemma switch_rayTest (win : Window) (dt : R) (g : Game) :
  switchPhase g = IDLE ->
  glfwGetKey win GLFW_KEY_TAB = true ->
  held (keysHeld g) GLFW_KEY_TAB = false ->
  let g' := updateCamera win dt g in
  switchNewViewPolar g'
  = rayTest (viewPolar g') (relativeViewPos (viewPolar g'))
      (sub (positionOf g' (getFocusedBody g')) (positionOf g' (getPreviousBody g')))
      (radiusOf g (getFocusedBody g))
  /\ getPreviousBody g' = getFocusedBody g
  /\ radiusOf g' (getPreviousBody g') = radiusOf g (getFocusedBody g).
Proof.
  intros Hidle Hdown Hheld g'. subst g'. unfold updateCamera. rewrite Hidle.
  pose proof (idleTabCheck_edge win g) as Hedge.
  rewrite Hdown, Hheld in Hedge. cbn [andb negb] in Hedge.
  unfold getPreviousBody, getFocusedBody, radiusOf, positionOf, updateIdle.
  cbn [switchNewViewPolar viewPolar focusedBodyId switchPreviousBodyId
       entityCollection].
  rewrite Hedge. repeat split; reflexivity.
Qed.

(** *** The geometry of the shift *)

Lemma dot_sub_scale (a v w : vec3) (k : R) :
  dot (sub a (scale k v)) w = dot a w - k * dot v w.
Proof. unfold dot, sub, scale. cbn [x3 y3 z3]. ring. Qed.

Lemma dot_add_scale (a v w : vec3) (k : R) :
  dot (add a (scale k v)) w = dot a w + k * dot v w.
Proof. unfold dot, add, scale. cbn [x3 y3 z3]. ring. Qed.

Lemma dot_scale_l (v w : vec3) (k : R) : dot (scale k v) w = k * dot v w.
Proof. unfold dot, scale. cbn [x3 y3 z3]. ring. Qed.

Lemma dot_comm (v w : vec3) : dot v w = dot w v.
Proof. unfold dot. ring. Qed.

Lemma scale_length_normalize (v : vec3) :
  v <> zero3 -> scale (Glm.length v) (normalize v) = v.
Proof.
  intros Hv. pose proof (length_pos v Hv) as Hlen.
  unfold normalize. fold (Glm.length v).
  apply vec3_eq; unfold scale; cbn [x3 y3 z3]; field; lra.
Qed.

Lemma relativeViewPos_length (vp : vec3) :
  Glm.length (relativeViewPos vp) = Rabs (z3 vp).
Proof.
  unfold Glm.length, relativeViewPos. rewrite dot_scale_l, dot_comm, dot_scale_l.
  rewrite polarToCartesian_unit.
  replace (z3 vp * (z3 vp * 1)) with (z3 vp)² by (unfold Rsqr; ring).
  apply sqrt_Rsqr_abs.
Qed.

(** The line of sight from [C] toward [T], the closest point [P] of that
    line to the origin, and the unit vector [u] from the origin toward
    [P]: [u] is perpendicular to the line, [C] is at height [|P|] along
    [u], and [T] is not the point of [u] at distance [limit] when [P] is
    nearer than [limit]. *)
Lemma closest_point_geometry (C T : vec3) (limit : R) :
  T <> C ->
  sub C (scale (dot C (normalize (sub T C))) (normalize (sub T C))) <> zero3 ->
  Glm.length (sub C (scale (dot C (normalize (sub T C))) (normalize (sub T C))))
  < limit ->
  let dir := normalize (sub T C) in
  let P := sub C (scale (dot C dir) dir) in
  let u := normalize P in
  dot u dir = 0 /\ dot u u = 1 /\ dot C u = Glm.length P /\
  0 < Glm.length (sub T C) /\ 0 < Glm.length (sub T (scale limit u)).
Proof.
  intros Hne HP Hnear dir P u.
  assert (Hdir : dot dir dir = 1) by (apply normalize_unit, sub_ne_zero, Hne).
  assert (HPdir : dot P dir = 0).
  { unfold P. rewrite dot_sub_scale, Hdir. ring. }
  pose proof (length_pos P HP) as HlenP.
  assert (HPP : dot P P = Glm.length P * Glm.length P).
  { unfold Glm.length. rewrite sqrt_def; [reflexivity|apply dot_nonneg]. }
  assert (Hu : u = scale (/ Glm.length P) P) by reflexivity.
  assert (Hudir : dot u dir = 0).
  { rewrite Hu, dot_scale_l, HPdir. ring. }
  assert (Huu : dot u u = 1) by (apply normalize_unit, HP).
  assert (HCP : dot C P = dot P P).
  { unfold P at 2. rewrite dot_sub_scale.
    rewrite (dot_comm dir P), HPdir. ring. }
  assert (HCu : dot C u = Glm.length P).
  { rewrite Hu, dot_comm, dot_scale_l, (dot_comm P C), HCP, HPP. field. lra. }
  pose proof (length_pos _ (sub_ne_zero T C Hne)) as HL.
  split; [exact Hudir|]. split; [exact Huu|]. split; [exact HCu|].
  split; [exact HL|].
  apply length_pos. intros Hzero.
  assert (HT : sub T C = scale (Glm.length (sub T C)) dir)
    by (symmetry; apply scale_length_normalize, sub_ne_zero, Hne).
  assert (HTu : dot T u = Glm.length P).
  { replace T with (add C (scale (Glm.length (sub T C)) dir)).
    - rewrite dot_add_scale, (dot_comm dir u), Hudir, HCu. ring.
    - rewrite <- HT. apply vec3_eq; unfold add, sub; cbn [x3 y3 z3]; lra. }
  pose proof (f_equal (fun v => dot v u) Hzero) as Hdot. cbn beta in Hdot.
  rewrite dot_sub_scale, HTu, Huu in Hdot.
  change (Glm.length P < limit) in Hnear.
  unfold dot at 1, zero3 in Hdot. cbn [x3 y3 z3] in Hdot. lra.
Qed.

(** The shifted target: its position is the camera position [C] moved
    by [s] along the unit vector [u], it is farther from the origin than
    [C], and its polar distance exceeds that of the view. *)
Lemma shiftedPolar_geometry (vp T P : vec3) (closestDist limit : R) :
  dot (normalize P) (normalize P) = 1 ->
  0 <= dot (relativeViewPos vp) (normalize P) ->
  0 < Glm.length (sub T (relativeViewPos vp)) * (limit - closestDist)
      / Glm.length (sub T (scale limit (normalize P))) ->
  let C := relativeViewPos vp in
  let u := normalize P in
  let s := Glm.length (sub T C) * (limit - closestDist)
           / Glm.length (sub T (scale limit u)) in
  relativeViewPos (shiftedPolar vp C T P closestDist limit) = add C (scale s u) /\
  z3 (shiftedPolar vp C T P closestDist limit) = Glm.length (add C (scale s u)) /\
  Glm.length C < z3 (shiftedPolar vp C T P closestDist limit) /\
  shiftedPolar vp C T P closestDist limit <> vp.
Proof.
  intros Huu HCu Hs C u s. fold C u s in Hs. fold u in Huu. fold C u in HCu.
  set (N := add C (scale s u)).
  assert (HNN : dot N N = dot C C + 2 * s * dot C u + s * s).
  { unfold N. rewrite dot_add_scale, dot_comm, dot_add_scale.
    rewrite (dot_comm u C), (dot_comm u (add C (scale s u))), dot_add_scale, Huu.
    ring. }
  assert (Hgrow : dot C C < dot N N).
  { rewrite HNN. assert (0 < s * s) by (apply Rmult_lt_0_compat; exact Hs).
    assert (0 <= s * dot C u) by (apply Rmult_le_pos; lra). lra. }
  assert (HN : N <> zero3).
  { intros Hz. rewrite Hz in Hgrow. pose proof (dot_nonneg C).
    unfold dot at 2, zero3 in Hgrow. cbn [x3 y3 z3] in Hgrow. lra. }
  assert (Hpolar : shiftedPolar vp C T P closestDist limit
                   = Vec3 (atan2 (y3 (normalize N)) (x3 (normalize N)))
                          (asin (z3 (normalize N))) (Glm.length N)).
  { unfold shiftedPolar. cbv zeta. fold u. fold s.
    change (scale (z3 vp) (polarToCartesian (xy vp))) with C. fold N.
    unfold neg. cbn [x3 y3 z3]. rewrite !Ropp_involutive. reflexivity. }
  assert (Hlen : Glm.length C < Glm.length N).
  { unfold Glm.length. apply sqrt_lt_1_alt. split; [apply dot_nonneg|exact Hgrow]. }
  rewrite Hpolar. cbn [z3].
  split; [|split; [reflexivity|split; [exact Hlen|]]].
  - unfold relativeViewPos at 1, xy. cbn [x3 y3 z3].
    rewrite (polar_of_unit (normalize N)) by (apply normalize_unit, HN).
    apply scale_length_normalize, HN.
  - intros Heq. apply (f_equal z3) in Heq. cbn [z3] in Heq.
    unfold C in Hlen. rewrite relativeViewPos_length, Heq in Hlen.
    pose proof (Rle_abs (z3 vp)). lra.
Qed.

(** C2 (amended).  In the frame that triggers a focus switch from IDLE,
    take the line of sight from the camera toward the new focused body,
    its point P closest to the centre of the body that was focused before
    the switch (the nearest point of the whole line), and the limit 1.1
    times the radius of that body.  When P is behind the camera or at
    least that far, the target polar coordinates are the view polar
    coordinates, unchanged.  When P is in front of the camera and nearer
    than the limit, and the line does not pass through the centre (P is
    not the centre, where the code normalizes a zero vector), the target
    is shifted laterally: with u the unit vector from the centre toward
    P, which is perpendicular to the line of sight, the target is the
    polar form of the camera position moved along u by the amount
    s = |target - camera| (limit - |P|) / |target - limit u| that the
    code takes from Thales' theorem; s is positive, the target is farther
    from the centre than the camera, and it differs from the view polar
    coordinates. *)
Theorem switch_target_polar (win : Window) (dt : R) (g : Game) :
  switchPhase g = IDLE ->
  glfwGetKey win GLFW_KEY_TAB = true ->
  held (keysHeld g) GLFW_KEY_TAB = false ->
  sub (positionOf (updateCamera win dt g) (getFocusedBody (updateCamera win dt g)))
      (positionOf (updateCamera win dt g) (getPreviousBody (updateCamera win dt g)))
  <> relativeViewPos (viewPolar (updateCamera win dt g)) ->
  getPreviousBody (updateCamera win dt g) = getFocusedBody g /\
  let g' := updateCamera win dt g in
  let C := relativeViewPos (viewPolar g') in
  let T := sub (positionOf g' (getFocusedBody g'))
               (positionOf g' (getPreviousBody g')) in
  let dir := normalize (sub T C) in
  let tc := - dot C dir in
  let P := linePoint C dir tc in
  let limit := radiusOf g (getFocusedBody g) * 1.1 in
  (forall t : R, Glm.length P <= Glm.length (linePoint C dir t)) /\
  (tc <= 0 \/ limit <= Glm.length P -> switchNewViewPolar g' = viewPolar g') /\
  (0 < tc -> Glm.length P < limit -> P <> zero3 ->
   let u := normalize P in
   let s := Glm.length (sub T C) * (limit - Glm.length P)
            / Glm.length (sub T (scale limit u)) in
   dot u dir = 0 /\ dot u u = 1 /\ 0 < s /\
   relativeViewPos (switchNewViewPolar g') = add C (scale s u) /\
   z3 (switchNewViewPolar g') = Glm.length (add C (scale s u)) /\
   Glm.length C < z3 (switchNewViewPolar g') /\
   switchNewViewPolar g' <> viewPolar g').
Proof.
  intros Hidle Hdown Hheld Hne.
  destruct (switch_rayTest win dt g Hidle Hdown Hheld) as (Hray & Hprev & Hrad).
  cbv zeta in Hray, Hprev, Hrad. split; [exact Hprev|].
  intros g' C T dir tc P limit. fold g' in Hray, Hprev, Hrad, Hne.
  fold C in Hray, Hne. fold T in Hray, Hne.
  destruct (rayTest_cases (viewPolar g') C T (radiusOf g (getFocusedBody g)))
    as [Hshift Hsame].
  cbv zeta in Hshift, Hsame. fold dir in Hshift, Hsame.
  fold tc in Hshift, Hsame. fold P in Hshift, Hsame. fold limit in Hshift, Hsame.
  rewrite <- Hray in Hshift, Hsame.
  split; [|split; [exact Hsame|]].
  - intros t. apply linePoint_closest.
    apply normalize_unit, sub_ne_zero, Hne.
  - intros Htc Hnear HP u s.
    assert (HPeq : P = sub C (scale (dot C dir) dir)).
    { unfold P, tc. symmetry. apply closestPoint_linePoint. }
    destruct (closest_point_geometry C T limit Hne) as (Hud & Huu & HCu & HL & HQ).
    { fold dir. rewrite <- HPeq. exact HP. }
    { fold dir. rewrite <- HPeq. exact Hnear. }
    fold dir in Hud, Huu, HCu, HQ. rewrite <- HPeq in Hud, Huu, HCu, HQ.
    fold u in Hud, Huu, HCu, HQ.
    assert (Hs : 0 < s).
    { unfold s. apply Rdiv_lt_0_compat; [|exact HQ].
      apply Rmult_lt_0_compat; lra. }
    pose proof (length_pos P HP) as HlenP.
    destruct (shiftedPolar_geometry (viewPolar g') T P (Glm.length P) limit)
      as (Hpos & Hz & Hfar & Hdiff).
    { exact Huu. }
    { fold C. fold u. rewrite HCu. lra. }
    { fold C. fold u. exact Hs. }
    fold C u s in Hpos, Hz, Hfar, Hdiff.
    rewrite (Hshift (conj Htc Hnear)).
    repeat split; assumption.
Qed.

(** *** The IDLE update that triggers a switch, beside a small body *)

Lemma beside_idlePolar :
  idlePolar Sample.tabWindow 0 0 besideSmallBody = Vec3 0 0 4.
Proof.
  pose proof maxVerticalAngle_pos as Hmax.
  unfold idlePolar, idleElevation.
  change (dragSpeed Sample.tabWindow 0 0 besideSmallBody) with zero3.
  change (radiusOf besideSmallBody (getFocusedBody besideSmallBody)) with 1.
  change (viewPolar besideSmallBody) with (Vec3 0 0 4).
  cbn [x3 y3 z3 zero3].
  pose proof (Rmax_l 0.01 (4 - 1)). pose proof (Rmax_r 0.01 (4 - 1)).
  apply vec3_eq; cbn [x3 y3 z3]; repeat case_decide; lra.
Qed.

(** C5 as the specification words it fails on the state left by the IDLE
    update that triggers a switch: the camera is at distance 4 of B, of
    radius 1, on the side of A, whose radius is 10 and whose centre is at
    distance 8; TAB makes A the focused body after the distance was
    limited by the radius of B, so the state left has a polar distance of
    4 and a camera at distance 8 of the centre of the focused body, both
    below its radius. *)
Lemma idle_switch_inside_new_body :
  getFocusedBody besideSmallBody = Some 1%nat /\
  getFocusedBody (updateIdle Sample.tabWindow 0 0 0 besideSmallBody) = Some 0%nat /\
  radiusOf (updateIdle Sample.tabWindow 0 0 0 besideSmallBody)
    (getFocusedBody (updateIdle Sample.tabWindow 0 0 0 besideSmallBody)) = 10 /\
  z3 (viewPolar (updateIdle Sample.tabWindow 0 0 0 besideSmallBody)) = 4 /\
  Glm.length
    (sub (viewPos (updateIdle Sample.tabWindow 0 0 0 besideSmallBody))
       (positionOf (updateIdle Sample.tabWindow 0 0 0 besideSmallBody)
          (getFocusedBody (updateIdle Sample.tabWindow 0 0 0 besideSmallBody))))
  = 8 /\
  ~ cameraOutsideFocus (updateIdle Sample.tabWindow 0 0 0 besideSmallBody).
Proof.
  assert (Hfocus : getFocusedBody (updateIdle Sample.tabWindow 0 0 0 besideSmallBody)
                   = Some 0%nat) by reflexivity.
  assert (Hradius : radiusOf (updateIdle Sample.tabWindow 0 0 0 besideSmallBody)
                      (Some 0%nat) = 10) by reflexivity.
  assert (Hpolar : viewPolar (updateIdle Sample.tabWindow 0 0 0 besideSmallBody)
                   = Vec3 0 0 4) by exact beside_idlePolar.
  assert (Hpos : viewPos (updateIdle Sample.tabWindow 0 0 0 besideSmallBody)
                 = Vec3 (-8) 0 0).
  { change (add (scale (z3 (idlePolar Sample.tabWindow 0 0 besideSmallBody))
                   (polarToCartesian (xy (idlePolar Sample.tabWindow 0 0
                                            besideSmallBody))))
                (Vec3 (-12) 0 0) = Vec3 (-8) 0 0).
    rewrite beside_idlePolar. unfold polarToCartesian, xy.
    cbn [add scale x2 y2 x3 y3 z3]. rewrite cos_0, sin_0.
    apply vec3_eq; unfold add, scale; cbn [x3 y3 z3]; lra. }
  assert (Hdist : Glm.length
                    (sub (viewPos (updateIdle Sample.tabWindow 0 0 0 besideSmallBody))
                       (positionOf (updateIdle Sample.tabWindow 0 0 0 besideSmallBody)
                          (Some 0%nat))) = 8).
  { rewrite Hpos.
    change (positionOf (updateIdle Sample.tabWindow 0 0 0 besideSmallBody)
              (Some 0%nat)) with zero3.
    unfold Glm.length, dot, sub, zero3. cbn [x3 y3 z3].
    replace ((-8 - 0) * (-8 - 0) + (0 - 0) * (0 - 0) + (0 - 0) * (0 - 0))
      with (8 * 8) by ring.
    apply sqrt_square. lra. }
  split; [reflexivity|]. split; [exact Hfocus|].
  rewrite Hfocus, Hradius, Hpolar, Hdist. cbn [z3].
  split; [reflexivity|]. split; [reflexivity|]. split; [reflexivity|].
  unfold cameraOutsideFocus. rewrite Hfocus, Hradius, Hdist. lra.
Qed.

(** *** The sample game at the frame of the switch *)

Lemma sample_focus :
  getFocusedBody (updateCamera Sample.tabWindow 0 Sample.game) = Some 1%nat /\
  getPreviousBody (updateCamera Sample.tabWindow 0 Sample.game) = Some 0%nat.
Proof. split; reflexivity. Qed.

Lemma sample_viewPolar :
  viewPolar (updateCamera Sample.tabWindow 0 Sample.game) = Vec3 0 0 13.
Proof.
  pose proof maxVerticalAngle_pos as Hmax.
  change (idlePolar Sample.tabWindow 0 0 Sample.game = Vec3 0 0 13).
  unfold idlePolar, idleElevation.
  change (dragSpeed Sample.tabWindow 0 0 Sample.game) with zero3.
  change (radiusOf Sample.game (getFocusedBody Sample.game)) with 10.
  change (viewPolar Sample.game) with (Vec3 0 0 13).
  cbn [x3 y3 z3 zero3].
  pose proof (Rmax_l 0.01 (13 - 10)). pose proof (Rmax_r 0.01 (13 - 10)).
  apply vec3_eq; cbn [x3 y3 z3]; repeat case_decide; lra.
Qed.

Lemma sample_positions :
  positionOf (updateCamera Sample.tabWindow 0 Sample.game) (Some 1%nat)
  = Vec3 (-11) 10 0 /\
  positionOf (updateCamera Sample.tabWindow 0 Sample.game) (Some 0%nat) = zero3.
Proof. split; reflexivity. Qed.

Lemma sample_radii :
  radiusOf (updateCamera Sample.tabWindow 0 Sample.game) (Some 1%nat) = 1 /\
  radiusOf (updateCamera Sample.tabWindow 0 Sample.game) (Some 0%nat) = 10.
Proof. split; reflexivity. Qed.

Lemma sample_relativeViewPos : relativeViewPos (Vec3 0 0 13) = Vec3 13 0 0.
Proof.
  unfold relativeViewPos, polarToCartesian. cbn [xy x2 y2 x3 y3 z3 scale].
  rewrite cos_0, sin_0. apply vec3_eq; cbn; lra.
Qed.

(** Closes a goal on the components of concrete vectors. *)
Ltac vcalc :=
  unfold Glm.length, linePoint, dot, sub, add, scale, neg, zero3;
  cbn [x3 y3 z3];
  first [lra | field | nra].

Lemma sample_dir :
  normalize (sub (sub (Vec3 (-11) 10 0) zero3) (Vec3 13 0 0))
  = Vec3 (- (12 / 13)) (5 / 13) 0.
Proof.
  rewrite (normalize_of_square _ 26) by vcalc.
  apply vec3_eq; vcalc.
Qed.

Lemma sample_tc : - dot (Vec3 13 0 0) (Vec3 (- (12 / 13)) (5 / 13) 0) = 12.
Proof. vcalc. Qed.

Lemma sample_closestPoint :
  linePoint (Vec3 13 0 0) (Vec3 (- (12 / 13)) (5 / 13) 0) 12
  = Vec3 (25 / 13) (60 / 13) 0.
Proof. apply vec3_eq; vcalc. Qed.

Lemma sample_closestDist : Glm.length (Vec3 (25 / 13) (60 / 13) 0) = 5.
Proof. apply length_of_square; vcalc. Qed.

(** The shift of the sample moves the camera away: the new distance
    exceeds 13. *)
Lemma sample_shift_distance :
  13 < z3 (shiftedPolar (Vec3 0 0 13) (Vec3 13 0 0)
             (sub (Vec3 (-11) 10 0) zero3) (Vec3 (25 / 13) (60 / 13) 0)
             5 (10 * 1.1)).
Proof.
  unfold shiftedPolar.
  change (scale (z3 (Vec3 0 0 13)) (polarToCartesian (xy (Vec3 0 0 13))))
    with (relativeViewPos (Vec3 0 0 13)).
  cbn [z3].
  rewrite sample_relativeViewPos.
  rewrite (normalize_of_square (Vec3 (25 / 13) (60 / 13) 0) 5) by vcalc.
  rewrite (length_of_square (sub (sub (Vec3 (-11) 10 0) zero3) (Vec3 13 0 0)) 26)
    by vcalc.
  set (w := sub (sub (Vec3 (-11) 10 0) zero3)
              (scale (10 * 1.1) (scale (/ 5) (Vec3 (25 / 13) (60 / 13) 0)))).
  assert (Hw : 0 < Glm.length w).
  { unfold Glm.length. apply sqrt_lt_R0. unfold w. vcalc. }
  set (c := 26 * (10 * 1.1 - 5) / Glm.length w).
  assert (Hc : 0 < c).
  { unfold c. apply Rdiv_lt_0_compat; [lra|exact Hw]. }
  replace 13 with (sqrt (13 * 13)) at 1 by (apply sqrt_square; lra).
  unfold Glm.length at 1. apply sqrt_lt_1_alt. split; [lra|].
  unfold dot, add, scale. cbn [x3 y3 z3]. nra.
Qed.

Lemma sample_rayTest :
  13 < z3 (rayTest (Vec3 0 0 13) (Vec3 13 0 0) (sub (Vec3 (-11) 10 0) zero3) 10).
Proof.
  destruct (rayTest_cases (Vec3 0 0 13) (Vec3 13 0 0)
              (sub (Vec3 (-11) 10 0) zero3) 10) as [Hshift _].
  cbv zeta in Hshift.
  rewrite sample_dir, sample_tc, sample_closestPoint, sample_closestDist in Hshift.
  rewrite Hshift by lra. apply sample_shift_distance.
Qed.

(** The theorem for the sample game, with TAB down: the line of sight
    passes in front of the camera at distance 5 of the centre of A, below
    the limit 11. *)
Lemma switch_target_polar_witness :
  getPreviousBody (updateCamera Sample.tabWindow 0 Sample.game)
  = getFocusedBody Sample.game /\
  let g' := updateCamera Sample.tabWindow 0 Sample.game in
  let C := relativeViewPos (viewPolar g') in
  let T := sub (positionOf g' (getFocusedBody g'))
               (positionOf g' (getPreviousBody g')) in
  let dir := normalize (sub T C) in
  let tc := - dot C dir in
  let P := linePoint C dir tc in
  let limit := radiusOf Sample.game (getFocusedBody Sample.game) * 1.1 in
  (forall t : R, Glm.length P <= Glm.length (linePoint C dir t)) /\
  (tc <= 0 \/ limit <= Glm.length P -> switchNewViewPolar g' = viewPolar g') /\
  (0 < tc -> Glm.length P < limit -> P <> zero3 ->
   let u := normalize P in
   let s := Glm.length (sub T C) * (limit - Glm.length P)
            / Glm.length (sub T (scale limit u)) in
   dot u dir = 0 /\ dot u u = 1 /\ 0 < s /\
   relativeViewPos (switchNewViewPolar g') = add C (scale s u) /\
   z3 (switchNewViewPolar g') = Glm.length (add C (scale s u)) /\
   Glm.length C < z3 (switchNewViewPolar g') /\
   switchNewViewPolar g' <> viewPolar g').
Proof.
  apply (switch_target_polar Sample.tabWindow 0 Sample.game);
    try reflexivity.
  rewrite sample_viewPolar, sample_relativeViewPos.
  destruct sample_focus as [-> ->]. destruct sample_positions as [-> ->].
  intros Heq. apply (f_equal x3) in Heq. cbn in Heq. lra.
Defined.

(** In the sample game the conditions of the shift hold: the closest
    point is at parameter 12 of the line, in front of the camera, at
    distance 5 of the centre of A, and it is not that centre. *)
Lemma sample_shift_case :
  let C := Vec3 13 0 0 in
  let dir := normalize (sub (sub (Vec3 (-11) 10 0) zero3) C) in
  0 < - dot C dir /\
  Glm.length (linePoint C dir (- dot C dir)) = 5 /\
  linePoint C dir (- dot C dir) <> zero3.
Proof.
  cbv zeta. rewrite sample_dir, sample_tc, sample_closestPoint, sample_closestDist.
  split; [lra|]. split; [reflexivity|].
  intros Heq. apply (f_equal x3) in Heq. cbn [x3 zero3] in Heq. lra.
Qed.

(** C2 as the specification words it fails in the sample game, where the
    line from the camera to B passes in front of the camera at distance 5
    of the centre of A, the body that is left, whose radius is 10, while
    the radius of B, the new body, is 1: 5 is not below 1.1, so the claim
    leaves the view polar coordinates unchanged, with distance 13; the
    code shifts them, to a distance above 13. *)
Lemma switch_target_uses_previous_radius :
  ~ switchTargetClaim (updateCamera Sample.tabWindow 0 Sample.game).
Proof.
  unfold switchTargetClaim, switchTargetWith. cbv zeta. intros [_ Hkeep].
  destruct (switch_rayTest Sample.tabWindow 0 Sample.game) as (Hray & _ & _);
    try reflexivity.
  cbv zeta in Hray. revert Hkeep Hray.
  rewrite sample_viewPolar, sample_relativeViewPos.
  destruct sample_focus as [-> ->]. destruct sample_positions as [-> ->].
  destruct sample_radii as [-> _].
  change (radiusOf Sample.game (getFocusedBody Sample.game)) with 10.
  rewrite sample_dir, sample_tc, sample_closestPoint, sample_closestDist.
  intros Hkeep Hray. rewrite Hkeep in Hray by lra.
  pose proof sample_rayTest as Hfar. rewrite <- Hray in Hfar.
  cbn in Hfar. lra.
Qed.

(** *** The switch cycle: TRACK, then MOVE *)

Lemma cameraFrames_app (l1 l2 : list Frame) (g : Game) :
  cameraFrames (l1 ++ l2) g = cameraFrames l2 (cameraFrames l1 g).
Proof. unfold cameraFrames. apply foldl_app. Qed.

Lemma cameraFrames_cons (f : Frame) (l : list Frame) (g : Game) :
  cameraFrames (f :: l) g = cameraFrames l (cameraFrame f g).
Proof. reflexivity. Qed.


(** The TRACK frame that completes the phase. *)
Lemma track_frame_done (f : Frame) (g : Game) :
  switchPhase g = TRACK -> 1 < switchTime g + f_dt f ->
  switchPhase (cameraFrame f g) = MOVE /\
  switchTime (cameraFrame f g) = 0 /\
  focusedBodyId (cameraFrame f g) = focusedBodyId g.
Proof.
  intros Hphase Hdt. unfold cameraFrame, updateCamera.
  change (switchPhase (frameStart g (f_state f))) with (switchPhase g).
  rewrite Hphase. unfold updateTrack.
  cbn [switchPhase switchTime focusedBodyId frameStart withFrameStart].
  rewrite !decide_True by lra. repeat split; reflexivity.
Qed.






(** *** The MOVE frame *)

Lemma powf_4 (x : R) : 0 <= x -> powf x 4 = x * x * x * x.
Proof.
  intros Hx. unfold powf. destruct (decide (0 < x)) as [Hpos|Hnot].
  - replace 4 with (INR 4) by (cbn; lra).
    rewrite Rpower_pow by exact Hpos. cbn. lra.
  - assert (x = 0) as -> by lra.
    rewrite decide_True by reflexivity. rewrite decide_True by lra. lra.
Qed.

Lemma fourth_power_sum_pos (t : R) :
  0 < t * t * t * t + (1 - t) * (1 - t) * (1 - t) * (1 - t).
Proof.
  pose proof (Rle_0_sqr (t * t)) as H1. pose proof (Rle_0_sqr ((1 - t) * (1 - t))) as H2.
  unfold Rsqr in H1, H2.
  destruct (Rle_lt_dec t (1 / 2)) as [Hle|Hgt].
  - assert (0 < (1 - t) * (1 - t)) by nra. nra.
  - assert (0 < t * t) by nra. nra.
Qed.

(** The power-ratio ease with alpha = 4 on the unit interval. *)
Lemma ease2_4 (t : R) :
  0 <= t <= 1 ->
  ease2 t 4
  = t * t * t * t / (t * t * t * t + (1 - t) * (1 - t) * (1 - t) * (1 - t))
  /\ 0 <= ease2 t 4 <= 1.
Proof.
  intros Ht. unfold ease2. rewrite !powf_4 by lra.
  split; [reflexivity|].
  pose proof (fourth_power_sum_pos t) as Hpos.
  pose proof (Rle_0_sqr (t * t)) as H1. pose proof (Rle_0_sqr ((1 - t) * (1 - t))) as H2.
  unfold Rsqr in H1, H2.
  split.
  - apply Rmult_le_pos; [lra|]. apply Rlt_le, Rinv_0_lt_compat, Hpos.
  - apply (Rmult_le_reg_r (t * t * t * t + (1 - t) * (1 - t) * (1 - t) * (1 - t)));
      [exact Hpos|].
    unfold Rdiv. rewrite Rmult_assoc, Rinv_l by lra. lra.
Qed.

Lemma ease2_4_ends : ease2 0 4 = 0 /\ ease2 1 4 = 1.
Proof.
  split.
  - destruct (ease2_4 0) as [-> _]; [lra|]. field.
  - destruct (ease2_4 1) as [-> _]; [lra|]. field.
Qed.



(** The MOVE frame that completes the phase. *)
Lemma move_frame_done (dt : R) (g : Game) :
  1 < switchTime g + dt ->
  switchPhase (updateMove dt g) = IDLE /\
  switchTime (updateMove dt g) = 0 /\
  panPolar (updateMove dt g) = zero2 /\
  viewSpeed (updateMove dt g) = zero3 /\
  focusedBodyId (updateMove dt g) = focusedBodyId g /\
  viewPolar (updateMove dt g)
  = Vec3 (atan2 (- y3 (moveDirection g)) (- x3 (moveDirection g)))
         (asin (- z3 (moveDirection g))) (moveTargetDist g).
Proof.
  intros Hdt. unfold updateMove.
  cbn [switchPhase switchTime panPolar viewSpeed focusedBodyId viewPolar].
  rewrite !decide_True by lra. repeat split; reflexivity.
Qed.






(** *** The MOVE phase *)






(** ** Further properties of [game.cpp] *)

(** *** Cycling through the bodies ([Game::chooseNextBody]) *)

(** X1.  From a focus inside the body list, the next body is the focus
    plus one, or minus one, modulo the number of bodies: the index stays
    inside the list and wraps at both ends, from the last body forward to
    the first and from the first backward to the last. *)
Theorem chooseNextBody_in_range (g : Game) (direction : bool) :
  (0 <= focusedBodyId g
   < Z.of_nat (List.length (getBodies (entities (entityCollection g)))))%Z ->
  (chooseNextBody g direction
   = (focusedBodyId g + (if direction then 1 else -1))
     mod Z.of_nat (List.length (getBodies (entities (entityCollection g)))))%Z /\
  (0 <= chooseNextBody g direction
   < Z.of_nat (List.length (getBodies (entities (entityCollection g)))))%Z /\
  (focusedBodyId g
   = Z.of_nat (List.length (getBodies (entities (entityCollection g)))) - 1 ->
   chooseNextBody g true = 0)%Z /\
  (focusedBodyId g = 0 ->
   chooseNextBody g false
   = Z.of_nat (List.length (getBodies (entities (entityCollection g)))) - 1)%Z.
Proof.
  intros Hrange. unfold chooseNextBody. cbv zeta.
  set (size := Z.of_nat (List.length (getBodies (entities (entityCollection g)))))
    in *.
  split; [|split; [|split]].
  - destruct direction; repeat case_decide.
    + lia.
    + replace (focusedBodyId g + 1)%Z with (0 + 1 * size)%Z by lia.
      rewrite Z.mod_add by lia. rewrite Z.mod_0_l by lia. lia.
    + symmetry. apply Z.mod_small. lia.
    + replace (focusedBodyId g + -1)%Z with (size - 1 + -1 * size)%Z by lia.
      rewrite Z.mod_add by lia. rewrite Z.mod_small by lia. lia.
    + lia.
    + symmetry. apply Z.mod_small. lia.
  - destruct direction; repeat case_decide; lia.
  - intros Hlast. repeat case_decide; lia.
  - intros Hfirst. repeat case_decide; lia.
Qed.

(** Forward from B, the last of the two sample bodies. *)
Lemma chooseNextBody_in_range_witness :
  (chooseNextBody Sample.moving true
   = (focusedBodyId Sample.moving + (if true then 1 else -1))
     mod Z.of_nat (List.length
                     (getBodies (entities (entityCollection Sample.moving)))))%Z /\
  (0 <= chooseNextBody Sample.moving true
   < Z.of_nat (List.length
                 (getBodies (entities (entityCollection Sample.moving)))))%Z /\
  (focusedBodyId Sample.moving
   = Z.of_nat (List.length
                 (getBodies (entities (entityCollection Sample.moving)))) - 1 ->
   chooseNextBody Sample.moving true = 0)%Z /\
  (focusedBodyId Sample.moving = 0 ->
   chooseNextBody Sample.moving false
   = Z.of_nat (List.length
                 (getBodies (entities (entityCollection Sample.moving)))) - 1)%Z.
Proof.
  apply (chooseNextBody_in_range Sample.moving true).
  change (0 <= 1 < Z.of_nat 2)%Z. lia.
Defined.

(** X2.  Forward then backward, or backward then forward, comes back to
    the body the cycle started from. *)
Theorem chooseNextBody_back (g g' : Game) (direction : bool) :
  (0 <= focusedBodyId g
   < Z.of_nat (List.length (getBodies (entities (entityCollection g)))))%Z ->
  entityCollection g' = entityCollection g ->
  focusedBodyId g' = chooseNextBody g direction ->
  chooseNextBody g' (negb direction) = focusedBodyId g.
Proof.
  intros Hrange Hcoll Hnext. unfold chooseNextBody in *. cbv zeta in *.
  rewrite Hcoll, Hnext.
  destruct direction; cbn [negb]; repeat case_decide; lia.
Qed.

Lemma chooseNextBody_back_witness :
  chooseNextBody (updateCamera Sample.tabWindow 0 Sample.game) (negb true)
  = focusedBodyId Sample.game.
Proof.
  apply (chooseNextBody_back Sample.game
           (updateCamera Sample.tabWindow 0 Sample.game) true).
  - change (0 <= 0 < Z.of_nat 2)%Z. lia.
  - reflexivity.
  - reflexivity.
Defined.

(** *** The time-warp index in IDLE *)

(** X3.  The time-warp index after an IDLE update, from an index inside
    [timeWarpValues]: 0 when the update triggers a switch; otherwise the
    index lowered by one on an edge of K, but not below 0, then raised by
    one on an edge of L, but not above the last index; so it stays inside
    [timeWarpValues], and without an edge of K, L or TAB it does not
    change. *)
Theorem updateIdle_timeWarpIndex_in_range
    (win : Window) (dt posX posY : R) (g : Game) :
  (0 <= timeWarpIndex g < Z.of_nat (List.length (timeWarpValues g)))%Z ->
  timeWarpIndex (updateIdle win dt posX posY g)
  = (if glfwGetKey win GLFW_KEY_TAB && negb (held (keysHeld g) GLFW_KEY_TAB)
     then 0
     else
       let lowered :=
         if glfwGetKey win GLFW_KEY_K && negb (held (keysHeld g) GLFW_KEY_K)
         then Z.max 0 (timeWarpIndex g - 1) else timeWarpIndex g in
       if glfwGetKey win GLFW_KEY_L && negb (held (keysHeld g) GLFW_KEY_L)
       then Z.min (Z.of_nat (List.length (timeWarpValues g)) - 1) (lowered + 1)
       else lowered)%Z /\
  timeWarpValues (updateIdle win dt posX posY g) = timeWarpValues g /\
  (0 <= timeWarpIndex (updateIdle win dt posX posY g)
   < Z.of_nat (List.length (timeWarpValues (updateIdle win dt posX posY g))))%Z.
Proof.
  intros Hrange.
  assert (Hvalue :
            timeWarpIndex (updateIdle win dt posX posY g)
            = (if glfwGetKey win GLFW_KEY_TAB
                  && negb (held (keysHeld g) GLFW_KEY_TAB)
               then 0
               else
                 let lowered :=
                   if glfwGetKey win GLFW_KEY_K
                      && negb (held (keysHeld g) GLFW_KEY_K)
                   then Z.max 0 (timeWarpIndex g - 1) else timeWarpIndex g in
                 if glfwGetKey win GLFW_KEY_L
                    && negb (held (keysHeld g) GLFW_KEY_L)
                 then Z.min (Z.of_nat (List.length (timeWarpValues g)) - 1)
                        (lowered + 1)
                 else lowered)%Z).
  { unfold updateIdle. cbn [timeWarpIndex]. rewrite idleTabCheck_edge.
    unfold idleTimeWarpIndex. cbv zeta.
    rewrite !isPressedOnce_result, isPressedOnce_held.
    rewrite (decide_False (P := GLFW_KEY_K = GLFW_KEY_L))
      by (compute; discriminate).
    destruct (glfwGetKey win GLFW_KEY_TAB && negb (held (keysHeld g) GLFW_KEY_TAB));
      [reflexivity|].
    destruct (glfwGetKey win GLFW_KEY_K && negb (held (keysHeld g) GLFW_KEY_K));
      destruct (glfwGetKey win GLFW_KEY_L && negb (held (keysHeld g) GLFW_KEY_L));
      cbn [andb]; repeat case_bool_decide; lia. }
  split; [exact Hvalue|]. split; [reflexivity|].
  rewrite Hvalue. change (timeWarpValues (updateIdle win dt posX posY g))
    with (timeWarpValues g). cbv zeta.
  destruct (glfwGetKey win GLFW_KEY_TAB && negb (held (keysHeld g) GLFW_KEY_TAB));
    [lia|].
  destruct (glfwGetKey win GLFW_KEY_K && negb (held (keysHeld g) GLFW_KEY_K));
    destruct (glfwGetKey win GLFW_KEY_L && negb (held (keysHeld g) GLFW_KEY_L));
    lia.
Qed.

(** K pressed in the sample game, whose index is the last of three. *)
Lemma updateIdle_timeWarpIndex_in_range_witness :
  timeWarpIndex (updateIdle (keyWindow GLFW_KEY_K) 0 0 0 Sample.game)
  = (if glfwGetKey (keyWindow GLFW_KEY_K) GLFW_KEY_TAB
        && negb (held (keysHeld Sample.game) GLFW_KEY_TAB)
     then 0
     else
       let lowered :=
         if glfwGetKey (keyWindow GLFW_KEY_K) GLFW_KEY_K
            && negb (held (keysHeld Sample.game) GLFW_KEY_K)
         then Z.max 0 (timeWarpIndex Sample.game - 1)
         else timeWarpIndex Sample.game in
       if glfwGetKey (keyWindow GLFW_KEY_K) GLFW_KEY_L
          && negb (held (keysHeld Sample.game) GLFW_KEY_L)
       then Z.min (Z.of_nat (List.length (timeWarpValues Sample.game)) - 1)
              (lowered + 1)
       else lowered)%Z /\
  timeWarpValues (updateIdle (keyWindow GLFW_KEY_K) 0 0 0 Sample.game)
  = timeWarpValues Sample.game /\
  (0 <= timeWarpIndex (updateIdle (keyWindow GLFW_KEY_K) 0 0 0 Sample.game)
   < Z.of_nat (List.length
                 (timeWarpValues
                    (updateIdle (keyWindow GLFW_KEY_K) 0 0 0 Sample.game))))%Z.
Proof.
  apply (updateIdle_timeWarpIndex_in_range (keyWindow GLFW_KEY_K) 0 0 0 Sample.game).
  change (0 <= 2 < Z.of_nat 3)%Z. lia.
Defined.

(** In that frame the index goes from 2 to 1. *)
Example timeWarpIndex_after_K :
  timeWarpIndex (updateIdle (keyWindow GLFW_KEY_K) 0 0 0 Sample.game) = 1%Z.
Proof. reflexivity. Qed.

(** *** The drag block of [updateIdle] *)

(** X4.  After the drag block the [dragging] flag says whether a mouse
    button is down, whatever it was before; and while the first button
    is down, the azimuth and elevation components of the velocity are
    within the maximum view speed. *)
Theorem drag_flag_and_speed_limit (win : Window) (posX posY : R) (g : Game) :
  0 <= maxViewSpeed g ->
  dragFlag win g
  = glfwGetMouseButton win GLFW_MOUSE_BUTTON_1
    || glfwGetMouseButton win GLFW_MOUSE_BUTTON_2 /\
  (glfwGetMouseButton win GLFW_MOUSE_BUTTON_1 = true ->
   - maxViewSpeed g <= x3 (dragSpeed win posX posY g) <= maxViewSpeed g /\
   - maxViewSpeed g <= y3 (dragSpeed win posX posY g) <= maxViewSpeed g /\
   z3 (dragSpeed win posX posY g) = z3 (viewSpeed g)) /\
  (glfwGetMouseButton win GLFW_MOUSE_BUTTON_1 = false ->
   dragSpeed win posX posY g = viewSpeed g).
Proof.
  intros Hmax.
  assert (Hflag : dragFlag win g
                  = glfwGetMouseButton win GLFW_MOUSE_BUTTON_1
                    || glfwGetMouseButton win GLFW_MOUSE_BUTTON_2).
  { unfold dragFlag.
    destruct (glfwGetMouseButton win GLFW_MOUSE_BUTTON_1),
      (glfwGetMouseButton win GLFW_MOUSE_BUTTON_2), (dragging g); reflexivity. }
  split; [exact Hflag|]. split.
  - intros Hb1. unfold dragSpeed. rewrite Hflag, Hb1. cbn [orb andb x3 y3 z3].
    unfold limitSpeed. repeat split; repeat case_decide; lra.
  - intros Hb1. unfold dragSpeed. rewrite Hb1, andb_false_r. reflexivity.
Qed.

Lemma drag_flag_and_speed_limit_witness :
  dragFlag Sample.idleWindow Sample.game
  = glfwGetMouseButton Sample.idleWindow GLFW_MOUSE_BUTTON_1
    || glfwGetMouseButton Sample.idleWindow GLFW_MOUSE_BUTTON_2 /\
  (glfwGetMouseButton Sample.idleWindow GLFW_MOUSE_BUTTON_1 = true ->
   - maxViewSpeed Sample.game <= x3 (dragSpeed Sample.idleWindow 0 0 Sample.game)
     <= maxViewSpeed Sample.game /\
   - maxViewSpeed Sample.game <= y3 (dragSpeed Sample.idleWindow 0 0 Sample.game)
     <= maxViewSpeed Sample.game /\
   z3 (dragSpeed Sample.idleWindow 0 0 Sample.game) = z3 (viewSpeed Sample.game)) /\
  (glfwGetMouseButton Sample.idleWindow GLFW_MOUSE_BUTTON_1 = false ->
   dragSpeed Sample.idleWindow 0 0 Sample.game = viewSpeed Sample.game).
Proof.
  apply (drag_flag_and_speed_limit Sample.idleWindow 0 0 Sample.game).
  change (0 <= 0.2). lra.
Defined.

(** *** Unit vectors and the distance of the camera *)

(** X5.  The rotation axis built from a right ascension and a declination
    is a unit vector. *)
Theorem axis_unit (rightAscension declination : R) :
  dot (axis rightAscension declination) (axis rightAscension declination) = 1
  /\ Glm.length (axis rightAscension declination) = 1.
Proof.
  assert (Hdot : dot (axis rightAscension declination)
                     (axis rightAscension declination) = 1).
  { unfold axis, dot. cbn [x3 y3 z3].
    pose proof (sin_cos_square rightAscension) as Hx.
    pose proof (sin_cos_square declination) as Hy.
    replace (- sin rightAscension * cos declination
               * (- sin rightAscension * cos declination)
             + cos rightAscension * cos declination
               * (cos rightAscension * cos declination)
             + sin declination * sin declination)
      with ((sin rightAscension * sin rightAscension
             + cos rightAscension * cos rightAscension)
            * (cos declination * cos declination)
            + sin declination * sin declination) by ring.
    rewrite Hx. lra. }
  split; [exact Hdot|]. apply length_of_square; lra.
Qed.

(** X6.  After an IDLE update, when the radius of the body that was
    focused when the update began is not negative, the camera is at
    Euclidean distance [viewPolar.z] of the centre of that body, and that
    distance is at least its radius: the camera is not inside the body
    it orbits.  Unless the update triggers a switch (an edge of TAB),
    that body is the focused body of the state the update leaves, and
    both hold for the focused body of that state. *)
Theorem updateIdle_camera_outside (win : Window) (dt posX posY : R) (g : Game) :
  0 <= radiusOf g (getFocusedBody g) ->
  Glm.length (sub (viewPos (updateIdle win dt posX posY g))
                  (positionOf g (getFocusedBody g)))
  = z3 (viewPolar (updateIdle win dt posX posY g))
  /\ radiusOf g (getFocusedBody g)
     <= Glm.length (sub (viewPos (updateIdle win dt posX posY g))
                        (positionOf g (getFocusedBody g)))
  /\ (glfwGetKey win GLFW_KEY_TAB && negb (held (keysHeld g) GLFW_KEY_TAB) = false ->
      getFocusedBody (updateIdle win dt posX posY g) = getFocusedBody g /\
      Glm.length
        (sub (viewPos (updateIdle win dt posX posY g))
           (positionOf (updateIdle win dt posX posY g)
              (getFocusedBody (updateIdle win dt posX posY g))))
      = z3 (viewPolar (updateIdle win dt posX posY g)) /\
      cameraOutsideFocus (updateIdle win dt posX posY g)).
Proof.
  intros Hradius.
  assert (Hz : radiusOf g (getFocusedBody g)
               <= z3 (viewPolar (updateIdle win dt posX posY g))).
  { unfold updateIdle. cbn [viewPolar]. unfold idlePolar. cbn [z3].
    case_decide; lra. }
  assert (Hlen : Glm.length (sub (viewPos (updateIdle win dt posX posY g))
                                 (positionOf g (getFocusedBody g)))
                 = z3 (viewPolar (updateIdle win dt posX posY g))).
  { apply length_of_square; [lra|].
    unfold updateIdle at 1 2. cbn [viewPos].
    set (vp := idlePolar win posX posY g).
    change (viewPolar (updateIdle win dt posX posY g)) with vp.
    pose proof (polarToCartesian_unit (xy vp)) as Hunit.
    set (u := polarToCartesian (xy vp)) in *.
    destruct u as [ux uy uz], (positionOf g (getFocusedBody g)) as [px py pz].
    unfold dot in *. cbn [sub add scale x3 y3 z3] in *.
    replace ((z3 vp * ux + px - px) * (z3 vp * ux + px - px)
             + (z3 vp * uy + py - py) * (z3 vp * uy + py - py)
             + (z3 vp * uz + pz - pz) * (z3 vp * uz + pz - pz))
      with (z3 vp * z3 vp * (ux * ux + uy * uy + uz * uz)) by ring.
    rewrite Hunit. ring. }
  split; [exact Hlen|]. split; [rewrite Hlen; exact Hz|].
  intros Hedge. unfold cameraOutsideFocus.
  rewrite (idle_no_switch_focus win dt posX posY g Hedge).
  change (positionOf (updateIdle win dt posX posY g) (getFocusedBody g))
    with (positionOf g (getFocusedBody g)).
  change (radiusOf (updateIdle win dt posX posY g) (getFocusedBody g))
    with (radiusOf g (getFocusedBody g)).
  split; [reflexivity|]. split; [exact Hlen|]. rewrite Hlen. exact Hz.
Qed.

Lemma updateIdle_camera_outside_witness :
  Glm.length (sub (viewPos (updateIdle Sample.idleWindow 0 0 0 Sample.game))
                  (positionOf Sample.game (getFocusedBody Sample.game)))
  = z3 (viewPolar (updateIdle Sample.idleWindow 0 0 0 Sample.game))
  /\ radiusOf Sample.game (getFocusedBody Sample.game)
     <= Glm.length (sub (viewPos (updateIdle Sample.idleWindow 0 0 0 Sample.game))
                        (positionOf Sample.game (getFocusedBody Sample.game)))
  /\ (glfwGetKey Sample.idleWindow GLFW_KEY_TAB
      && negb (held (keysHeld Sample.game) GLFW_KEY_TAB) = false ->
      getFocusedBody (updateIdle Sample.idleWindow 0 0 0 Sample.game)
      = getFocusedBody Sample.game /\
      Glm.length
        (sub (viewPos (updateIdle Sample.idleWindow 0 0 0 Sample.game))
           (positionOf (updateIdle Sample.idleWindow 0 0 0 Sample.game)
              (getFocusedBody (updateIdle Sample.idleWindow 0 0 0 Sample.game))))
      = z3 (viewPolar (updateIdle Sample.idleWindow 0 0 0 Sample.game)) /\
      cameraOutsideFocus (updateIdle Sample.idleWindow 0 0 0 Sample.game)).
Proof.
  apply (updateIdle_camera_outside Sample.idleWindow 0 0 0 Sample.game).
  change (0 <= 10). lra.
Defined.

(** *** The two easing curves *)

(** The increase of [ease] between [a] and [b], as 30 (b - a) times a sum
    of squares. *)
Lemma ease_increase (a b : R) :
  ease b - ease a
  = 30 * (b - a)
    * (((a + b) / 2 * (1 - (a + b) / 2) - (b - a) * (b - a) / 12)
       * ((a + b) / 2 * (1 - (a + b) / 2) - (b - a) * (b - a) / 12)
       + (1 - (a + b)) * (1 - (a + b)) * ((b - a) * (b - a)) / 12
       + (b - a) * (b - a) * ((b - a) * (b - a)) / 180).
Proof. unfold ease. field. Qed.

(** X7.  The quintic [ease] goes from 0 at 0 to 1 at 1 through 1/2 at
    1/2, is symmetric about that point, never decreases, and stays
    within [0, 1] on [0, 1]. *)
Theorem ease_shape :
  ease 0 = 0 /\ ease 1 = 1 /\ ease (1 / 2) = 1 / 2 /\
  (forall t : R, ease (1 - t) = 1 - ease t) /\
  (forall a b : R, a <= b -> ease a <= ease b) /\
  (forall t : R, 0 <= t <= 1 -> 0 <= ease t <= 1).
Proof.
  assert (H0 : ease 0 = 0) by (unfold ease; lra).
  assert (H1 : ease 1 = 1) by (unfold ease; lra).
  assert (Hmono : forall a b : R, a <= b -> ease a <= ease b).
  { intros a b Hab. pose proof (ease_increase a b) as Hinc.
    set (p := (a + b) / 2 * (1 - (a + b) / 2) - (b - a) * (b - a) / 12) in Hinc.
    pose proof (Rle_0_sqr p) as Hp. unfold Rsqr in Hp.
    pose proof (Rle_0_sqr ((1 - (a + b)) * (b - a))) as Hq. unfold Rsqr in Hq.
    pose proof (Rle_0_sqr ((b - a) * (b - a))) as Hh. unfold Rsqr in Hh.
    assert (0 <= p * p
                 + (1 - (a + b)) * (1 - (a + b)) * ((b - a) * (b - a)) / 12
                 + (b - a) * (b - a) * ((b - a) * (b - a)) / 180) by nra.
    assert (0 <= ease b - ease a); [|lra].
    rewrite Hinc. apply Rmult_le_pos; [lra|assumption]. }
  repeat split; try assumption.
  - unfold ease. lra.
  - intros t. unfold ease. ring.
  - rewrite <- H0. apply Hmono. lra.
  - rewrite <- H1. apply Hmono. lra.
Qed.

Lemma fourth_power_le (s t : R) :
  0 <= s <= t -> s * s * s * s <= t * t * t * t.
Proof.
  intros Hst. assert (Hsq : s * s <= t * t) by nra.
  assert (0 <= s * s) by nra. nra.
Qed.

(** X8.  On [0, 1] the power-ratio ease with alpha = 4 never decreases,
    is symmetric about (1/2, 1/2), and goes from 0 to 1. *)
Theorem ease2_shape :
  (forall s t : R, 0 <= s -> s <= t -> t <= 1 -> ease2 s 4 <= ease2 t 4) /\
  (forall t : R, 0 <= t <= 1 -> ease2 (1 - t) 4 = 1 - ease2 t 4) /\
  ease2 0 4 = 0 /\ ease2 (1 / 2) 4 = 1 / 2 /\ ease2 1 4 = 1.
Proof.
  split; [|split; [|split; [|split]]].
  - intros s t Hs Hst Ht.
    destruct (ease2_4 s) as [-> _]; [lra|]. destruct (ease2_4 t) as [-> _]; [lra|].
    pose proof (fourth_power_sum_pos s) as Hds.
    pose proof (fourth_power_sum_pos t) as Hdt.
    pose proof (fourth_power_le s t ltac:(lra)) as Ha.
    pose proof (fourth_power_le (1 - t) (1 - s) ltac:(lra)) as Hb.
    pose proof (fourth_power_le 0 s ltac:(lra)) as Has.
    pose proof (fourth_power_le 0 (1 - t) ltac:(lra)) as Hbt.
    set (a_s := s * s * s * s) in *. set (a_t := t * t * t * t) in *.
    set (b_s := (1 - s) * (1 - s) * (1 - s) * (1 - s)) in *.
    set (b_t := (1 - t) * (1 - t) * (1 - t) * (1 - t)) in *.
    assert (Hcross : a_s * b_t <= a_t * b_s) by (apply Rmult_le_compat; lra).
    assert (Hdiff : a_t / (a_t + b_t) - a_s / (a_s + b_s)
                    = (a_t * b_s - a_s * b_t) / ((a_t + b_t) * (a_s + b_s)))
      by (field; lra).
    assert (0 <= (a_t * b_s - a_s * b_t) / ((a_t + b_t) * (a_s + b_s))).
    { apply Rmult_le_pos; [lra|]. apply Rlt_le, Rinv_0_lt_compat.
      apply Rmult_lt_0_compat; lra. }
    lra.
  - intros t Ht.
    destruct (ease2_4 t) as [-> _]; [lra|]. destruct (ease2_4 (1 - t)) as [-> _]; [lra|].
    pose proof (fourth_power_sum_pos t) as Hd.
    replace (1 - (1 - t)) with t by lra. field. lra.
  - apply ease2_4_ends.
  - destruct (ease2_4 (1 / 2)) as [-> _]; [lra|]. field.
  - apply ease2_4_ends.
Qed.

(** *** Shortest angular path ([updateTrack]) *)

(** X9.  The wrap of the azimuth difference in [updateTrack] adds or
    removes one turn at most, so it brings the difference into
    [-pi, pi] exactly when the difference is within three half turns;
    [viewPolar.x] accumulates without wrapping, so a camera that has
    orbited further keeps a difference outside [-pi, pi]. *)
Theorem wrapDelta_one_turn (d : R) :
  (wrapDelta d (- PI) PI = d \/ wrapDelta d (- PI) PI = d + 2 * PI
   \/ wrapDelta d (- PI) PI = d - 2 * PI) /\
  (- PI <= wrapDelta d (- PI) PI <= PI <-> - (3 * PI) <= d <= 3 * PI).
Proof.
  pose proof PI_RGT_0 as Hpi. unfold wrapDelta.
  repeat case_decide; split; try tauto; split; intros; lra.
Qed.

(** *** The opacity of the name label *)


(** *** The TAB key through a switch *)

Lemma cameraFrame_keys_outside_idle (f : Frame) (g : Game) :
  switchPhase g <> IDLE -> keysHeld (cameraFrame f g) = keysHeld g.
Proof.
  intros Hphase. unfold cameraFrame, updateCamera.
  change (switchPhase (frameStart g (f_state f))) with (switchPhase g).
  destruct (switchPhase g); [contradiction|reflexivity..].
Qed.

Lemma cameraFrames_keys_outside_idle (frames : list Frame) :
  forall g : Game,
    (forall k : nat, (k < List.length frames)%nat ->
                     switchPhase (cameraFrames (take k frames) g) <> IDLE) ->
    keysHeld (cameraFrames frames g) = keysHeld g.
Proof.
  induction frames as [|f frames IH]; intros g Hphases; [reflexivity|].
  rewrite cameraFrames_cons. rewrite IH.
  - apply cameraFrame_keys_outside_idle. apply (Hphases 0%nat). cbn. lia.
  - intros k Hk. apply (Hphases (S k)). cbn. lia.
Qed.

Lemma idle_frame_tab_held (win : Window) (dt posX posY : R) (g : Game) :
  held (keysHeld g) GLFW_KEY_TAB = true ->
  glfwGetKey win GLFW_KEY_TAB = true ->
  switchPhase (updateIdle win dt posX posY g) = switchPhase g /\
  focusedBodyId (updateIdle win dt posX posY g) = focusedBodyId g.
Proof.
  intros Hheld Hdown. pose proof (idleTabCheck_edge win g) as Hedge.
  rewrite Hdown, Hheld in Hedge. cbn [andb negb] in Hedge.
  unfold updateIdle. cbn [switchPhase focusedBodyId]. rewrite Hedge.
  split; reflexivity.
Qed.

(** X11.  TAB is only looked at in IDLE.  After the frame that triggers a
    switch, however TAB is released and pressed during the frames of
    TRACK and MOVE, the key table still records it as held when the
    machine is back in IDLE; so a TAB that is down in the first IDLE frame
    does not trigger a switch, even when that press began during the
    transition. *)
Theorem tab_during_switch_is_lost
    (win0 : Window) (dt0 : R) (g : Game) (frames : list Frame) (back : Frame) :
  switchPhase g = IDLE ->
  glfwGetKey win0 GLFW_KEY_TAB = true ->
  held (keysHeld g) GLFW_KEY_TAB = false ->
  (forall k : nat, (k < List.length frames)%nat ->
     switchPhase (cameraFrames (take k frames) (updateCamera win0 dt0 g)) <> IDLE) ->
  switchPhase (cameraFrames frames (updateCamera win0 dt0 g)) = IDLE ->
  glfwGetKey (f_win back) GLFW_KEY_TAB = true ->
  held (keysHeld (cameraFrames frames (updateCamera win0 dt0 g))) GLFW_KEY_TAB
  = true /\
  switchPhase (cameraFrames (frames ++ [back]) (updateCamera win0 dt0 g)) = IDLE /\
  focusedBodyId (cameraFrames (frames ++ [back]) (updateCamera win0 dt0 g))
  = focusedBodyId (cameraFrames frames (updateCamera win0 dt0 g)).
Proof.
  intros Hidle Hdown Hheld Hphases Hback Hdown'.
  assert (Hrec : held (keysHeld (updateCamera win0 dt0 g)) GLFW_KEY_TAB = true).
  { unfold updateCamera. rewrite Hidle. unfold updateIdle. cbn [keysHeld].
    unfold idleTabCheck. rewrite isPressedOnce_held.
    rewrite decide_True by reflexivity. exact Hdown. }
  assert (Hkeep : held (keysHeld (cameraFrames frames (updateCamera win0 dt0 g)))
                    GLFW_KEY_TAB = true).
  { rewrite cameraFrames_keys_outside_idle by exact Hphases. exact Hrec. }
  split; [exact Hkeep|].
  rewrite cameraFrames_app.
  set (g2 := cameraFrames frames (updateCamera win0 dt0 g)) in *.
  change (cameraFrames [back] g2) with (cameraFrame back g2).
  unfold cameraFrame, updateCamera.
  change (switchPhase (frameStart g2 (f_state back))) with (switchPhase g2).
  rewrite Hback.
  destruct (idle_frame_tab_held (f_win back) (f_dt back)
              (fst (glfwGetCursorPos (f_win back)))
              (snd (glfwGetCursorPos (f_win back)))
              (frameStart g2 (f_state back)) Hkeep Hdown') as [Hp Hf].
  rewrite Hp, Hf. split; [exact Hback|reflexivity].
Qed.

Lemma sample_switch_frames :
  switchPhase (cameraFrames [Sample.quietFrame 2 (Vec3 (-11) 10 0)]
                 (updateCamera Sample.tabWindow 0 Sample.game)) = MOVE /\
  switchPhase (cameraFrames [Sample.quietFrame 2 (Vec3 (-11) 10 0);
                             Sample.quietFrame 2 (Vec3 (-11) 10 0)]
                 (updateCamera Sample.tabWindow 0 Sample.game)) = IDLE.
Proof.
  set (g := updateCamera Sample.tabWindow 0 Sample.game).
  set (f := Sample.quietFrame 2 (Vec3 (-11) 10 0)).
  assert (Hphase : switchPhase g = TRACK) by reflexivity.
  assert (Htime : switchTime g = 0) by reflexivity.
  destruct (track_frame_done f g Hphase) as (Hp1 & Ht1 & _);
    [rewrite Htime; cbn; lra|].
  split; [exact Hp1|].
  change (cameraFrames [f; f] g) with (cameraFrame f (cameraFrame f g)).
  unfold cameraFrame at 1. unfold updateCamera.
  change (switchPhase (frameStart (cameraFrame f g) (f_state f)))
    with (switchPhase (cameraFrame f g)).
  rewrite Hp1. apply move_frame_done.
  change (switchTime (frameStart (cameraFrame f g) (f_state f)))
    with (switchTime (cameraFrame f g)).
  rewrite Ht1. cbn. lra.
Qed.

Lemma tab_during_switch_is_lost_witness :
  held (keysHeld (cameraFrames [Sample.quietFrame 2 (Vec3 (-11) 10 0);
                                Sample.quietFrame 2 (Vec3 (-11) 10 0)]
                    (updateCamera Sample.tabWindow 0 Sample.game)))
    GLFW_KEY_TAB = true /\
  switchPhase (cameraFrames ([Sample.quietFrame 2 (Vec3 (-11) 10 0);
                              Sample.quietFrame 2 (Vec3 (-11) 10 0)]
                             ++ [mkFrame Sample.tabWindow 0
                                   (Sample.pairState (Vec3 (-11) 10 0))])
                 (updateCamera Sample.tabWindow 0 Sample.game)) = IDLE /\
  focusedBodyId (cameraFrames ([Sample.quietFrame 2 (Vec3 (-11) 10 0);
                                Sample.quietFrame 2 (Vec3 (-11) 10 0)]
                               ++ [mkFrame Sample.tabWindow 0
                                     (Sample.pairState (Vec3 (-11) 10 0))])
                   (updateCamera Sample.tabWindow 0 Sample.game))
  = focusedBodyId (cameraFrames [Sample.quietFrame 2 (Vec3 (-11) 10 0);
                                 Sample.quietFrame 2 (Vec3 (-11) 10 0)]
                     (updateCamera Sample.tabWindow 0 Sample.game)).
Proof.
  apply (tab_during_switch_is_lost Sample.tabWindow 0 Sample.game
           [Sample.quietFrame 2 (Vec3 (-11) 10 0);
            Sample.quietFrame 2 (Vec3 (-11) 10 0)]
           (mkFrame Sample.tabWindow 0 (Sample.pairState (Vec3 (-11) 10 0)))).
  - reflexivity.
  - reflexivity.
  - reflexivity.
  - intros k Hk. destruct k as [|[|k]].
    + intros H. discriminate H.
    + destruct sample_switch_frames as [Hmove _].
      change (take 1 [Sample.quietFrame 2 (Vec3 (-11) 10 0);
                      Sample.quietFrame 2 (Vec3 (-11) 10 0)])
        with [Sample.quietFrame 2 (Vec3 (-11) 10 0)].
      rewrite Hmove. discriminate.
    + cbn in Hk. lia.
  - apply sample_switch_frames.
  - reflexivity.
Defined.

(** *** [getFormattedTime] on every epoch *)

Local Open Scope Z_scope.

Lemma to_int_range (z : Z) : -2147483648 <= to_int z <= INT_MAX.
Proof.
  unfold to_int, INT_MAX.
  pose proof (Z.mod_pos_bound (z + 2147483648) 4294967296 ltac:(lia)). lia.
Qed.

(** X12.  For every epoch whose day count, as the [int] the code
    stores, is at most [INT_MAX - 366] (the range in which the [int] sums
    of the year loop do not overflow), negative epochs included, the two
    loops of [getFormattedTime] end and the month tables are read inside
    their bounds: a string is returned.  For an epoch before the
    reference instant (within the [int] range of days) that string is a
    day of January 2017, numbered 1 or less: the code never prints a date
    of 2016. *)
Theorem getFormattedTime_total (epoch : Z) :
  to_int (Z.quot epoch 86400) <= INT_MAX - 366 ->
  is_Some (getFormattedTime epoch) /\
  (-86400 * 2147483648 < epoch < 0 ->
   exists time : string,
     getFormattedTime epoch
     = Some ("Jan. " ++ to_string (Z.quot epoch 86400 + 1) ++ " 2017 " ++ time)%string
     /\ Z.quot epoch 86400 + 1 <= 1).
Proof.
  intros Hsafe.
  assert (Hneg : forall days : Z,
             days < 0 ->
             yearLoop (S (Z.to_nat days)) days 0 2017 = Some (0, 2017) /\
             monthLoop 13 (monthLength 2017) (days - 0) 0 0 = Some (0, 0%nat)).
  { intros days Hdays. replace (Z.to_nat days) with 0%nat by lia. split.
    - cbn [yearLoop]. change (isLeapYear 2017) with false. cbv zeta iota.
      replace (0 + (365 + 0) <=? days) with false
        by (symmetry; apply Z.leb_gt; lia).
      reflexivity.
    - cbn [monthLoop monthLength nth_error].
      replace (0 + 31 <=? days - 0) with false
        by (symmetry; apply Z.leb_gt; lia).
      reflexivity. }
  split.
  - unfold getFormattedTime.
    set (days := to_int (Z.quot epoch 86400)).
    destruct (Z.lt_ge_cases days 0) as [Hlt|Hge].
    + destruct (Hneg days Hlt) as [-> ->]. cbn [nth_error monthNames]. eauto.
    + destruct (yearLoop_exit (S (Z.to_nat days)) days 0 2017)
        as (y & Hy & -> & Hlo & Hhi); try lia; [reflexivity|].
      rewrite days_before_year_succ in Hhi by lia.
      destruct (monthLoop_exit 13 y (days - Gregorian.days_before_year y) 0)
        as (m & Hm & Hmloop & _); try lia.
      { rewrite days_before_month_12. cbn [Gregorian.days_before_month].
        destruct (Gregorian.leap y); lia. }
      cbn [Gregorian.days_before_month] in Hmloop. rewrite Hmloop.
      rewrite monthNames_nth by exact Hm. eauto.
  - intros Hrange. unfold getFormattedTime.
    assert (Hq : -2147483648 <= Z.quot epoch 86400 <= 0).
    { pose proof (Z.quot_le_mono (-86400 * 2147483648) epoch 86400 ltac:(lia) ltac:(lia)).
      pose proof (Z.quot_le_mono epoch 0 86400 ltac:(lia) ltac:(lia)).
      replace (-86400 * 2147483648 ÷ 86400) with (-2147483648) in * by reflexivity.
      replace (0 ÷ 86400) with 0 in * by reflexivity. lia. }
    rewrite (to_int_small (Z.quot epoch 86400)) by (unfold INT_MAX; lia).
    destruct (Z.eq_dec (Z.quot epoch 86400) 0) as [Hzero|Hnz].
    + rewrite Hzero. eexists. split; [reflexivity|lia].
    + destruct (Hneg (Z.quot epoch 86400) ltac:(lia)) as [-> ->].
      cbn [nth_error monthNames]. eexists. split; [|lia].
      replace (epoch ÷ 86400 - 0 - 0 + 1) with (epoch ÷ 86400 + 1) by lia.
      reflexivity.
Qed.

Lemma getFormattedTime_total_witness :
  is_Some (getFormattedTime (-90000)) /\
  (-86400 * 2147483648 < -90000 < 0 ->
   exists time : string,
     getFormattedTime (-90000)
     = Some ("Jan. " ++ to_string (Z.quot (-90000) 86400 + 1) ++ " 2017 " ++ time)%string
     /\ Z.quot (-90000) 86400 + 1 <= 1).
Proof.
  apply (getFormattedTime_total (-90000)).
  vm_compute. discriminate.
Defined.

Local Open Scope R_scope.

(** *** Profiling totals ([Game::updateProfiling]) *)

Local Open Scope Z_scope.

Lemma timeOf_mergeTime (op : Z -> Z -> Z) (p : string * Z)
    (times : list (string * Z)) (k : string) :
  timeOf k (mergeTime op p times)
  = if String.eqb (fst p) k
    then Some (match timeOf k times with
               | Some v => op v (snd p)
               | None => snd p
               end)
    else timeOf k times.
Proof.
  induction times as [|pa rest IH]; cbn [mergeTime timeOf].
  - destruct (String.eqb_spec (fst p) k); reflexivity.
  - destruct (String.eqb_spec (fst pa) (fst p)) as [Heq|Hne]; cbn [timeOf fst snd].
    + rewrite Heq. destruct (String.eqb_spec (fst p) k); reflexivity.
    + destruct (String.eqb_spec (fst pa) k) as [Hk|Hk].
      * destruct (String.eqb_spec (fst p) k); [congruence|reflexivity].
      * exact IH.
Qed.

Lemma labels_mergeTime (op : Z -> Z -> Z) (p : string * Z)
    (times : list (string * Z)) :
  map fst (mergeTime op p times)
  = if bool_decide (fst p ∈ map fst times) then map fst times
    else map fst times ++ [fst p].
Proof.
  induction times as [|pa rest IH]; cbn [mergeTime map].
  - reflexivity.
  - destruct (String.eqb_spec (fst pa) (fst p)) as [Heq|Hne]; cbn [map fst].
    + rewrite bool_decide_eq_true_2; [reflexivity|].
      rewrite Heq. apply list_elem_of_here.
    + rewrite IH. destruct (bool_decide (fst p ∈ map fst rest)) eqn:Hin.
      * apply bool_decide_eq_true_1 in Hin.
        rewrite bool_decide_eq_true_2; [reflexivity|].
        apply list_elem_of_further, Hin.
      * apply bool_decide_eq_false_1 in Hin.
        rewrite bool_decide_eq_false_2; [reflexivity|].
        intros H. apply elem_of_cons in H as [H|H]; [congruence|contradiction].
Qed.

Lemma mergeTime_NoDup (op : Z -> Z -> Z) (p : string * Z)
    (times : list (string * Z)) :
  NoDup (map fst times) -> NoDup (map fst (mergeTime op p times)).
Proof.
  intros Hnd. rewrite labels_mergeTime. case_bool_decide as Hin; [exact Hnd|].
  apply NoDup_app. repeat split; [exact Hnd| |apply NoDup_singleton].
  intros x Hx Hx'. apply list_elem_of_singleton in Hx'. subst x. contradiction.
Qed.

(** The fold of [updateProfiling], on the two lists. *)
Lemma updateProfiling_fold (a : list (string * Z)) (prof : Profiling) :
  fullTimes (updateProfiling a prof)
  = foldl (fun times p => mergeTime addTime p times) (fullTimes prof) a /\
  maxTimes (updateProfiling a prof)
  = foldl (fun times p => mergeTime Z.max p times) (maxTimes prof) a /\
  numFrames (updateProfiling a prof) = numFrames prof + 1.
Proof.
  unfold updateProfiling. cbn [fullTimes maxTimes numFrames].
  revert prof. induction a as [|p a IH]; intros prof; cbn [foldl].
  - repeat split; reflexivity.
  - destruct (IH (mkProfiling (mergeTime addTime p (fullTimes prof))
                    (mergeTime Z.max p (maxTimes prof)) (numFrames prof)))
      as (Hf & Hm & Hn).
    cbn [fullTimes maxTimes numFrames] in *. repeat split; assumption.
Qed.

Lemma timeOf_in_range (k : string) (times : list (string * Z)) (v : Z) :
  timesInRange times -> timeOf k times = Some v -> 0 <= v < UINT64_MOD.
Proof.
  intros Hrange. induction Hrange as [|pa rest Hpa _ IH]; cbn [timeOf];
    [discriminate|].
  destruct (String.eqb (fst pa) k); [|exact IH].
  intros Heq. injection Heq as <-. exact Hpa.
Qed.

Lemma timesFor_cons (k : string) (p : string * Z) (a : list (string * Z)) :
  timesFor k (p :: a)
  = if String.eqb (fst p) k then snd p :: timesFor k a else timesFor k a.
Proof.
  unfold timesFor. cbn [List.filter]. destruct (String.eqb (fst p) k); reflexivity.
Qed.

Lemma full_fold_time (k : string) (a : list (string * Z)) :
  forall times : list (string * Z),
    timesInRange a -> timesInRange times ->
    timeOf k (foldl (fun times p => mergeTime addTime p times) times a)
    = match timeOf k times, timesFor k a with
      | None, [] => None
      | before, new =>
          Some ((default 0 before + foldr Z.add 0 new) mod UINT64_MOD)
      end.
Proof.
  unfold UINT64_MOD.
  induction a as [|p a IH]; intros times Ha Htimes; cbn [foldl].
  - unfold timesFor. cbn [List.filter map foldr].
    destruct (timeOf k times) as [v|] eqn:Hv; [|reflexivity].
    pose proof (timeOf_in_range k times v Htimes Hv) as Hr. unfold UINT64_MOD in Hr.
    unfold default; cbn [from_option Datatypes.id]. rewrite Z.add_0_r, Z.mod_small by lia. reflexivity.
  - apply Forall_cons in Ha as [Hp Ha].
    assert (Hmerged : timesInRange (mergeTime addTime p times)).
    { clear IH. induction Htimes as [|pa rest Hpa Hrest IHr]; cbn [mergeTime].
      - apply Forall_cons. split; [exact Hp|apply Forall_nil_2].
      - destruct (String.eqb (fst pa) (fst p)).
        + apply Forall_cons. split; [|assumption]. cbn [snd]. unfold addTime.
          apply Z.mod_pos_bound. reflexivity.
        + apply Forall_cons. split; assumption. }
    unfold UINT64_MOD in Hp. rewrite (IH _ Ha Hmerged). rewrite timeOf_mergeTime, timesFor_cons.
    destruct (String.eqb (fst p) k).
    + cbn [foldr]. destruct (timeOf k times) as [v|] eqn:Hv.
      * unfold addTime, UINT64_MOD, default. cbn [from_option Datatypes.id].
        destruct (timesFor k a); cbn [foldr];
          rewrite ?Z.add_0_r, ?Zplus_mod_idemp_l, ?Z.mod_mod by lia;
          f_equal; f_equal; lia.
      * unfold default; cbn [from_option Datatypes.id]. destruct (timesFor k a); cbn [foldr].
        -- f_equal; try f_equal; lia.
        -- f_equal; try f_equal; lia.
    + reflexivity.
Qed.

Lemma max_fold_time (k : string) (a : list (string * Z)) :
  forall times : list (string * Z),
    timeOf k (foldl (fun times p => mergeTime Z.max p times) times a)
    = match timeOf k times, timesFor k a with
      | None, [] => None
      | Some v, new => Some (foldr Z.max v new)
      | None, x :: new => Some (foldr Z.max x new)
      end.
Proof.
  induction a as [|p a IH]; intros times; cbn [foldl].
  - unfold timesFor. cbn [List.filter map]. destruct (timeOf k times); reflexivity.
  - rewrite IH, timeOf_mergeTime, timesFor_cons.
    destruct (String.eqb (fst p) k); [|reflexivity].
    assert (Hmax : forall (l : list Z) (u w : Z),
               foldr Z.max (Z.max u w) l = Z.max w (foldr Z.max u l)).
    { induction l as [|x l IHl]; intros u w; cbn [foldr]; [lia|].
      rewrite IHl. lia. }
    destruct (timeOf k times) as [v|].
    + cbn [foldr]. f_equal. apply Hmax.
    + reflexivity.
Qed.

Lemma labels_fold_NoDup (op : Z -> Z -> Z) (a : list (string * Z)) :
  forall times : list (string * Z),
    NoDup (map fst times) ->
    NoDup (map fst (foldl (fun times p => mergeTime op p times) times a)).
Proof.
  induction a as [|p a IH]; intros times Hnd; cbn [foldl]; [exact Hnd|].
  apply IH, mergeTime_NoDup, Hnd.
Qed.

(** X13.  After [updateProfiling], with all times [uint64_t] values: the
    frame count is one more; the total of a label is what it was (0 for a
    new label) plus the times the frame reports for it, modulo 2^64; the
    maximum of a label is the largest of what it was and those times; a
    label that the frame does not report keeps its entries; and a list of
    distinct labels stays a list of distinct labels. *)
Theorem updateProfiling_totals (a : list (string * Z)) (prof : Profiling)
    (k : string) :
  timesInRange a ->
  timesInRange (fullTimes prof) ->
  numFrames (updateProfiling a prof) = numFrames prof + 1 /\
  timeOf k (fullTimes (updateProfiling a prof))
  = match timeOf k (fullTimes prof), timesFor k a with
    | None, [] => None
    | before, new => Some ((default 0 before + foldr Z.add 0 new) mod UINT64_MOD)
    end /\
  timeOf k (maxTimes (updateProfiling a prof))
  = match timeOf k (maxTimes prof), timesFor k a with
    | None, [] => None
    | Some v, new => Some (foldr Z.max v new)
    | None, x :: new => Some (foldr Z.max x new)
    end /\
  (timesFor k a = [] ->
   timeOf k (fullTimes (updateProfiling a prof)) = timeOf k (fullTimes prof) /\
   timeOf k (maxTimes (updateProfiling a prof)) = timeOf k (maxTimes prof)) /\
  (NoDup (map fst (fullTimes prof)) ->
   NoDup (map fst (fullTimes (updateProfiling a prof)))) /\
  (NoDup (map fst (maxTimes prof)) ->
   NoDup (map fst (maxTimes (updateProfiling a prof)))).
Proof.
  intros Ha Hfull.
  destruct (updateProfiling_fold a prof) as (Hf & Hm & Hn).
  rewrite Hf, Hm.
  pose proof (full_fold_time k a (fullTimes prof) Ha Hfull) as Hft.
  pose proof (max_fold_time k a (maxTimes prof)) as Hmt.
  split; [exact Hn|]. split; [exact Hft|]. split; [exact Hmt|].
  split; [|split; apply labels_fold_NoDup].
  intros Hnone. rewrite Hft, Hmt, Hnone. split.
  - destruct (timeOf k (fullTimes prof)) as [v|] eqn:Hv; [|reflexivity].
    pose proof (timeOf_in_range k _ v Hfull Hv) as Hr.
    unfold default; cbn [from_option Datatypes.id foldr]. rewrite Z.add_0_r, Z.mod_small by exact Hr. reflexivity.
  - destruct (timeOf k (maxTimes prof)); reflexivity.
Qed.

Lemma updateProfiling_totals_witness :
  numFrames (updateProfiling [("frame"%string, 16000000); ("sky"%string, 2000000);
                              ("sky"%string, 1000000)]
               (mkProfiling [("frame"%string, 15000000)]
                  [("frame"%string, 17000000)] 1))
  = numFrames (mkProfiling [("frame"%string, 15000000)]
                 [("frame"%string, 17000000)] 1) + 1 /\
  timeOf "sky"
    (fullTimes (updateProfiling [("frame"%string, 16000000); ("sky"%string, 2000000);
                                 ("sky"%string, 1000000)]
                  (mkProfiling [("frame"%string, 15000000)]
                     [("frame"%string, 17000000)] 1)))
  = match timeOf "sky" (fullTimes (mkProfiling [("frame"%string, 15000000)]
                                     [("frame"%string, 17000000)] 1)),
          timesFor "sky" [("frame"%string, 16000000); ("sky"%string, 2000000);
                          ("sky"%string, 1000000)] with
    | None, [] => None
    | before, new => Some ((default 0 before + foldr Z.add 0 new) mod UINT64_MOD)
    end /\
  timeOf "sky"
    (maxTimes (updateProfiling [("frame"%string, 16000000); ("sky"%string, 2000000);
                                ("sky"%string, 1000000)]
                 (mkProfiling [("frame"%string, 15000000)]
                    [("frame"%string, 17000000)] 1)))
  = match timeOf "sky" (maxTimes (mkProfiling [("frame"%string, 15000000)]
                                    [("frame"%string, 17000000)] 1)),
          timesFor "sky" [("frame"%string, 16000000); ("sky"%string, 2000000);
                          ("sky"%string, 1000000)] with
    | None, [] => None
    | Some v, new => Some (foldr Z.max v new)
    | None, x :: new => Some (foldr Z.max x new)
    end /\
  (timesFor "sky" [("frame"%string, 16000000); ("sky"%string, 2000000);
                   ("sky"%string, 1000000)] = [] ->
   timeOf "sky"
     (fullTimes (updateProfiling [("frame"%string, 16000000); ("sky"%string, 2000000);
                                  ("sky"%string, 1000000)]
                   (mkProfiling [("frame"%string, 15000000)]
                      [("frame"%string, 17000000)] 1)))
   = timeOf "sky" (fullTimes (mkProfiling [("frame"%string, 15000000)]
                                [("frame"%string, 17000000)] 1)) /\
   timeOf "sky"
     (maxTimes (updateProfiling [("frame"%string, 16000000); ("sky"%string, 2000000);
                                 ("sky"%string, 1000000)]
                  (mkProfiling [("frame"%string, 15000000)]
                     [("frame"%string, 17000000)] 1)))
   = timeOf "sky" (maxTimes (mkProfiling [("frame"%string, 15000000)]
                               [("frame"%string, 17000000)] 1))) /\
  (NoDup (map fst (fullTimes (mkProfiling [("frame"%string, 15000000)]
                                [("frame"%string, 17000000)] 1))) ->
   NoDup (map fst (fullTimes
                     (updateProfiling [("frame"%string, 16000000);
                                       ("sky"%string, 2000000);
                                       ("sky"%string, 1000000)]
                        (mkProfiling [("frame"%string, 15000000)]
                           [("frame"%string, 17000000)] 1))))) /\
  (NoDup (map fst (maxTimes (mkProfiling [("frame"%string, 15000000)]
                               [("frame"%string, 17000000)] 1))) ->
   NoDup (map fst (maxTimes
                     (updateProfiling [("frame"%string, 16000000);
                                       ("sky"%string, 2000000);
                                       ("sky"%string, 1000000)]
                        (mkProfiling [("frame"%string, 15000000)]
                           [("frame"%string, 17000000)] 1))))).
Proof.
  apply (updateProfiling_totals
           [("frame"%string, 16000000); ("sky"%string, 2000000);
            ("sky"%string, 1000000)]
           (mkProfiling [("frame"%string, 15000000)] [("frame"%string, 17000000)] 1)
           "sky"%string).
  - unfold timesInRange, UINT64_MOD.
    repeat (apply Forall_cons; split; [cbn; lia|]). apply Forall_nil_2.
  - unfold timesInRange, UINT64_MOD.
    repeat (apply Forall_cons; split; [cbn; lia|]). apply Forall_nil_2.
Defined.

Local Open Scope R_scope.

(** *** The scroll callback ([Game::scrollFun]) *)

Lemma clamp_range (x lo hi : R) : lo <= hi -> lo <= clamp x lo hi <= hi.
Proof.
  intros Hlohi. unfold clamp, Rmin, Rmax.
  destruct (Rle_dec x lo); destruct (Rle_dec _ hi); lra.
Qed.

Lemma scrollFun_outside_idle (win : Window) (offset : Z) (g : Game) :
  switchPhase g <> IDLE -> scrollFun win offset g = g.
Proof.
  intros Hphase. unfold scrollFun.
  rewrite bool_decide_eq_false_2 by exact Hphase. cbn [andb].
  destruct g; reflexivity.
Qed.

(** X14.  A scroll during a body switch changes nothing.  In IDLE it
    changes exactly one of three values, chosen by the modifier keys, ALT
    before CTRL: with ALT down the field of view, which ends within
    0.1 and 40 degrees; otherwise with CTRL down the exposure, which ends
    within -4 and 4; otherwise the distance component of the view
    velocity, by 40 [offset] [sensitivity].  It never moves the camera
    itself nor touches the key table. *)
Theorem scrollFun_effect (win : Window) (offset : Z) (g : Game) :
  (switchPhase g <> IDLE -> scrollFun win offset g = g) /\
  (switchPhase g = IDLE -> glfwGetKey win GLFW_KEY_LEFT_ALT = true ->
   radians 0.1 <= viewFovy (scrollFun win offset g) <= radians 40 /\
   exposure (scrollFun win offset g) = exposure g /\
   viewSpeed (scrollFun win offset g) = viewSpeed g) /\
  (switchPhase g = IDLE -> glfwGetKey win GLFW_KEY_LEFT_ALT = false ->
   glfwGetKey win GLFW_KEY_LEFT_CONTROL = true ->
   -4 <= exposure (scrollFun win offset g) <= 4 /\
   viewFovy (scrollFun win offset g) = viewFovy g /\
   viewSpeed (scrollFun win offset g) = viewSpeed g) /\
  (switchPhase g = IDLE -> glfwGetKey win GLFW_KEY_LEFT_ALT = false ->
   glfwGetKey win GLFW_KEY_LEFT_CONTROL = false ->
   viewFovy (scrollFun win offset g) = viewFovy g /\
   exposure (scrollFun win offset g) = exposure g /\
   x3 (viewSpeed (scrollFun win offset g)) = x3 (viewSpeed g) /\
   y3 (viewSpeed (scrollFun win offset g)) = y3 (viewSpeed g) /\
   z3 (viewSpeed (scrollFun win offset g))
   = z3 (viewSpeed g) - 40 * IZR offset * sensitivity g) /\
  viewPolar (scrollFun win offset g) = viewPolar g /\
  panPolar (scrollFun win offset g) = panPolar g /\
  viewPos (scrollFun win offset g) = viewPos g /\
  keysHeld (scrollFun win offset g) = keysHeld g /\
  switchPhase (scrollFun win offset g) = switchPhase g.
Proof.
  split; [apply scrollFun_outside_idle|].
  unfold scrollFun. cbn [viewFovy exposure viewSpeed viewPolar panPolar viewPos
                           keysHeld switchPhase].
  split; [|split; [|split]];
    [intros Hphase Halt|intros Hphase Halt Hctrl|intros Hphase Halt Hctrl|].
  - rewrite Halt, bool_decide_eq_true_2 by exact Hphase. cbn [andb negb].
    split; [|split; reflexivity].
    apply clamp_range. unfold radians. pose proof PI_RGT_0. nra.
  - rewrite Halt, Hctrl, bool_decide_eq_true_2 by exact Hphase. cbn [andb negb].
    split; [|split; reflexivity]. apply clamp_range. lra.
  - rewrite Halt, Hctrl, bool_decide_eq_true_2 by exact Hphase. cbn [andb negb].
    repeat split; reflexivity.
  - repeat split; reflexivity.
Qed.

(** *** The starting body ([Game::loadEntityFiles]) *)

Local Open Scope Z_scope.

Lemma startingBodyLoop_first (es : list Entity) (startingBody : string)
    (bodies : list nat) :
  forall i : Z,
    match startingBodyLoop es startingBody bodies i with
    | Some j =>
        i <= j < i + Z.of_nat (List.length bodies) /\
        (exists b : nat,
            bodies !! Z.to_nat (j - i) = Some b /\
            getName (getParam es (Some b)) = startingBody) /\
        (forall (k : nat) (b : nat),
            (Z.of_nat k < j - i) -> bodies !! k = Some b ->
            getName (getParam es (Some b)) <> startingBody)
    | None =>
        forall b : nat, b ∈ bodies ->
                        getName (getParam es (Some b)) <> startingBody
    end.
Proof.
  induction bodies as [|b rest IH]; intros i; cbn [startingBodyLoop].
  - intros b Hb. apply elem_of_nil in Hb. contradiction.
  - destruct (String.eqb_spec (getName (getParam es (Some b))) startingBody)
      as [Heq|Hne].
    + cbn [List.length]. split; [lia|]. split.
      * exists b. replace (i - i) with 0 by lia. split; [reflexivity|exact Heq].
      * intros k b' Hk. lia.
    + specialize (IH (i + 1)).
      destruct (startingBodyLoop es startingBody rest (i + 1)) as [j|].
      * destruct IH as (Hrange & (b' & Hb' & Hname) & Hbefore).
        cbn [List.length]. split; [lia|]. split.
        -- exists b'. replace (Z.to_nat (j - i)) with (S (Z.to_nat (j - (i + 1))))
             by lia. split; [exact Hb'|exact Hname].
        -- intros k b'' Hk Hlook. destruct k as [|k].
           ++ cbn in Hlook. injection Hlook as <-. exact Hne.
           ++ cbn in Hlook. apply (Hbefore k b''); [lia|exact Hlook].
      * intros b' Hb'. apply elem_of_cons in Hb' as [->|Hb']; [exact Hne|].
        apply IH, Hb'.
Qed.

(** X15.  The starting focus is the index of the first body, in the order
    of [getBodies], whose name is the starting body: when a body has that
    name the index is within the list, the body at the index has the name
    and no body before it has; when no body has the name the focus stays
    what it was. *)
Theorem startingFocus_first (es : list Entity) (startingBody : string)
    (focusedBodyId0 : Z) :
  ((exists b : nat, b ∈ getBodies es /\
                    getName (getParam es (Some b)) = startingBody) ->
   0 <= startingFocus es startingBody focusedBodyId0
     < Z.of_nat (List.length (getBodies es)) /\
   (exists b : nat,
       getBodies es !! Z.to_nat (startingFocus es startingBody focusedBodyId0)
       = Some b /\
       getName (getParam es (Some b)) = startingBody) /\
   (forall (k : nat) (b : nat),
       Z.of_nat k < startingFocus es startingBody focusedBodyId0 ->
       getBodies es !! k = Some b ->
       getName (getParam es (Some b)) <> startingBody)) /\
  ((forall b : nat, b ∈ getBodies es ->
                    getName (getParam es (Some b)) <> startingBody) ->
   startingFocus es startingBody focusedBodyId0 = focusedBodyId0).
Proof.
  unfold startingFocus.
  pose proof (startingBodyLoop_first es startingBody (getBodies es) 0) as Hloop.
  destruct (startingBodyLoop es startingBody (getBodies es) 0) as [j|].
  - unfold default; cbn [from_option Datatypes.id].
    destruct Hloop as (Hrange & Hat & Hbefore).
    rewrite Z.sub_0_r in Hat, Hbefore. split.
    + intros _. split; [lia|]. split; [exact Hat|exact Hbefore].
    + intros Hnone. exfalso. destruct Hat as (b & Hb & Hname).
      apply (Hnone b); [|exact Hname]. apply list_elem_of_lookup. eexists. exact Hb.
  - unfold default; cbn [from_option Datatypes.id]. split.
    + intros (b & Hb & Hname). exfalso. apply (Hloop b Hb Hname).
    + intros _. reflexivity.
Qed.

Local Open Scope R_scope.

(** *** The end of TRACK ([Game::updateTrack]) *)

Lemma ease_below_one (t : R) : t < 1 -> ease t < 1.
Proof.
  intros Ht. pose proof (ease_increase t 1) as Hinc.
  assert (H1 : ease 1 = 1) by (unfold ease; lra). rewrite H1 in Hinc.
  set (p := (t + 1) / 2 * (1 - (t + 1) / 2) - (1 - t) * (1 - t) / 12) in Hinc.
  assert (Hp : 0 <= p * p) by nra.
  assert (Hs : 0 < (1 - t) * (1 - t)) by (apply Rmult_lt_0_compat; lra).
  assert (Hu : 0 <= (1 - (t + 1)) * (1 - (t + 1))) by nra.
  assert (Hq : 0 <= (1 - (t + 1)) * (1 - (t + 1)) * ((1 - t) * (1 - t)) / 12).
  { pose proof (Rmult_le_pos _ _ Hu (Rlt_le _ _ Hs)). lra. }
  assert (Hr : 0 < (1 - t) * (1 - t) * ((1 - t) * (1 - t)) / 180).
  { pose proof (Rmult_lt_0_compat _ _ Hs Hs). lra. }
  assert (0 < 30 * (1 - t)
              * (p * p + (1 - (t + 1)) * (1 - (t + 1)) * ((1 - t) * (1 - t)) / 12
                 + (1 - t) * (1 - t) * ((1 - t) * (1 - t)) / 180)).
  { apply Rmult_lt_0_compat; lra. }
  lra.
Qed.

(** X16.  The frame that ends TRACK commits the polar position
    interpolated at the timer value from before the frame, not at 1: its
    distance is (1 - f) times the old distance plus f times the target
    distance, with f = ease of the old timer.  So when the timer was below
    1 and the two distances differ, MOVE starts from a position that has
    not reached the target distance. *)
Theorem track_ends_short (dt : R) (g : Game) :
  switchTime g < 1 ->
  1 < switchTime g + dt ->
  z3 (switchNewViewPolar g) <> z3 (viewPolar g) ->
  switchPhase (updateTrack dt g) = MOVE /\
  switchTime (updateTrack dt g) = 0 /\
  z3 (viewPolar (updateTrack dt g))
  = (1 - ease (switchTime g)) * z3 (viewPolar g)
    + ease (switchTime g) * z3 (switchNewViewPolar g) /\
  y3 (viewPolar (updateTrack dt g))
  = (1 - ease (switchTime g)) * y3 (viewPolar g)
    + ease (switchTime g) * y3 (switchNewViewPolar g) /\
  z3 (viewPolar (updateTrack dt g)) <> z3 (switchNewViewPolar g).
Proof.
  intros Ht Hdt Hz. pose proof (ease_below_one (switchTime g) Ht) as Hf.
  unfold updateTrack. cbn [switchPhase switchTime viewPolar].
  rewrite !decide_True by lra.
  replace (Rmin 1 (switchTime g / 1)) with (switchTime g)
    by (unfold Rmin; destruct (Rle_dec 1 (switchTime g / 1)); lra).
  cbn [add scale x3 y3 z3].
  split; [reflexivity|]. split; [reflexivity|]. split; [reflexivity|].
  split; [reflexivity|].
  intros Heq. apply Hz.
  assert ((1 - ease (switchTime g))
          * (z3 (viewPolar g) - z3 (switchNewViewPolar g)) = 0) as Hprod by lra.
  apply Rmult_integral in Hprod. destruct Hprod; lra.
Qed.

Lemma track_ends_short_witness :
  switchPhase (updateTrack 2 trackingFar) = MOVE /\
  switchTime (updateTrack 2 trackingFar) = 0 /\
  z3 (viewPolar (updateTrack 2 trackingFar))
  = (1 - ease (switchTime trackingFar)) * z3 (viewPolar trackingFar)
    + ease (switchTime trackingFar) * z3 (switchNewViewPolar trackingFar) /\
  y3 (viewPolar (updateTrack 2 trackingFar))
  = (1 - ease (switchTime trackingFar)) * y3 (viewPolar trackingFar)
    + ease (switchTime trackingFar) * y3 (switchNewViewPolar trackingFar) /\
  z3 (viewPolar (updateTrack 2 trackingFar)) <> z3 (switchNewViewPolar trackingFar).
Proof.
  apply (track_ends_short 2 trackingFar).
  - change (0 < 1). lra.
  - change (1 < 0 + 2). lra.
  - change (40 <> 13). lra.
Defined.

(** *** The frame ([Game::update]) *)

Lemma scroll_keeps {A : Type} (proj : Game -> A) (win : Window) (scroll : list Z) :
  (forall (offset : Z) (g : Game), proj (scrollFun win offset g) = proj g) ->
  forall g : Game,
    proj (foldl (fun g' offset => scrollFun win offset g') g scroll) = proj g.
Proof.
  intros Hkeep. induction scroll as [|offset scroll IH]; intros g; cbn [foldl];
    [reflexivity|].
  rewrite IH. apply Hkeep.
Qed.

Lemma updateCamera_keeps (win : Window) (dt : R) (g : Game) :
  wireframe (updateCamera win dt g) = wireframe g /\
  bloom (updateCamera win dt g) = bloom g /\
  epoch (updateCamera win dt g) = epoch g /\
  entityCollection (updateCamera win dt g) = entityCollection g.
Proof.
  unfold updateCamera. destruct (switchPhase g); repeat split; reflexivity.
Qed.

Lemma updateCamera_held (win : Window) (dt : R) (g : Game) (k : Z) :
  held (keysHeld (updateCamera win dt g)) k
  = if bool_decide (switchPhase g = IDLE)
       && bool_decide (k = GLFW_KEY_K \/ k = GLFW_KEY_L \/ k = GLFW_KEY_TAB)
    then glfwGetKey win k
    else held (keysHeld g) k.
Proof.
  unfold updateCamera. destruct (switchPhase g) eqn:Hphase;
    [|rewrite bool_decide_eq_false_2 by discriminate; reflexivity..].
  rewrite bool_decide_eq_true_2 by reflexivity. cbn [andb].
  unfold updateIdle. cbn [keysHeld]. unfold idleTabCheck.
  rewrite !isPressedOnce_held.
  case_bool_decide as Hk.
  - destruct Hk as [->| [->| ->]].
    + rewrite (decide_False (P := GLFW_KEY_TAB = GLFW_KEY_K)) by (compute; discriminate).
      rewrite (decide_False (P := GLFW_KEY_L = GLFW_KEY_K)) by (compute; discriminate).
      rewrite decide_True by reflexivity. reflexivity.
    + rewrite (decide_False (P := GLFW_KEY_TAB = GLFW_KEY_L)) by (compute; discriminate).
      rewrite decide_True by reflexivity. reflexivity.
    + rewrite decide_True by reflexivity. reflexivity.
  - rewrite !decide_False by (intros <-; apply Hk; tauto). reflexivity.
Qed.

(** What a completed frame leaves. *)
Lemma completed_frame_facts (computePosition : Orbit -> R -> vec3) (win : Window)
    (scroll : list Z) (dt : R) (g g' : Game) (r : RenderState) :
  update computePosition win scroll dt g = Some (g', r) ->
  epoch g' = epoch g + at_index 0 (timeWarpValues g) (timeWarpIndex g) * dt /\
  entities (entityCollection g') = entities (entityCollection g) /\
  entityStateUpdate computePosition (entities (entityCollection g)) (epoch g')
  = Some (state (entityCollection g')) /\
  wireframe g'
  = xorb (wireframe g)
      (glfwGetKey win GLFW_KEY_W && negb (held (keysHeld g) GLFW_KEY_W)) /\
  bloom g'
  = xorb (bloom g)
      (glfwGetKey win GLFW_KEY_B && negb (held (keysHeld g) GLFW_KEY_B)) /\
  (forall k : Z,
      k ∈ [GLFW_KEY_W; GLFW_KEY_B; GLFW_KEY_F12; GLFW_KEY_F5] ->
      held (keysHeld g') k = glfwGetKey win k) /\
  (forall k : Z,
      k ∈ [GLFW_KEY_K; GLFW_KEY_L; GLFW_KEY_TAB] ->
      held (keysHeld g') k
      = if bool_decide (switchPhase g = IDLE) then glfwGetKey win k
        else held (keysHeld g) k) /\
  preMousePosX g' = fst (glfwGetCursorPos win) /\
  preMousePosY g' = snd (glfwGetCursorPos win) /\
  r_wireframe r = wireframe g' /\
  r_bloom r = bloom g' /\
  r_viewPos r = viewPos g' /\
  r_viewDir r = viewDir g' /\
  r_formattedTime r = getFormattedTime (floor (epoch g')).
Proof.
  unfold update.
  destruct (entityStateUpdate computePosition (entities (entityCollection g))
              (epoch g + at_index 0 (timeWarpValues g) (timeWarpIndex g) * dt))
    as [st|] eqn:Hst; [|discriminate].
  destruct (isPressedOnce win GLFW_KEY_W (keysHeld g)) as [pW k1] eqn:HW.
  destruct (isPressedOnce win GLFW_KEY_B k1) as [pB k2] eqn:HB.
  cbv zeta.
  destruct (isPressedOnce win GLFW_KEY_F12 _) as [p12 k3] eqn:H12.
  destruct (isPressedOnce win GLFW_KEY_F5 k3) as [p5 k4] eqn:H5.
  intros Hsome. injection Hsome as <- <-.
  pose proof (isPressedOnce_result win GLFW_KEY_W (keysHeld g)) as HpW.
  pose proof (isPressedOnce_result win GLFW_KEY_B k1) as HpB.
  pose proof (fun k => isPressedOnce_held win GLFW_KEY_W k (keysHeld g)) as Hk1.
  pose proof (fun k => isPressedOnce_held win GLFW_KEY_B k k1) as Hk2.
  pose proof (fun k => isPressedOnce_held win GLFW_KEY_F5 k k3) as Hk4.
  rewrite HW in HpW, Hk1. rewrite HB in HpB, Hk2. rewrite H5 in Hk4.
  cbn [fst snd] in HpW, HpB, Hk1, Hk2, Hk4.
  match type of H12 with
  | isPressedOnce _ _ ?kh = _ =>
      pose proof (fun k => isPressedOnce_held win GLFW_KEY_F12 k kh) as Hk3;
      rewrite H12 in Hk3; cbn [fst snd] in Hk3
  end.
  set (g1 := withFrameStart g _ st k2 _ _) in *.
  destruct (updateCamera_keeps win dt g1) as (Hcw & Hcb & Hce & Hcc).
  pose proof (updateCamera_held win dt g1) as Hch.
  assert (Hheld : forall k : Z,
             held k4 k
             = if decide (GLFW_KEY_F5 = k) then glfwGetKey win GLFW_KEY_F5
               else if decide (GLFW_KEY_F12 = k) then glfwGetKey win GLFW_KEY_F12
               else if bool_decide (switchPhase g = IDLE)
                       && bool_decide (k = GLFW_KEY_K \/ k = GLFW_KEY_L
                                       \/ k = GLFW_KEY_TAB)
               then glfwGetKey win k
               else if decide (GLFW_KEY_B = k) then glfwGetKey win GLFW_KEY_B
               else if decide (GLFW_KEY_W = k) then glfwGetKey win GLFW_KEY_W
               else held (keysHeld g) k).
  { intros k. rewrite Hk4, Hk3, Hch.
    change (switchPhase g1) with (switchPhase g).
    change (keysHeld g1) with k2. rewrite Hk2, Hk1. reflexivity. }
  rewrite !(scroll_keeps _ win scroll) by (intros; reflexivity).
  cbn [epoch entityCollection wireframe bloom keysHeld preMousePosX preMousePosY
         viewPos viewDir withFrameEnd r_wireframe r_bloom r_viewPos r_viewDir
         r_formattedTime].
  rewrite Hcw, Hcb, Hce, Hcc.
  change (epoch g1)
    with (epoch g + at_index 0 (timeWarpValues g) (timeWarpIndex g) * dt).
  change (entityCollection g1) with (setState (entityCollection g) st).
  cbn [entities state setState].
  change (wireframe g1) with (if pW then negb (wireframe g) else wireframe g).
  change (bloom g1) with (if pB then negb (bloom g) else bloom g).
  repeat split; try reflexivity.
  - exact Hst.
  - rewrite HpW. destruct (wireframe g), (glfwGetKey win GLFW_KEY_W),
      (held (keysHeld g) GLFW_KEY_W); reflexivity.
  - rewrite HpB. rewrite Hk1.
    rewrite (decide_False (P := GLFW_KEY_W = GLFW_KEY_B)) by (compute; discriminate).
    destruct (bloom g), (glfwGetKey win GLFW_KEY_B),
      (held (keysHeld g) GLFW_KEY_B); reflexivity.
  - intros k Hk. rewrite Hheld.
    repeat (apply elem_of_cons in Hk as [->|Hk]);
      [..|apply elem_of_nil in Hk; contradiction];
      repeat first
        [ rewrite decide_True by reflexivity
        | rewrite (decide_False (P := _ = _)) by (compute; discriminate)
        | rewrite (bool_decide_eq_false_2 (_ \/ _ \/ _))
            by (compute; intros [H| [H|H]]; discriminate)
        | rewrite andb_false_r ];
      reflexivity.
  - intros k Hk. rewrite Hheld.
    assert (Hin : k = GLFW_KEY_K \/ k = GLFW_KEY_L \/ k = GLFW_KEY_TAB).
    { repeat (apply elem_of_cons in Hk as [->|Hk]); [tauto..|].
      apply elem_of_nil in Hk. contradiction. }
    rewrite (bool_decide_eq_true_2 _ Hin), andb_true_r.
    rewrite !(decide_False (P := _ = k))
      by (destruct Hin as [->| [->| ->]]; compute; discriminate).
    reflexivity.
Qed.

Lemma update_completes (computePosition : Orbit -> R -> vec3) (win : Window)
    (scroll : list Z) (dt : R) (g : Game) :
  wellFormed (entities (entityCollection g)) ->
  exists (g' : Game) (r : RenderState),
    update computePosition win scroll dt g = Some (g', r).
Proof.
  intros Hwf.
  destruct (entityStateUpdate_resolved computePosition
              (entities (entityCollection g))
              (epoch g + at_index 0 (timeWarpValues g) (timeWarpIndex g) * dt) Hwf)
    as (st & Hst & _).
  unfold update. rewrite Hst.
  destruct (isPressedOnce win GLFW_KEY_W (keysHeld g)) as [pW k1].
  destruct (isPressedOnce win GLFW_KEY_B k1) as [pB k2].
  cbv zeta.
  destruct (isPressedOnce win GLFW_KEY_F12 _) as [p12 k3].
  destruct (isPressedOnce win GLFW_KEY_F5 k3) as [p5 k4].
  eexists _, _. reflexivity.
Qed.

Lemma pair_wellFormed : wellFormed Sample.pair.
Proof.
  split; unfold getAll; cbn [List.length Sample.pair seq];
    repeat (apply Forall_cons; split; [cbn; try lia; reflexivity|]);
    apply Forall_nil_2.
Qed.



(** X18.  The wireframe and bloom toggles follow the rising edges of W
    and B from frame to frame: over two consecutive frames on a
    well-formed hierarchy, the first frame flips a toggle when its key is
    down and the key table had it up, and the second frame flips it
    exactly when the key is down in the second frame and was up in the
    first.  A key kept down over both frames flips once at most, and
    nothing else in a frame (camera phases, scrolling, the other keys)
    changes a toggle. *)
Theorem toggles_follow_key_edges (computePosition : Orbit -> R -> vec3)
    (win1 win2 : Window) (scroll1 scroll2 : list Z) (dt1 dt2 : R) (g : Game) :
  wellFormed (entities (entityCollection g)) ->
  exists (g1 g2 : Game) (r1 r2 : RenderState),
    update computePosition win1 scroll1 dt1 g = Some (g1, r1) /\
    update computePosition win2 scroll2 dt2 g1 = Some (g2, r2) /\
    wireframe g1
    = xorb (wireframe g)
        (glfwGetKey win1 GLFW_KEY_W && negb (held (keysHeld g) GLFW_KEY_W)) /\
    bloom g1
    = xorb (bloom g)
        (glfwGetKey win1 GLFW_KEY_B && negb (held (keysHeld g) GLFW_KEY_B)) /\
    wireframe g2
    = xorb (wireframe g1)
        (glfwGetKey win2 GLFW_KEY_W && negb (glfwGetKey win1 GLFW_KEY_W)) /\
    bloom g2
    = xorb (bloom g1)
        (glfwGetKey win2 GLFW_KEY_B && negb (glfwGetKey win1 GLFW_KEY_B)).
Proof.
  intros Hwf.
  destruct (update_completes computePosition win1 scroll1 dt1 g Hwf)
    as (g1 & r1 & Hup1).
  pose proof (completed_frame_facts computePosition win1 scroll1 dt1 g g1 r1 Hup1)
    as (_ & Hes & _ & Hw1 & Hb1 & Hkeys & _).
  assert (Hwf1 : wellFormed (entities (entityCollection g1)))
    by (rewrite Hes; exact Hwf).
  destruct (update_completes computePosition win2 scroll2 dt2 g1 Hwf1)
    as (g2 & r2 & Hup2).
  pose proof (completed_frame_facts computePosition win2 scroll2 dt2 g1 g2 r2 Hup2)
    as (_ & _ & _ & Hw2 & Hb2 & _).
  exists g1, g2, r1, r2.
  rewrite (Hkeys GLFW_KEY_W) in Hw2 by (apply list_elem_of_here).
  rewrite (Hkeys GLFW_KEY_B) in Hb2
    by (apply list_elem_of_further, list_elem_of_here).
  repeat split; assumption.
Qed.

Lemma toggles_follow_key_edges_witness :
  exists (g1 g2 : Game) (r1 r2 : RenderState),
    update (fun _ _ => zero3) Sample.idleWindow [] 1 Sample.game = Some (g1, r1) /\
    update (fun _ _ => zero3) Sample.tabWindow [] 1 g1 = Some (g2, r2) /\
    wireframe g1
    = xorb (wireframe Sample.game)
        (glfwGetKey Sample.idleWindow GLFW_KEY_W
         && negb (held (keysHeld Sample.game) GLFW_KEY_W)) /\
    bloom g1
    = xorb (bloom Sample.game)
        (glfwGetKey Sample.idleWindow GLFW_KEY_B
         && negb (held (keysHeld Sample.game) GLFW_KEY_B)) /\
    wireframe g2
    = xorb (wireframe g1)
        (glfwGetKey Sample.tabWindow GLFW_KEY_W
         && negb (glfwGetKey Sample.idleWindow GLFW_KEY_W)) /\
    bloom g2
    = xorb (bloom g1)
        (glfwGetKey Sample.tabWindow GLFW_KEY_B
         && negb (glfwGetKey Sample.idleWindow GLFW_KEY_B)).
Proof.
  apply (toggles_follow_key_edges (fun _ _ => zero3) Sample.idleWindow
           Sample.tabWindow [] [] 1 1 Sample.game).
  exact pair_wellFormed.
Defined.

(** *** Polar angles of a direction ([polarToCartesian], [updateMove]) *)

(** X19.  Taking the polar angles of a unit direction as [updateTrack] and
    [updateMove] do, [atan2(y, x)] and [asin(z)], and going back through
    [polarToCartesian] gives the direction again, poles included. *)
Theorem polarToCartesian_of_angles (u : vec3) :
  dot u u = 1 ->
  polarToCartesian (Vec2 (atan2 (y3 u) (x3 u)) (asin (z3 u))) = u.
Proof. exact (polar_of_unit u). Qed.

Lemma polarToCartesian_of_angles_witness :
  polarToCartesian
    (Vec2 (atan2 (y3 (Vec3 0 (-1) 0)) (x3 (Vec3 0 (-1) 0)))
       (asin (z3 (Vec3 0 (-1) 0))))
  = Vec3 0 (-1) 0.
Proof.
  apply (polarToCartesian_of_angles (Vec3 0 (-1) 0)).
  unfold dot. cbn [x3 y3 z3]. lra.
Defined.

(** X20.  The polar position that the last frame of MOVE commits is the
    arrival point: placed around the focused body as IDLE places the
    camera (the body position plus the distance times [polarToCartesian]
    of the two angles), it is the target position of the move, at
    distance max(4 radius, 1000) of the body on the side the camera came
    from. *)
Theorem move_end_polar_is_target (dt : R) (g : Game) :
  1 < switchTime g + dt ->
  positionOf g (getFocusedBody g) <> moveSourcePos g ->
  switchPhase (updateMove dt g) = IDLE /\
  add (positionOf g (getFocusedBody g))
      (relativeViewPos (viewPolar (updateMove dt g)))
  = moveTargetPos g /\
  z3 (viewPolar (updateMove dt g)) = Rmax (4 * radiusOf g (getFocusedBody g)) 1000.
Proof.
  intros Hdt Hne. unfold updateMove. cbn [switchPhase viewPolar].
  rewrite !decide_True by lra.
  split; [reflexivity|]. split; [|reflexivity].
  unfold relativeViewPos, xy. cbn [x2 y2 x3 y3 z3].
  pose proof (normalize_unit _ (sub_ne_zero _ _ Hne)) as Hunit.
  fold (moveDirection g) in Hunit.
  pose proof (polar_of_unit (neg (moveDirection g))) as Hpolar.
  cbn [neg x3 y3 z3] in Hpolar. rewrite Hpolar.
  - unfold moveTargetPos. apply vec3_eq; cbn [add sub scale neg x3 y3 z3]; lra.
  - rewrite <- Hunit. unfold dot, neg. cbn [x3 y3 z3]. ring.
Qed.

Lemma move_end_polar_is_target_witness :
  switchPhase (updateMove 2 Sample.moving) = IDLE /\
  add (positionOf Sample.moving (getFocusedBody Sample.moving))
      (relativeViewPos (viewPolar (updateMove 2 Sample.moving)))
  = moveTargetPos Sample.moving /\
  z3 (viewPolar (updateMove 2 Sample.moving))
  = Rmax (4 * radiusOf Sample.moving (getFocusedBody Sample.moving)) 1000.
Proof.
  apply (move_end_polar_is_target 2 Sample.moving).
  - change (1 < 0 + 2). lra.
  - intros Heq. apply (f_equal x3) in Heq. revert Heq.
    change (x3 (positionOf Sample.moving (getFocusedBody Sample.moving))) with 23.
    unfold moveSourcePos.
    change (positionOf Sample.moving (getPreviousBody Sample.moving)) with zero3.
    change (viewPolar Sample.moving) with (Vec3 0 0 13).
    unfold polarToCartesian. cbn [xy add scale zero3 x2 y2 x3 y3 z3].
    rewrite cos_0. lra.
Defined.

(** *** Indices stay inside their vectors ([Game::update]) *)







(** *** The rotation angle of a body ([Game::update]) *)

Lemma fmod_one_range (x : R) :
  -1 < fmod x 1 < 1 /\ (0 <= x -> 0 <= fmod x 1).
Proof.
  unfold fmod, Rtrunc. replace (x / 1) with x by field.
  destruct (decide (0 <= x)) as [Hx|Hx].
  - destruct (base_Int_part x) as [Hlo Hhi]. repeat split; intros; lra.
  - destruct (base_Int_part (- x)) as [Hlo Hhi]. repeat split; intros; lra.
Qed.

Lemma fmod_one_next (x : R) : 0 <= x -> fmod (x + 1) 1 = fmod x 1.
Proof.
  intros Hx. unfold fmod, Rtrunc.
  replace (x / 1) with x by field. replace ((x + 1) / 1) with (x + 1) by field.
  rewrite !decide_True by lra.
  destruct (base_Int_part x) as [Hlo Hhi].
  rewrite <- (Int_part_spec (x + 1) (Int_part x + 1)).
  - rewrite plus_IZR. lra.
  - rewrite plus_IZR. lra.
Qed.

(** X22.  For a body whose rotation period is not zero, the rotation
    angle of a frame is less than one turn in magnitude, is not negative
    when the epoch and the period have the same sign, and is then the same
    one period later: the body makes one turn per period. *)
Theorem rotationAngle_turns (epoch' : R) (p : EntityParam) :
  getRotationPeriod (getModel p) <> 0 ->
  - (2 * PI) < rotationAngle epoch' p < 2 * PI /\
  (0 <= epoch' / getRotationPeriod (getModel p) ->
   0 <= rotationAngle epoch' p /\
   rotationAngle (epoch' + getRotationPeriod (getModel p)) p
   = rotationAngle epoch' p).
Proof.
  intros Hperiod. unfold rotationAngle. pose proof PI_RGT_0 as Hpi.
  destruct (fmod_one_range (epoch' / getRotationPeriod (getModel p)))
    as (Hrange & Hpos).
  split; [nra|]. intros Hsign. split; [specialize (Hpos Hsign); nra|].
  replace ((epoch' + getRotationPeriod (getModel p))
           / getRotationPeriod (getModel p))
    with (epoch' / getRotationPeriod (getModel p) + 1) by (field; exact Hperiod).
  rewrite (fmod_one_next _ Hsign). reflexivity.
Qed.

Lemma rotationAngle_turns_witness :
  - (2 * PI) < rotationAngle 43200 (Sample.body "Earth" 6371 None None) < 2 * PI /\
  (0 <= 43200 / getRotationPeriod (getModel (Sample.body "Earth" 6371 None None)) ->
   0 <= rotationAngle 43200 (Sample.body "Earth" 6371 None None) /\
   rotationAngle
     (43200 + getRotationPeriod (getModel (Sample.body "Earth" 6371 None None)))
     (Sample.body "Earth" 6371 None None)
   = rotationAngle 43200 (Sample.body "Earth" 6371 None None)).
Proof.
  apply (rotationAngle_turns 43200 (Sample.body "Earth" 6371 None None)).
  change (86400 <> 0). lra.
Defined.
